(** * A virtual-memory simulator: TLB, page frames and eviction policies

    Shallow embedding of [src/main.c]: the translation cache
    ([tlb_lookup], [tlb_insert], [tlb_invalidate_vpn]), the simulation
    loop of [main], one iteration of which is [step], the argument
    loop of [main], [parse_loop], and [main] from the arguments to the
    report.

    Conventions.
    - C [int], [unsigned int] and [unsigned long] values are integers of
      [Z]; the casts between [int] and [unsigned int] and the wrap-around
      of the [unsigned long] tick, taken to be 64 bits wide, are written
      out.  The statistics
      counters are [int]s that only ever grow by one; signed overflow is
      undefined in C, so they are kept as mathematical integers.  The
      two sums of counters in the final report are additions of [int]s:
      [int_add] gives what a two's-complement machine computes, and what
      is proved about a sum assumes that it fits an [int].
    - An array is a list, read and written through [load] and [store];
      an access outside the array is undefined behaviour in C and makes
      the computation [Stuck].
    - The loop [while (1)] of the CLOCK policy takes fuel; running out of
      it is [Timeout].
    - [double] is IEEE 754 binary64 with round-to-nearest, as computed by
      the primitive floats of Rocq. *)

From Stdlib Require Import ZArith Lia Ascii Floats Uint63.
From stdpp Require Import base tactics option list strings.

Local Open Scope Z_scope.
Set Warnings "-inexact-float".

(** ** Outcomes of a computation *)

Inductive outcome (A : Type) : Type :=
| Done (a : A)
| Stuck
| Timeout.
Arguments Done {A} a.
Arguments Stuck {A}.
Arguments Timeout {A}.

Definition bind {A B : Type} (m : outcome A) (k : A -> outcome B) : outcome B :=
  match m with
  | Done a => k a
  | Stuck => Stuck
  | Timeout => Timeout
  end.

Notation "'do' x <- m ; k" := (bind m (fun x => k))
  (at level 10, x name, m at level 100, k at level 200, only parsing).
Notation "'do' ' p <- m ; k" := (bind m (fun x => let 'p := x in k))
  (at level 10, p pattern, m at level 100, k at level 200, only parsing).

(** ** Machine integers *)

Definition PAGE_SIZE : Z := 4096.
Definition DEFAULT_NUM_FRAMES : Z := 3.

Definition UINT_MOD : Z := 2 ^ 32.
Definition ULONG_MOD : Z := 2 ^ 64.
Definition VPN_LIMIT : Z := 2 ^ 20.

(** [(int)u] for an [unsigned int] u. *)
Definition int_of_uint (u : Z) : Z := (u + 2 ^ 31) mod UINT_MOD - 2 ^ 31.

(** [(unsigned int)i] for an [int] i. *)
Definition uint_of_int (i : Z) : Z := i mod UINT_MOD.

(** The marker of a frame that holds no page. *)
Definition EMPTY : Z := -1.

(** ** Arrays *)

Definition load {A : Type} (a : list A) (i : Z) : outcome A :=
  if 0 <=? i then
    match a !! Z.to_nat i with
    | Some x => Done x
    | None => Stuck
    end
  else Stuck.

Definition store {A : Type} (a : list A) (i : Z) (x : A) : outcome (list A) :=
  if (0 <=? i) && (i <? Z.of_nat (length a)) then Done (<[Z.to_nat i := x]> a)
  else Stuck.

(** [for (i = i0; i < i0 + k; i++) if (p(a[i])) { found = i; break; }] *)
Fixpoint first_index {A : Type} (p : A -> bool) (a : list A) (k : nat) (i : Z)
  : outcome (option Z) :=
  match k with
  | O => Done None
  | S k' =>
      do x <- load a i ;
      if p x then Done (Some i) else first_index p a k' (i + 1)
  end.

(** [for (i = i0; i < i0 + k; i++) if (key(a[i]) < key(a[victim])) victim = i;] *)
Fixpoint min_index {A : Type} (key : A -> Z) (a : list A) (k : nat) (i victim : Z)
  : outcome Z :=
  match k with
  | O => Done victim
  | S k' =>
      do x <- load a i ;
      do y <- load a victim ;
      min_index key a k' (i + 1) (if key x <? key y then i else victim)
  end.

(** ** Data *)

Inductive Algorithm := ALG_FIFO | ALG_LRU | ALG_CLOCK.
Inductive WritePolicy := WP_WRITE_THROUGH | WP_WRITE_BACK.

Record TLBEntry := mkTLBEntry {
  valid : Z;
  vpn : Z;
  frame_index : Z;
  last_used : Z
}.

Record Config := mkConfig {
  alg : Algorithm;
  write_policy : WritePolicy;
  tlb_size : Z;
  num_frames : Z
}.

(** One record of the trace, as [fscanf(fp, " %c %x", &op, &addr)] reads it. *)
Record Access := mkAccess {
  op : ascii;
  addr : Z
}.

(** The local variables of [main] that live across iterations. *)
Record State := mkState {
  reads : Z;
  writes : Z;
  page_faults : Z;
  tlb_hits : Z;
  tlb_misses : Z;
  write_backs : Z;
  frames : list Z;
  frame_last_used : list Z;
  ref_bits : list Z;
  dirty : list Z;
  fifo_index : Z;
  clock_hand : Z;
  tick : Z;
  tlb : list TLBEntry
}.

(** The tests [alg == ALG_LRU], [alg == ALG_CLOCK],
    [write_policy == WP_WRITE_BACK], [op == 'R'] and [op == 'W']. *)
Definition is_LRU (a : Algorithm) : bool :=
  match a with ALG_LRU => true | _ => false end.
Definition is_CLOCK (a : Algorithm) : bool :=
  match a with ALG_CLOCK => true | _ => false end.
Definition is_WB (w : WritePolicy) : bool :=
  match w with WP_WRITE_BACK => true | _ => false end.

Definition is_R (c : ascii) : bool := Ascii.eqb c "R"%char.
Definition is_W (c : ascii) : bool := Ascii.eqb c "W"%char.

(** ** The translation cache *)

(** A null [tlb] pointer is the empty list: [calloc] is only called with
    [tlb_size > 0], so an allocated table has at least one entry. *)
Definition tlb_null (t : list TLBEntry) : bool :=
  match t with [] => true | _ => false end.

(** [tlb[i].valid && tlb[i].vpn == vpn] *)
Definition tlb_match (v : Z) (e : TLBEntry) : bool :=
  negb (valid e =? 0) && (vpn e =? v).

(** [!tlb[i].valid] *)
Definition tlb_free (e : TLBEntry) : bool := valid e =? 0.

(** Returns the table and [Some frame] on a hit ([return 1] with
    [*out_frame] set), [None] on a miss ([return 0]). *)
Definition tlb_lookup (t : list TLBEntry) (size : Z) (v : Z) (now : Z)
  : outcome (list TLBEntry * option Z) :=
  if tlb_null t || (size <=? 0) then Done (t, None)
  else
    do r <- first_index (tlb_match v) t (Z.to_nat size) 0 ;
    match r with
    | Some i =>
        do e <- load t i ;
        do t' <- store t i (mkTLBEntry (valid e) (vpn e) (frame_index e) now) ;
        Done (t', Some (frame_index e))
    | None => Done (t, None)
    end.

Definition tlb_insert (t : list TLBEntry) (size : Z) (v : Z) (f : Z) (now : Z)
  : outcome (list TLBEntry) :=
  if tlb_null t || (size <=? 0) then Done t
  else
    do r <- first_index (tlb_match v) t (Z.to_nat size) 0 ;
    match r with
    | Some i =>
        do e <- load t i ;
        store t i (mkTLBEntry (valid e) (vpn e) f now)
    | None =>
        do r2 <- first_index tlb_free t (Z.to_nat size) 0 ;
        match r2 with
        | Some i => store t i (mkTLBEntry 1 v f now)
        | None =>
            do victim <- min_index last_used t (Z.to_nat (size - 1)) 1 0 ;
            store t victim (mkTLBEntry 1 v f now)
        end
    end.

Fixpoint invalidate_loop (v : Z) (t : list TLBEntry) (k : nat) (i : Z)
  : outcome (list TLBEntry) :=
  match k with
  | O => Done t
  | S k' =>
      do e <- load t i ;
      do t' <- (if tlb_match v e
             then store t i (mkTLBEntry 0 (vpn e) (frame_index e) (last_used e))
             else Done t) ;
      invalidate_loop v t' k' (i + 1)
  end.

Definition tlb_invalidate_vpn (t : list TLBEntry) (size : Z) (v : Z)
  : outcome (list TLBEntry) :=
  if tlb_null t || (size <=? 0) then Done t
  else invalidate_loop v t (Z.to_nat size) 0.

(** ** Victim selection *)

(** What the CLOCK loop leaves behind; [cs_visits] is a ghost counter of
    the frames the hand looked at. *)
Record ClockScan := mkClockScan {
  cs_victim : Z;
  cs_ref_bits : list Z;
  cs_hand : Z;
  cs_visits : nat
}.

(** The loop [while (1)] of the CLOCK policy. *)
Fixpoint clock_scan (fuel : nat) (rb : list Z) (hand n : Z) (seen : nat)
  : outcome ClockScan :=
  match fuel with
  | O => Timeout
  | S fuel' =>
      do b <- load rb hand ;
      if b =? 0 then Done (mkClockScan hand rb (Z.rem (hand + 1) n) (S seen))
      else
        do rb' <- store rb hand 0 ;
        clock_scan fuel' rb' (Z.rem (hand + 1) n) n (S seen)
  end.

(** A chosen victim with the policy state after the choice. *)
Record Choice := mkChoice {
  ch_victim : Z;
  ch_fifo : Z;
  ch_ref_bits : list Z;
  ch_hand : Z
}.

(** "Choose victim frame": an empty frame first, the policy otherwise. *)
Definition choose_victim (fuel : nat) (cfg : Config) (s : State) : outcome Choice :=
  do e <- first_index (fun x => x =? EMPTY) (frames s) (Z.to_nat (num_frames cfg)) 0 ;
  match e with
  | Some i => Done (mkChoice i (fifo_index s) (ref_bits s) (clock_hand s))
  | None =>
      match alg cfg with
      | ALG_FIFO =>
          Done (mkChoice (fifo_index s)
                         (Z.rem (fifo_index s + 1) (num_frames cfg))
                         (ref_bits s) (clock_hand s))
      | ALG_LRU =>
          do v <- min_index (fun x => x) (frame_last_used s)
                         (Z.to_nat (num_frames cfg - 1)) 1 0 ;
          Done (mkChoice v (fifo_index s) (ref_bits s) (clock_hand s))
      | ALG_CLOCK =>
          do c <- clock_scan fuel (ref_bits s) (clock_hand s) (num_frames cfg) 0 ;
          Done (mkChoice (cs_victim c) (fifo_index s) (cs_ref_bits c) (cs_hand c))
      end
  end.

(** ** One access *)

(** The per-frame metadata, updated the same way on a TLB hit, on a frame
    hit and on a placement. *)
Record Meta := mkMeta {
  m_last_used : list Z;
  m_ref_bits : list Z;
  m_dirty : list Z
}.

Definition touch (cfg : Config) (o : ascii) (now : Z) (i : Z) (m : Meta)
  : outcome Meta :=
  do lu <- (if is_LRU (alg cfg) then store (m_last_used m) i now
         else Done (m_last_used m)) ;
  do rb <- (if is_CLOCK (alg cfg) then store (m_ref_bits m) i 1
         else Done (m_ref_bits m)) ;
  do d <- (if is_W o && is_WB (write_policy cfg) then store (m_dirty m) i 1
        else Done (m_dirty m)) ;
  Done (mkMeta lu rb d).

(** "If we evict something, handle TLB + write-back": the table, the
    write-back counter and the dirty bits after the victim's page left. *)
Record Evicted := mkEvicted {
  ev_tlb : list TLBEntry;
  ev_write_backs : Z;
  ev_dirty : list Z
}.

Definition evict (cfg : Config) (t : list TLBEntry) (wb : Z)
    (fr d : list Z) (victim : Z) : outcome Evicted :=
  do old <- load fr victim ;
  if old =? EMPTY then Done (mkEvicted t wb d)
  else
    do t' <- (if 0 <? tlb_size cfg
           then tlb_invalidate_vpn t (tlb_size cfg) (uint_of_int old)
           else Done t) ;
    if is_WB (write_policy cfg) then
      do dv <- load d victim ;
      if dv =? 0 then Done (mkEvicted t' wb d)
      else
        do d' <- store d victim 0 ;
        Done (mkEvicted t' (wb + 1) d')
    else Done (mkEvicted t' wb d).

(** The branch "PAGE FAULT" of the loop body; [s] already has the tick and
    the read/write counters of this access. *)
Definition page_fault (fuel : nat) (cfg : Config) (s : State) (o : ascii) (v : Z)
  : outcome State :=
  do c <- choose_victim fuel cfg s ;
  let victim := ch_victim c in
  do ev <- evict cfg (tlb s) (write_backs s) (frames s) (dirty s) victim ;
  do fr <- store (frames s) victim (int_of_uint v) ;
  do m <- touch cfg o (tick s) victim
         (mkMeta (frame_last_used s) (ch_ref_bits c) (ev_dirty ev)) ;
  do t <- (if 0 <? tlb_size cfg
        then tlb_insert (ev_tlb ev) (tlb_size cfg) v victim (tick s)
        else Done (ev_tlb ev)) ;
  Done (mkState (reads s) (writes s) (page_faults s + 1)
                (tlb_hits s) (tlb_misses s) (ev_write_backs ev)
                fr (m_last_used m) (m_ref_bits m) (m_dirty m)
                (ch_fifo c) (ch_hand c) (tick s) t).

(** The branch "HIT" of the loop body. *)
Definition frame_hit (cfg : Config) (s : State) (o : ascii) (v : Z) (i : Z)
  : outcome State :=
  do m <- touch cfg o (tick s) i
         (mkMeta (frame_last_used s) (ref_bits s) (dirty s)) ;
  do t <- (if 0 <? tlb_size cfg
        then tlb_insert (tlb s) (tlb_size cfg) v i (tick s)
        else Done (tlb s)) ;
  Done (mkState (reads s) (writes s) (page_faults s)
                (tlb_hits s) (tlb_misses s) (write_backs s)
                (frames s) (m_last_used m) (m_ref_bits m) (m_dirty m)
                (fifo_index s) (clock_hand s) (tick s) t).

(** "2) Check frames for HIT/MISS" and what follows. *)
Definition resolve (fuel : nat) (cfg : Config) (s : State) (o : ascii) (v : Z)
  : outcome State :=
  do h <- first_index (fun x => x =? int_of_uint v) (frames s)
         (Z.to_nat (num_frames cfg)) 0 ;
  match h with
  | Some i => frame_hit cfg s o v i
  | None => page_fault fuel cfg s o v
  end.

(** The branch "TLB HIT" of the loop body. *)
Definition tlb_hit (cfg : Config) (s : State) (o : ascii) (t : list TLBEntry) (f : Z)
  : outcome State :=
  do m <- (if (0 <=? f) && (f <? num_frames cfg)
        then touch cfg o (tick s) f
               (mkMeta (frame_last_used s) (ref_bits s) (dirty s))
        else Done (mkMeta (frame_last_used s) (ref_bits s) (dirty s))) ;
  Done (mkState (reads s) (writes s) (page_faults s)
                (tlb_hits s + 1) (tlb_misses s) (write_backs s)
                (frames s) (m_last_used m) (m_ref_bits m) (m_dirty m)
                (fifo_index s) (clock_hand s) (tick s) t).

(** [tick++], [reads++] or [writes++], and [tlb_misses++]. *)
Definition with_tick (s : State) (now : Z) : State :=
  mkState (reads s) (writes s) (page_faults s) (tlb_hits s) (tlb_misses s)
          (write_backs s) (frames s) (frame_last_used s) (ref_bits s) (dirty s)
          (fifo_index s) (clock_hand s) now (tlb s).

Definition count_op (s : State) (o : ascii) : State :=
  mkState (if is_R o then reads s + 1 else reads s)
          (if is_R o then writes s else writes s + 1)
          (page_faults s) (tlb_hits s) (tlb_misses s)
          (write_backs s) (frames s) (frame_last_used s) (ref_bits s) (dirty s)
          (fifo_index s) (clock_hand s) (tick s) (tlb s).

Definition with_tlb_miss (s : State) : State :=
  mkState (reads s) (writes s) (page_faults s) (tlb_hits s) (tlb_misses s + 1)
          (write_backs s) (frames s) (frame_last_used s) (ref_bits s) (dirty s)
          (fifo_index s) (clock_hand s) (tick s) (tlb s).

(** One iteration of the simulation loop. *)
Definition step (fuel : nat) (cfg : Config) (s : State) (r : Access) : outcome State :=
  let s1 := with_tick s ((tick s + 1) mod ULONG_MOD) in
  if is_R (op r) || is_W (op r) then
    let s2 := count_op s1 (op r) in
    let v := addr r / PAGE_SIZE in
    if 0 <? tlb_size cfg then
      do '(t, hit) <- tlb_lookup (tlb s2) (tlb_size cfg) v (tick s2) ;
      match hit with
      | Some f => tlb_hit cfg s2 (op r) t f
      | None => resolve fuel cfg (with_tlb_miss s2) (op r) v
      end
    else resolve fuel cfg s2 (op r) v
  else Done s1.

(** The whole loop, over the records of the trace. *)
Fixpoint run (fuel : nat) (cfg : Config) (s : State) (trace : list Access)
  : outcome State :=
  match trace with
  | [] => Done s
  | r :: rest => do s' <- step fuel cfg s r ; run fuel cfg s' rest
  end.

(** An entry as [calloc] leaves it. *)
Definition zero_entry : TLBEntry := mkTLBEntry 0 0 0 0.

(** The state before the first record. *)
Definition init (cfg : Config) : State :=
  let n := Z.to_nat (num_frames cfg) in
  mkState 0 0 0 0 0 0
          (replicate n EMPTY) (replicate n 0) (replicate n 0) (replicate n 0)
          0 0 0
          (if 0 <? tlb_size cfg then replicate (Z.to_nat (tlb_size cfg)) zero_entry
           else []).

(** The records [R a] and [W a] of a trace file. *)
Definition R (a : Z) : Access := mkAccess "R"%char a.
Definition W (a : Z) : Access := mkAccess "W"%char a.

(** ** The final report *)

(** The latencies, in cycles. *)
Definition TLB_LAT : float := 1.0%float.
Definition MEM_LAT : float := 100.0%float.
Definition DISK_LAT : float := 10000000.0%float.

(** [(double)z] for an [int] z. *)
Definition double_of_int (z : Z) : float :=
  if z <? 0 then PrimFloat.opp (PrimFloat.of_uint63 (Uint63.of_Z (- z)))
  else PrimFloat.of_uint63 (Uint63.of_Z z).

(** The rates of "Final stats"; a rate that the code does not compute is
    [None].  [denominators] is a ghost list of the divisors it used. *)
Record Report := mkReport {
  total_accesses : Z;
  fault_rate : option float;
  hit_rate : option float;
  tlb_hit_rate : option float;
  amat : option float;
  denominators : list Z
}.

(** The greatest [int]. *)
Definition INT_MAX : Z := 2 ^ 31 - 1.

(** [a + b] for two [int]s.  A sum that does not fit an [int] is undefined
    in C; it is taken modulo 2^32 into the range of [int], as the machine
    adds. *)
Definition int_add (a b : Z) : Z := (a + b + 2 ^ 31) mod UINT_MOD - 2 ^ 31.

(** A quotient of two counters as [double]s, with its divisor logged. *)
Definition ratio (num den : Z) : float * list Z :=
  ((double_of_int num / double_of_int den)%float, [den]).

Definition final_stats (cfg : Config) (s : State) : Report :=
  let total := int_add (reads s) (writes s) in
  let mem :=
    if 0 <? total then
      let '(f, d) := ratio (page_faults s) total in
      (Some f, Some (1.0 - f)%float, d)
    else (None, None, []) in
  let cache :=
    if 0 <? tlb_size cfg then
      let tlb_total := int_add (tlb_hits s) (tlb_misses s) in
      if 0 <? tlb_total then
        let '(h, d1) := ratio (tlb_hits s) tlb_total in
        let '(page_fault_rate, d2) :=
          if 0 <? total then ratio (page_faults s) total else (0.0%float, []) in
        let base := (h * TLB_LAT + (1.0 - h) * MEM_LAT)%float in
        (Some h, Some (base + page_fault_rate * DISK_LAT)%float, d1 ++ d2)
      else (None, None, [])
    else (None, None, []) in
  mkReport total (fst (fst mem)) (snd (fst mem))
           (fst (fst cache)) (snd (fst cache)) (snd mem ++ snd cache).

(** * Specifications *)

(** The page of an access. *)
Definition page (r : Access) : Z := addr r / PAGE_SIZE.

(** The state once the tick and the read/write counter have moved. *)
Definition entered (s : State) (r : Access) : State :=
  count_op (with_tick s ((tick s + 1) mod ULONG_MOD)) (op r).

(** [v] is the lowest index among those of [0 .. hi-1] with the least key. *)
Definition lowest_min {A : Type} (key : A -> Z) (a : list A) (hi v : Z) : Prop :=
  0 <= v < hi /\
  exists y, load a v = Done y /\
    forall j x, 0 <= j < hi -> load a j = Done x ->
      key y <= key x /\ (j < v -> key y < key x).

(** An entry once [tlb_invalidate_vpn] has cleared its valid flag. *)
Definition invalidated (e : TLBEntry) : TLBEntry :=
  mkTLBEntry 0 (vpn e) (frame_index e) (last_used e).

(** The three ways [tlb_insert] writes entry [e'] at index [i]. *)
Inductive insert_case (t : list TLBEntry) (size v f now i : Z) (e' : TLBEntry)
  : Prop :=
| insert_update (e : TLBEntry) :
    load t i = Done e -> tlb_match v e = true ->
    (forall j x, 0 <= j < i -> load t j = Done x -> tlb_match v x = false) ->
    e' = mkTLBEntry (valid e) (vpn e) f now ->
    insert_case t size v f now i e'
| insert_fill (e : TLBEntry) :
    (forall j x, load t j = Done x -> tlb_match v x = false) ->
    load t i = Done e -> valid e = 0 ->
    (forall j x, 0 <= j < i -> load t j = Done x -> valid x <> 0) ->
    e' = mkTLBEntry 1 v f now ->
    insert_case t size v f now i e'
| insert_evict :
    (forall j x, load t j = Done x -> tlb_match v x = false) ->
    (forall j x, load t j = Done x -> valid x <> 0) ->
    lowest_min last_used t size i ->
    e' = mkTLBEntry 1 v f now ->
    insert_case t size v f now i e'.

(** The number of reference bits that are set. *)
Definition set_bits (rb : list Z) : nat :=
  length (filter (fun b => b <> 0) rb).

(** How far ahead of the hand [h] the frame [j] is, going round. *)
Definition ahead (h j n : Z) : Z := if h <=? j then j - h else j - h + n.

(** What the command line lets through: [-f] rejects [num_frames <= 0]. *)
Definition valid_config (cfg : Config) : Prop := 0 < num_frames cfg.

(** The configuration when no option is given. *)
Definition default_config : Config :=
  mkConfig ALG_FIFO WP_WRITE_THROUGH 0 DEFAULT_NUM_FRAMES.

(** The address of a record is an [unsigned int]. *)
Definition valid_access (r : Access) : Prop := 0 <= addr r < UINT_MOD.

(** A frame is empty or holds a page number of a 32-bit address. *)
Definition occupant_ok (x : Z) : Prop := x = EMPTY \/ 0 <= x < VPN_LIMIT.

(** No page is in two frames. *)
Definition no_duplicate (fr : list Z) : Prop :=
  forall i j x, load fr i = Done x -> load fr j = Done x -> x <> EMPTY -> i = j.

(** Every valid entry of the table names the frame that holds its page. *)
Definition tlb_consistent (fr : list Z) (t : list TLBEntry) : Prop :=
  forall k e, load t k = Done e -> valid e <> 0 ->
    0 <= vpn e < VPN_LIMIT /\ load fr (frame_index e) = Done (vpn e).

(** What holds of the state between two records: the arrays have
    [num_frames] cells, the policy indices point into them, the table has
    [tlb_size] entries (none when that is not positive), and the frames,
    the table and the dirty bits agree as the claims say. *)
Record inv (cfg : Config) (s : State) : Prop := mkInv {
  inv_frames : Z.of_nat (length (frames s)) = num_frames cfg;
  inv_last_used : length (frame_last_used s) = length (frames s);
  inv_ref_bits : length (ref_bits s) = length (frames s);
  inv_dirty : length (dirty s) = length (frames s);
  inv_fifo : 0 <= fifo_index s < num_frames cfg;
  inv_hand : 0 <= clock_hand s < num_frames cfg;
  inv_tlb_len : Z.of_nat (length (tlb s)) = Z.max 0 (tlb_size cfg);
  inv_occupants : forall i x, load (frames s) i = Done x -> occupant_ok x;
  inv_no_duplicate : no_duplicate (frames s);
  inv_tlb : tlb_consistent (frames s) (tlb s);
  inv_write_through :
    is_WB (write_policy cfg) = false ->
    write_backs s = 0 /\ forall i d, load (dirty s) i = Done d -> d = 0
}.

(** The states the simulation can be in after some records of a trace. *)
Definition reachable (cfg : Config) (s : State) : Prop :=
  exists (fuel : nat) (trace : list Access),
    Forall valid_access trace /\ run fuel cfg (init cfg) trace = Done s.

(** The pages that are in some frame. *)
Definition resident (fr : list Z) : list Z := filter (fun x => x <> EMPTY) fr.

(** Sample configurations, traces and tables. *)
Definition lru_wb_2_2 : Config := mkConfig ALG_LRU WP_WRITE_BACK 2 2.
Definition clock_wb_1_3 : Config := mkConfig ALG_CLOCK WP_WRITE_BACK 1 3.
Definition fifo_wt_0_2 : Config := mkConfig ALG_FIFO WP_WRITE_THROUGH 0 2.

Definition sample_trace : list Access :=
  [W 0; R 4096; R 16; W 8192; R 0; W 4100; R 12288; W 8192].

Definition state_after (fuel : nat) (cfg : Config) (trace : list Access) : State :=
  match run fuel cfg (init cfg) trace with
  | Done s => s
  | _ => init cfg
  end.

Definition full_table : list TLBEntry :=
  [mkTLBEntry 1 7 0 5; mkTLBEntry 1 8 1 3; mkTLBEntry 1 9 2 3].

Definition stats_8_2_1_10 : State :=
  mkState 6 4 1 8 2 0 [] [] [] [] 0 0 10 [].

(** The state in which the frames are scanned: the TLB is off, or it is on
    and has counted a miss. *)
Definition scanned (cfg : Config) (s : State) (r : Access) (s2 : State) : Prop :=
  (tlb_size cfg <= 0 /\ s2 = entered s r) \/
  (0 < tlb_size cfg /\ s2 = with_tlb_miss (entered s r)).

(** The integer [z] is a value of the type [int]. *)
Definition fits_int (z : Z) : Prop := - 2 ^ 31 <= z <= INT_MAX.

(** The access counters agree: faults are accesses, and with the TLB on
    every access is one hit or one miss. *)
Definition counted (cfg : Config) (s : State) : Prop :=
  0 <= tlb_hits s /\ 0 <= tlb_misses s /\
  0 <= page_faults s <= reads s + writes s /\
  (0 < tlb_size cfg -> tlb_hits s + tlb_misses s = reads s + writes s).

(** The three ways a read or a write goes through the loop body. *)
Inductive path (fuel : nat) (cfg : Config) (s : State) (r : Access) (s' : State)
  : Prop :=
| path_tlb_hit (t : list TLBEntry) (f : Z) :
    0 < tlb_size cfg ->
    tlb_lookup (tlb s) (tlb_size cfg) (addr r / PAGE_SIZE) (tick (entered s r))
      = Done (t, Some f) ->
    tlb_hit cfg (entered s r) (op r) t f = Done s' ->
    path fuel cfg s r s'
| path_frame_hit (s2 : State) (i : Z) :
    scanned cfg s r s2 ->
    first_index (fun x => x =? int_of_uint (addr r / PAGE_SIZE)) (frames s)
      (Z.to_nat (num_frames cfg)) 0 = Done (Some i) ->
    frame_hit cfg s2 (op r) (addr r / PAGE_SIZE) i = Done s' ->
    path fuel cfg s r s'
| path_page_fault (s2 : State) :
    scanned cfg s r s2 ->
    first_index (fun x => x =? int_of_uint (addr r / PAGE_SIZE)) (frames s)
      (Z.to_nat (num_frames cfg)) 0 = Done None ->
    page_fault fuel cfg s2 (op r) (addr r / PAGE_SIZE) = Done s' ->
    path fuel cfg s r s'.

(** A page is in some frame. *)
Definition holds (fr : list Z) (p : Z) : Prop := exists i, load fr i = Done p.

(** * Further specifications *)

(** What an access leaves in the metadata of frame [f], starting from the
    stamps [lu], the reference bits [rb] and the dirty bits [d]. *)
Definition touched (cfg : Config) (o : ascii) (f : Z) (lu rb d : list Z)
    (s' : State) : Prop :=
  frame_last_used s'
  = (if is_LRU (alg cfg) then <[Z.to_nat f := tick s']> lu else lu) /\
  ref_bits s' = (if is_CLOCK (alg cfg) then <[Z.to_nat f := 1]> rb else rb) /\
  dirty s'
  = (if is_W o && is_WB (write_policy cfg) then <[Z.to_nat f := 1]> d else d).

(** What a read or a write does to the counters of reads and writes and to
    the tick. *)
Definition counted_op (s : State) (r : Access) (s' : State) : Prop :=
  reads s' = (if is_R (op r) then reads s + 1 else reads s) /\
  writes s' = (if is_R (op r) then writes s else writes s + 1) /\
  tick s' = (tick s + 1) mod ULONG_MOD.

(** A read or a write ends with its page in frame [f]: the page was there,
    or it faulted and took the frame of the chosen victim. *)
Inductive accessed (fuel : nat) (cfg : Config) (s : State) (r : Access)
    (s' : State) (f : Z) : Prop :=
| accessed_hit :
    load (frames s) f = Done (page r) ->
    frames s' = frames s ->
    page_faults s' = page_faults s ->
    write_backs s' = write_backs s ->
    fifo_index s' = fifo_index s ->
    clock_hand s' = clock_hand s ->
    touched cfg (op r) f (frame_last_used s) (ref_bits s) (dirty s) s' ->
    accessed fuel cfg s r s' f
| accessed_fault (c : Choice) (ev : Evicted) :
    (forall j x, load (frames s) j = Done x -> x <> page r) ->
    choose_victim fuel cfg s = Done c ->
    ch_victim c = f ->
    evict cfg (tlb s) (write_backs s) (frames s) (dirty s) f = Done ev ->
    frames s' = <[Z.to_nat f := page r]> (frames s) ->
    page_faults s' = page_faults s + 1 ->
    write_backs s' = ev_write_backs ev ->
    fifo_index s' = ch_fifo c ->
    clock_hand s' = ch_hand c ->
    touched cfg (op r) f (frame_last_used s) (ch_ref_bits c) (ev_dirty ev) s' ->
    accessed fuel cfg s r s' f.

(** The number of records of a trace whose operation passes [p]. *)
Fixpoint count_ops (p : ascii -> bool) (trace : list Access) : Z :=
  match trace with
  | [] => 0
  | r :: rest => (if p (op r) then 1 else 0) + count_ops p rest
  end.

(** Empty frames come after the occupied ones. *)
Definition filled_prefix (fr : list Z) : Prop :=
  forall i j x, load fr i = Done EMPTY -> i < j -> load fr j = Done x -> x = EMPTY.


(** How [choose_victim] comes to its choice [c]. *)
Inductive chosen (fuel : nat) (cfg : Config) (s : State) (c : Choice) : Prop :=
| chosen_empty :
    load (frames s) (ch_victim c) = Done EMPTY ->
    (forall j x, 0 <= j < ch_victim c -> load (frames s) j = Done x -> x <> EMPTY) ->
    ch_fifo c = fifo_index s -> ch_ref_bits c = ref_bits s ->
    ch_hand c = clock_hand s ->
    chosen fuel cfg s c
| chosen_fifo :
    (forall j x, load (frames s) j = Done x -> x <> EMPTY) ->
    alg cfg = ALG_FIFO ->
    ch_victim c = fifo_index s ->
    ch_fifo c = Z.rem (fifo_index s + 1) (num_frames cfg) ->
    ch_ref_bits c = ref_bits s -> ch_hand c = clock_hand s ->
    chosen fuel cfg s c
| chosen_lru :
    (forall j x, load (frames s) j = Done x -> x <> EMPTY) ->
    alg cfg = ALG_LRU ->
    lowest_min (fun x => x) (frame_last_used s) (num_frames cfg) (ch_victim c) ->
    ch_fifo c = fifo_index s -> ch_ref_bits c = ref_bits s ->
    ch_hand c = clock_hand s ->
    chosen fuel cfg s c
| chosen_clock (k : ClockScan) :
    (forall j x, load (frames s) j = Done x -> x <> EMPTY) ->
    alg cfg = ALG_CLOCK ->
    clock_scan fuel (ref_bits s) (clock_hand s) (num_frames cfg) 0 = Done k ->
    ch_victim c = cs_victim k -> ch_ref_bits c = cs_ref_bits k ->
    ch_hand c = cs_hand k -> ch_fifo c = fifo_index s ->
    chosen fuel cfg s c.


(** A policy writes its own state only. *)
Definition isolated (cfg : Config) (s : State) : Prop :=
  (is_LRU (alg cfg) = false ->
     forall i x, load (frame_last_used s) i = Done x -> x = 0) /\
  (is_CLOCK (alg cfg) = false ->
     clock_hand s = 0 /\ forall i x, load (ref_bits s) i = Done x -> x = 0) /\
  (alg cfg <> ALG_FIFO -> fifo_index s = 0).

(** The bits are 0 or 1, and an empty frame has no stamp and no bit set. *)
Definition blank (s : State) : Prop :=
  (forall i b, load (ref_bits s) i = Done b -> b = 0 \/ b = 1) /\
  (forall i b, load (dirty s) i = Done b -> b = 0 \/ b = 1) /\
  (forall i, load (frames s) i = Done EMPTY ->
     load (frame_last_used s) i = Done 0 /\
     load (ref_bits s) i = Done 0 /\ load (dirty s) i = Done 0).

(** The configuration with the translation cache switched off. *)
Definition without_tlb (cfg : Config) : Config :=
  mkConfig (alg cfg) (write_policy cfg) 0 (num_frames cfg).

(** Two states agree on everything but the translation cache and its
    counters. *)
Definition same_paging (s s0 : State) : Prop :=
  reads s = reads s0 /\ writes s = writes s0 /\
  page_faults s = page_faults s0 /\ write_backs s = write_backs s0 /\
  frames s = frames s0 /\ frame_last_used s = frame_last_used s0 /\
  ref_bits s = ref_bits s0 /\ dirty s = dirty s0 /\
  fifo_index s = fifo_index s0 /\ clock_hand s = clock_hand s0 /\
  tick s = tick s0.

(** No page has two valid entries in the table. *)
Definition tlb_unique (t : list TLBEntry) : Prop :=
  forall i j e1 e2,
    load t i = Done e1 -> load t j = Done e2 ->
    valid e1 <> 0 -> valid e2 <> 0 -> vpn e1 = vpn e2 -> i = j.

(** ** The command line *)

(** How [main] leaves the argument loop: with the options read, with the
    usage message, or with the message that the number of frames must be
    positive; both messages end the program with status 1. *)
Inductive Parse (A : Type) : Type :=
| Parsed (a : A)
| UsageError
| FramesError.
Arguments Parsed {A} a.
Arguments UsageError {A}.
Arguments FramesError {A}.

(** The strings that the loop takes for options. *)
Definition is_option (a : string) : bool :=
  String.eqb a "-a" || String.eqb a "-f" || String.eqb a "-t" ||
  String.eqb a "-wt" || String.eqb a "-wb".

Section CommandLine.

(** [atoi] belongs to the C library; the loop is read for any such
    function. *)
Variable atoi : string -> Z.

(** The loop [for (int i = 1; i < argc; i++)] over [argv[1 ..]]; an option
    with a value moves [i] once more. *)
Fixpoint parse_loop (cfg : Config) (trace_path : option string)
    (args : list string) {struct args} : Parse (Config * option string) :=
  match args with
  | [] => Parsed (cfg, trace_path)
  | a :: rest =>
      if String.eqb a "-a" then
        match rest with
        | [] => UsageError
        | v :: rest' =>
            if String.eqb v "fifo" then
              parse_loop (mkConfig ALG_FIFO (write_policy cfg) (tlb_size cfg)
                                   (num_frames cfg)) trace_path rest'
            else if String.eqb v "lru" then
              parse_loop (mkConfig ALG_LRU (write_policy cfg) (tlb_size cfg)
                                   (num_frames cfg)) trace_path rest'
            else if String.eqb v "clock" then
              parse_loop (mkConfig ALG_CLOCK (write_policy cfg) (tlb_size cfg)
                                   (num_frames cfg)) trace_path rest'
            else UsageError
        end
      else if String.eqb a "-f" then
        match rest with
        | [] => UsageError
        | v :: rest' =>
            if atoi v <=? 0 then FramesError
            else parse_loop (mkConfig (alg cfg) (write_policy cfg) (tlb_size cfg)
                                      (atoi v)) trace_path rest'
        end
      else if String.eqb a "-t" then
        match rest with
        | [] => UsageError
        | v :: rest' =>
            parse_loop (mkConfig (alg cfg) (write_policy cfg)
                                 (if atoi v <? 0 then 0 else atoi v)
                                 (num_frames cfg)) trace_path rest'
        end
      else if String.eqb a "-wt" then
        parse_loop (mkConfig (alg cfg) WP_WRITE_THROUGH (tlb_size cfg)
                             (num_frames cfg)) trace_path rest
      else if String.eqb a "-wb" then
        parse_loop (mkConfig (alg cfg) WP_WRITE_BACK (tlb_size cfg)
                             (num_frames cfg)) trace_path rest
      else parse_loop cfg (Some a) rest
  end.

(** The arguments of [main] up to the test [if (!trace_path)]. *)
Definition parse_args (args : list string) : Parse (Config * string) :=
  match parse_loop default_config None args with
  | Parsed (cfg, Some p) => Parsed (cfg, p)
  | Parsed (_, None) => UsageError
  | UsageError => UsageError
  | FramesError => FramesError
  end.

End CommandLine.

(** [atoi] on a string that starts with its sign or its digits and whose
    value fits an [int]. *)
Definition digit (c : ascii) : option Z :=
  let n := Z.of_N (N_of_ascii c) in
  if (48 <=? n) && (n <=? 57) then Some (n - 48) else None.

Fixpoint digits (acc : Z) (s : string) : Z :=
  match s with
  | EmptyString => acc
  | String c r =>
      match digit c with
      | Some d => digits (10 * acc + d) r
      | None => acc
      end
  end.

Definition decimal (s : string) : Z :=
  match s with
  | String "-" r => - digits 0 r
  | String "+" r => digits 0 r
  | _ => digits 0 s
  end.

(** ** The whole program *)

(** How [main] ends: with status 1 after the usage message, after the
    message about the number of frames, after [fopen] failed, after the
    arrays of the frames or the table of the TLB could not be allocated;
    or with status 0 after the report. *)
Inductive Exit : Type :=
| ExitUsage
| ExitFrames
| ExitOpen
| ExitFrameMetadata
| ExitTLB
| ExitStats (r : Report).

Section Program.

Variable atoi : string -> Z.

(** What the file system gives: [None] when [fopen] fails, and else the
    records that [fscanf] reads from the file, up to the first place where
    it does not read two items. *)
Variable fopen : string -> option (list Access).

(** Whether [malloc] and [calloc] give the four arrays of the frames, and
    whether [calloc] gives the table of the TLB. *)
Variable frames_allocated : bool.
Variable tlb_allocated : bool.

(** [main], from the arguments to the report. *)
Definition main (fuel : nat) (args : list string) : outcome Exit :=
  match parse_args atoi args with
  | UsageError => Done ExitUsage
  | FramesError => Done ExitFrames
  | Parsed (cfg, trace_path) =>
      match fopen trace_path with
      | None => Done ExitOpen
      | Some trace =>
          if negb frames_allocated then Done ExitFrameMetadata
          else if (0 <? tlb_size cfg) && negb tlb_allocated then Done ExitTLB
          else
            do s <- run fuel cfg (init cfg) trace ;
            Done (ExitStats (final_stats cfg s))
      end
  end.

End Program.

(** The configuration with one field replaced. *)
Definition with_alg (cfg : Config) (a : Algorithm) : Config :=
  mkConfig a (write_policy cfg) (tlb_size cfg) (num_frames cfg).
Definition with_write_policy (cfg : Config) (w : WritePolicy) : Config :=
  mkConfig (alg cfg) w (tlb_size cfg) (num_frames cfg).
Definition with_num_frames (cfg : Config) (n : Z) : Config :=
  mkConfig (alg cfg) (write_policy cfg) (tlb_size cfg) n.
Definition with_tlb_size (cfg : Config) (n : Z) : Config :=
  mkConfig (alg cfg) (write_policy cfg) n (num_frames cfg).

Definition sample_args : list string :=
  ["-a"; "lru"; "-f"; "4"; "-t"; "2"; "-wb"; "trace.txt"].

(** * Properties *)

(** ** The outcome monad *)

Lemma bind_Done {A B : Type} (m : outcome A) (k : A -> outcome B) (b : B) :
  bind m k = Done b -> exists a, m = Done a /\ k a = Done b.
Proof. destruct m; simpl; intros H; try discriminate. eauto. Qed.

Ltac inv_bind H :=
  let a := fresh "a" in
  let Ha := fresh "Ha" in
  apply bind_Done in H; destruct H as (a & Ha & H).

(** ** Arrays *)

Section arrays.
Context {A : Type}.
Implicit Types (a : list A) (i j : Z) (x : A).

Lemma load_Done a i x :
  load a i = Done x <-> 0 <= i /\ a !! Z.to_nat i = Some x.
Proof.
  unfold load. destruct (Z.leb_spec 0 i).
  - destruct (a !! Z.to_nat i) eqn:E; split; intros H1;
      try discriminate; try (destruct H1; discriminate).
    + inversion H1; subst. auto.
    + destruct H1 as [_ H1]. congruence.
  - split; [discriminate | lia].
Qed.

Lemma load_bound a i x :
  load a i = Done x -> 0 <= i < Z.of_nat (length a).
Proof.
  intros H. apply load_Done in H as [H0 H].
  apply lookup_lt_Some in H. lia.
Qed.

Lemma load_total a i :
  0 <= i < Z.of_nat (length a) -> exists x, load a i = Done x.
Proof.
  intros H. destruct (lookup_lt_is_Some_2 a (Z.to_nat i)) as [x Hx]; [lia|].
  exists x. apply load_Done. split; [lia | done].
Qed.

Lemma load_inj a i x y : load a i = Done x -> load a i = Done y -> x = y.
Proof. congruence. Qed.

Lemma store_Done a i x a' :
  store a i x = Done a' <->
  0 <= i < Z.of_nat (length a) /\ a' = <[Z.to_nat i := x]> a.
Proof.
  unfold store.
  destruct (Z.leb_spec 0 i), (Z.ltb_spec i (Z.of_nat (length a))); simpl;
    split; intros H1; try discriminate; try lia.
  - inversion H1. split; [lia | done].
  - destruct H1 as [_ ->]. done.
Qed.

Lemma store_total a i x :
  0 <= i < Z.of_nat (length a) -> store a i x = Done (<[Z.to_nat i := x]> a).
Proof. intros H. apply store_Done. done. Qed.

Lemma store_length a i x a' : store a i x = Done a' -> length a' = length a.
Proof. intros H. apply store_Done in H as [_ ->]. apply length_insert. Qed.

Lemma load_store_eq a i x a' : store a i x = Done a' -> load a' i = Done x.
Proof.
  intros H. apply store_Done in H as [Hi ->]. apply load_Done.
  split; [lia|]. apply list_lookup_insert_eq. lia.
Qed.

Lemma load_store_ne a i x a' j :
  store a i x = Done a' -> j <> i -> load a' j = load a j.
Proof.
  intros H Hne. apply store_Done in H as [Hi ->]. unfold load.
  destruct (Z.leb_spec 0 j); [|done].
  rewrite list_lookup_insert_ne; [done | lia].
Qed.

Lemma load_store a i x a' j y :
  store a i x = Done a' -> load a' j = Done y ->
  (j = i /\ y = x) \/ (j <> i /\ load a j = Done y).
Proof.
  intros Hs Hl. destruct (Z.eq_dec j i) as [->|Hne].
  - left. split; [done|]. rewrite (load_store_eq _ _ _ _ Hs) in Hl. congruence.
  - right. split; [done|]. by rewrite <- (load_store_ne _ _ _ _ _ Hs Hne).
Qed.

Lemma load_replicate (n : nat) x i y :
  load (replicate n x) i = Done y -> y = x.
Proof.
  intros H. apply load_Done in H as [_ H].
  apply lookup_replicate in H as [-> _]. done.
Qed.

(** *** The search loop *)

Lemma first_index_total (p : A -> bool) a (k : nat) i :
  0 <= i -> i + Z.of_nat k <= Z.of_nat (length a) ->
  exists r, first_index p a k i = Done r.
Proof.
  revert i. induction k as [|k IH]; intros i H0 Hk; simpl; [eauto|].
  destruct (load_total a i) as [x Hx]; [lia|]. rewrite Hx. simpl.
  destruct (p x); [eauto|]. apply IH; lia.
Qed.

Lemma first_index_Some (p : A -> bool) a (k : nat) i j :
  first_index p a k i = Done (Some j) ->
  i <= j < i + Z.of_nat k /\
  (exists x, load a j = Done x /\ p x = true) /\
  (forall j' x, i <= j' < j -> load a j' = Done x -> p x = false).
Proof.
  revert i. induction k as [|k IH]; intros i H; simpl in H; [discriminate|].
  inv_bind H. destruct (p a0) eqn:Hp.
  - inversion H; subst j. split; [lia|]. split; [eauto|]. intros; lia.
  - apply IH in H as (Hr & Hx & Hlt). split; [lia|]. split; [done|].
    intros j' x Hj' Hl. destruct (Z.eq_dec j' i) as [->|Hne].
    + congruence.
    + apply (Hlt j' x); [lia | done].
Qed.

Lemma first_index_None (p : A -> bool) a (k : nat) i :
  first_index p a k i = Done None ->
  forall j x, i <= j < i + Z.of_nat k -> load a j = Done x -> p x = false.
Proof.
  revert i. induction k as [|k IH]; intros i H j x Hj Hl; simpl in H; [lia|].
  inv_bind H. destruct (p a0) eqn:Hp; [discriminate|].
  destruct (Z.eq_dec j i) as [->|Hne]; [congruence|].
  apply (IH _ H j x); [lia | done].
Qed.

(** *** The minimum loop *)

Lemma min_index_total (key : A -> Z) a (k : nat) i victim :
  0 <= i -> 0 <= victim < i \/ (victim = 0 /\ k = O /\ a <> []) ->
  i + Z.of_nat k <= Z.of_nat (length a) ->
  exists v, min_index key a k i victim = Done v.
Proof.
  revert i victim. induction k as [|k IH]; intros i victim H0 Hv Hk; simpl; [eauto|].
  destruct Hv as [Hv | (_ & ? & _)]; [|discriminate].
  destruct (load_total a i) as [x Hx]; [lia|].
  destruct (load_total a victim) as [y Hy]; [lia|]. rewrite Hx, Hy. simpl.
  apply IH; [lia | | lia]. left. destruct (key x <? key y); lia.
Qed.

Lemma min_index_spec (key : A -> Z) a (k : nat) i victim v :
  lowest_min key a i victim ->
  min_index key a k i victim = Done v ->
  lowest_min key a (i + Z.of_nat k) v.
Proof.
  revert i victim. induction k as [|k IH]; intros i victim Hm H; simpl in H.
  - inversion H; subst v. by replace (i + Z.of_nat 0) with i by lia.
  - inv_bind H. inv_bind H.
    replace (i + Z.of_nat (S k)) with ((i + 1) + Z.of_nat k) by lia.
    refine (IH _ _ _ H).
    destruct Hm as (Hv & y & Hy & Hmin).
    assert (y = a1) as -> by congruence.
    apply load_bound in Ha as Hi.
    destruct (Z.ltb_spec (key a0) (key a1)) as [Hlt|Hge].
    + split; [lia|]. exists a0. split; [done|]. intros j x Hj Hl.
      destruct (Z.eq_dec j i) as [->|Hne].
      * assert (x = a0) as -> by congruence. lia.
      * destruct (Hmin j x ltac:(lia) Hl). lia.
    + split; [lia|]. exists a1. split; [done|]. intros j x Hj Hl.
      destruct (Z.eq_dec j i) as [->|Hne].
      * assert (x = a0) as -> by congruence. lia.
      * apply Hmin; [lia | done].
Qed.

Lemma lowest_min_start (key : A -> Z) a :
  a <> [] -> lowest_min key a 1 0.
Proof.
  intros Hne. destruct a as [|y a]; [done|].
  split; [lia|]. exists y. split; [done|].
  intros j x Hj Hl. assert (j = 0) as -> by lia.
  apply load_Done in Hl as [_ Hl]. simpl in Hl. assert (x = y) as -> by congruence. lia.
Qed.

Lemma lowest_min_unique (key : A -> Z) a hi v w :
  lowest_min key a hi v -> lowest_min key a hi w -> v = w.
Proof.
  intros (Hv & y & Hy & Hmv) (Hw & z & Hz & Hmw).
  destruct (Hmv w z Hw Hz) as [H1 H2]. destruct (Hmw v y Hv Hy) as [H3 H4].
  destruct (Z.lt_trichotomy v w) as [Hlt | [-> | Hgt]]; [| done |].
  - specialize (H4 Hlt). lia.
  - specialize (H2 Hgt). lia.
Qed.
End arrays.

(** ** The translation cache *)

Lemma tlb_match_true v e :
  tlb_match v e = true <-> valid e <> 0 /\ vpn e = v.
Proof.
  unfold tlb_match. rewrite andb_true_iff, negb_true_iff, Z.eqb_neq, Z.eqb_eq. done.
Qed.

Lemma tlb_match_false v e :
  tlb_match v e = false <-> valid e = 0 \/ vpn e <> v.
Proof.
  unfold tlb_match. rewrite andb_false_iff, negb_false_iff, Z.eqb_neq, Z.eqb_eq. done.
Qed.

Lemma tlb_null_false (t : list TLBEntry) :
  0 < Z.of_nat (length t) -> tlb_null t = false.
Proof. destruct t; simpl; [lia | done]. Qed.

Lemma invalidate_loop_total v (k : nat) : forall (t : list TLBEntry) i,
  0 <= i -> i + Z.of_nat k <= Z.of_nat (length t) ->
  exists t', invalidate_loop v t k i = Done t'.
Proof.
  induction k as [|k IH]; intros t i H0 Hk; simpl; [eauto|].
  destruct (load_total t i) as [e He]; [lia|]. rewrite He. simpl.
  destruct (tlb_match v e).
  - rewrite store_total by lia. simpl. apply IH; [lia|]. rewrite length_insert. lia.
  - simpl. apply IH; lia.
Qed.

Lemma invalidate_loop_spec v (k : nat) : forall (t t' : list TLBEntry) i,
  invalidate_loop v t k i = Done t' ->
  length t' = length t /\
  forall j e, load t j = Done e ->
    load t' j = Done (if (i <=? j) && (j <? i + Z.of_nat k) && tlb_match v e
                      then invalidated e else e).
Proof.
  induction k as [|k IH]; intros t t' i H; simpl in H.
  - inversion H; subst t'. split; [done|]. intros j e Hl.
    replace ((i <=? j) && (j <? i + Z.of_nat 0)) with false; [done|].
    symmetry. apply andb_false_iff. rewrite Z.leb_gt, Z.ltb_ge. lia.
  - inv_bind H. inv_bind H. rename a into e0, a0 into t1.
    apply IH in H as [Hlen Hpt].
    assert (Ht1 : length t1 = length t /\
                  forall j e, load t j = Done e ->
                    load t1 j = Done (if (j =? i) && tlb_match v e
                                      then invalidated e else e)).
    { destruct (tlb_match v e0) eqn:Hm.
      - split; [by eapply store_length|]. intros j e Hl.
        destruct (Z.eqb_spec j i) as [->|Hne]; simpl.
        + assert (e = e0) as -> by congruence. rewrite Hm.
          by eapply load_store_eq.
        + by rewrite (load_store_ne _ _ _ _ _ Ha0 Hne).
      - inversion Ha0; subst t1. split; [done|]. intros j e Hl.
        destruct (Z.eqb_spec j i) as [->|Hne]; simpl; [|done].
        assert (e = e0) as -> by congruence. by rewrite Hm. }
    destruct Ht1 as [Hlen1 Hpt1]. split; [congruence|].
    intros j e Hl. rewrite (Hpt _ _ (Hpt1 _ _ Hl)). f_equal.
    destruct (Z.eqb_spec j i) as [->|Hne]; simpl.
    + destruct (tlb_match v e) eqn:Hm; simpl.
      * replace (i + 1 <=? i) with false by (symmetry; apply Z.leb_gt; lia).
        replace (i <=? i) with true by (symmetry; apply Z.leb_le; lia).
        replace (i <? i + Z.of_nat (S k)) with true
          by (symmetry; apply Z.ltb_lt; lia). done.
      * rewrite Hm. by rewrite !andb_false_r.
    + destruct (tlb_match v e) eqn:Hm; [|by rewrite !andb_false_r].
      rewrite !andb_true_r.
      replace (i + 1 + Z.of_nat k) with (i + Z.of_nat (S k)) by lia.
      destruct (Z.leb_spec (i + 1) j), (Z.leb_spec i j); try lia; done.
Qed.

(** After the invalidation, the table is the old one with every valid
    entry of the page made invalid. *)
Lemma tlb_invalidate_vpn_spec (t t' : list TLBEntry) size v :
  Z.of_nat (length t) = Z.max 0 size ->
  tlb_invalidate_vpn t size v = Done t' ->
  length t' = length t /\
  forall j e, load t j = Done e ->
    load t' j = Done (if tlb_match v e then invalidated e else e).
Proof.
  intros Hlen H. unfold tlb_invalidate_vpn in H.
  destruct (tlb_null t || (size <=? 0)) eqn:Hn.
  - inversion H; subst t'. split; [done|]. intros j e Hl.
    apply load_bound in Hl. apply orb_true_iff in Hn as [Hn|Hn].
    + destruct t; [simpl in Hl; lia | discriminate].
    + apply Z.leb_le in Hn. lia.
  - apply orb_false_iff in Hn as [_ Hn]. apply Z.leb_gt in Hn.
    apply invalidate_loop_spec in H as [Hl Hpt]. split; [done|].
    intros j e Hj. rewrite (Hpt _ _ Hj). apply load_bound in Hj.
    replace ((0 <=? j) && (j <? 0 + Z.of_nat (Z.to_nat size))) with true; [done|].
    symmetry. apply andb_true_iff. rewrite Z.leb_le, Z.ltb_lt. lia.
Qed.

Lemma tlb_invalidate_vpn_total (t : list TLBEntry) size v :
  Z.of_nat (length t) = Z.max 0 size ->
  exists t', tlb_invalidate_vpn t size v = Done t'.
Proof.
  intros Hlen. unfold tlb_invalidate_vpn.
  destruct (tlb_null t || (size <=? 0)) eqn:Hn; [eauto|].
  apply orb_false_iff in Hn as [_ Hn]. apply Z.leb_gt in Hn.
  apply invalidate_loop_total; lia.
Qed.

(** What [tlb_lookup] does, by cases. *)
Lemma tlb_lookup_spec (t : list TLBEntry) size v now t' hit :
  tlb_lookup t size v now = Done (t', hit) ->
  match hit with
  | Some f =>
      exists i e, load t i = Done e /\ tlb_match v e = true /\ f = frame_index e /\
        store t i (mkTLBEntry (valid e) (vpn e) (frame_index e) now) = Done t'
  | None => t' = t
  end.
Proof.
  unfold tlb_lookup. destruct (tlb_null t || (size <=? 0)).
  - intros H. by inversion H.
  - intros H. inv_bind H. destruct a as [i|].
    + inv_bind H. inv_bind H. inversion H; subst. exists i, a.
      apply first_index_Some in Ha as (_ & (x & Hx & Hp) & _).
      assert (x = a) as -> by congruence. done.
    + by inversion H.
Qed.

Lemma tlb_lookup_total (t : list TLBEntry) size v now :
  Z.of_nat (length t) = Z.max 0 size ->
  exists r, tlb_lookup t size v now = Done r.
Proof.
  intros Hlen. unfold tlb_lookup.
  destruct (tlb_null t || (size <=? 0)) eqn:Hn; [eauto|].
  apply orb_false_iff in Hn as [_ Hn]. apply Z.leb_gt in Hn.
  destruct (first_index_total (tlb_match v) t (Z.to_nat size) 0) as [r Hr]; [lia..|].
  rewrite Hr. simpl. destruct r as [i|]; [|eauto].
  apply first_index_Some in Hr as (Hi & (x & Hx & _) & _).
  rewrite Hx. simpl. rewrite store_total by (apply load_bound in Hx; lia).
  simpl. eauto.
Qed.

Lemma tlb_insert_cases (t : list TLBEntry) size v f now :
  0 < size -> Z.of_nat (length t) = size ->
  exists i e', 0 <= i < size /\
    tlb_insert t size v f now = Done (<[Z.to_nat i := e']> t) /\
    insert_case t size v f now i e'.
Proof.
  intros Hpos Hlen. unfold tlb_insert.
  rewrite tlb_null_false by lia.
  replace (size <=? 0) with false by (symmetry; apply Z.leb_gt; lia). simpl.
  destruct (first_index_total (tlb_match v) t (Z.to_nat size) 0) as [r Hr]; [lia..|].
  rewrite Hr. simpl. destruct r as [i|].
  { apply first_index_Some in Hr as (Hi & (e & He & Hm) & Hlow).
    exists i, (mkTLBEntry (valid e) (vpn e) f now).
    split; [lia|]. rewrite He. simpl. split; [apply store_total; lia|].
    eapply insert_update; eauto. }
  assert (Hno : forall j x, load t j = Done x -> tlb_match v x = false).
  { intros j x Hl. apply (first_index_None _ _ _ _ Hr j x); [|done].
    apply load_bound in Hl. lia. }
  destruct (first_index_total tlb_free t (Z.to_nat size) 0) as [r2 Hr2]; [lia..|].
  rewrite Hr2. simpl. destruct r2 as [i|].
  { apply first_index_Some in Hr2 as (Hi & (e & He & Hm) & Hlow).
    exists i, (mkTLBEntry 1 v f now).
    split; [lia|]. split; [apply store_total; lia|].
    eapply insert_fill; eauto.
    - by apply Z.eqb_eq.
    - intros j x Hj Hl. apply Z.eqb_neq. by apply (Hlow j x). }
  assert (Hfull : forall j x, load t j = Done x -> valid x <> 0).
  { intros j x Hl. apply Z.eqb_neq.
    apply (first_index_None _ _ _ _ Hr2 j x); [|done].
    apply load_bound in Hl. lia. }
  assert (Hne : t <> []) by (intros ->; simpl in Hlen; lia).
  destruct (min_index_total last_used t (Z.to_nat (size - 1)) 1 0) as [w Hw];
    [lia..|].
  rewrite Hw. simpl.
  apply (min_index_spec _ _ _ _ _ _ (lowest_min_start last_used t Hne)) in Hw.
  replace (1 + Z.of_nat (Z.to_nat (size - 1))) with size in Hw by lia.
  exists w, (mkTLBEntry 1 v f now).
  destruct Hw as [Hw Hmin]. split; [done|].
  split; [apply store_total; lia|].
  apply insert_evict; done.
Qed.

(** ** The CLOCK scan *)

Lemma set_bits_le (rb : list Z) : (set_bits rb <= length rb)%nat.
Proof. apply length_filter. Qed.

Lemma set_bits_clear (rb : list Z) (i : nat) (b : Z) :
  rb !! i = Some b -> b <> 0 ->
  S (set_bits (<[i := 0]> rb)) = set_bits rb.
Proof.
  unfold set_bits. revert i. induction rb as [|x rb IH]; intros i Hl Hb; [done|].
  destruct i as [|i]; simpl in *.
  - injection Hl as ->. rewrite !filter_cons.
    destruct (decide (0 <> 0)) as [H0|_]; [by destruct H0|].
    destruct (decide (b <> 0)); done.
  - specialize (IH i Hl Hb). rewrite !filter_cons. destruct (decide (x <> 0)); simpl; lia.
Qed.

Lemma rem_succ (h n : Z) :
  0 <= h < n -> Z.rem (h + 1) n = if h + 1 =? n then 0 else h + 1.
Proof.
  intros H. rewrite Z.rem_mod_nonneg by lia.
  destruct (Z.eqb_spec (h + 1) n) as [->|Hne].
  - apply Z.mod_same. lia.
  - apply Z.mod_small. lia.
Qed.

Lemma rem_succ_bound (h n : Z) : 0 <= h < n -> 0 <= Z.rem (h + 1) n < n.
Proof. intros H. rewrite rem_succ by done. destruct (Z.eqb_spec (h + 1) n); lia. Qed.

(** With more fuel than bits set, the scan ends; it looks at no more frames
    than bits set plus one. *)
Lemma clock_scan_ends (n : Z) (fuel : nat) : forall (rb : list Z) hand seen,
  Z.of_nat (length rb) = n -> 0 <= hand < n ->
  (set_bits rb < fuel)%nat ->
  exists c, clock_scan fuel rb hand n seen = Done c /\
    (cs_visits c <= seen + set_bits rb + 1)%nat /\
    (seen < cs_visits c)%nat /\
    0 <= cs_victim c < n /\ 0 <= cs_hand c < n /\
    length (cs_ref_bits c) = length rb /\
    load (cs_ref_bits c) (cs_victim c) = Done 0.
Proof.
  induction fuel as [|fuel IH]; intros rb hand seen Hlen Hh Hf; [lia|].
  simpl. destruct (load_total rb hand) as [b Hb]; [lia|]. rewrite Hb. simpl.
  destruct (Z.eqb_spec b 0) as [->|Hnz].
  - eexists. split; [done|]. simpl.
    pose proof (rem_succ_bound hand n Hh). repeat split; try lia. done.
  - rewrite store_total by lia. simpl.
    apply load_Done in Hb as [_ Hb].
    pose proof (set_bits_clear rb (Z.to_nat hand) b Hb Hnz) as Hc.
    destruct (IH (<[Z.to_nat hand := 0]> rb) (Z.rem (hand + 1) n) (S seen))
      as (c & Hc1 & Hc2 & Hc3 & Hc4 & Hc5 & Hc6 & Hc7).
    + rewrite length_insert. done.
    + by apply rem_succ_bound.
    + lia.
    + exists c. rewrite length_insert in Hc6. repeat split; try done; lia.
Qed.

(** The result of the scan does not depend on the fuel left over. *)
Lemma clock_scan_fuel (n : Z) (fuel fuel' : nat) : forall (rb : list Z) hand seen c,
  clock_scan fuel rb hand n seen = Done c -> (fuel <= fuel')%nat ->
  clock_scan fuel' rb hand n seen = Done c.
Proof.
  revert fuel'. induction fuel as [|fuel IH]; intros fuel' rb hand seen c H Hle;
    [discriminate|].
  destruct fuel' as [|fuel']; [lia|]. simpl in *.
  destruct (load rb hand) as [b| |]; simpl in *; try discriminate.
  destruct (b =? 0); [done|].
  destruct (store rb hand 0) as [rb'| |]; simpl in *; try discriminate.
  apply IH; [done | lia].
Qed.

(** When exactly the [m] frames from the hand on have their bit set, the
    scan clears them one by one and takes the frame after them. *)
Lemma clock_scan_sweep (n : Z) (m : nat) : forall (fuel : nat) (rb : list Z) h seen,
  Z.of_nat (length rb) = n -> 0 <= h < n -> Z.of_nat m <= n ->
  (forall j b, load rb j = Done b -> (b <> 0 <-> ahead h j n < Z.of_nat m)) ->
  (m < fuel)%nat ->
  exists c, clock_scan fuel rb h n seen = Done c /\
    cs_victim c = (h + Z.of_nat m) mod n /\
    cs_visits c = (seen + m + 1)%nat /\
    length (cs_ref_bits c) = length rb /\
    (forall j b, load (cs_ref_bits c) j = Done b -> b = 0).
Proof.
  induction m as [|m IH]; intros fuel rb h seen Hlen Hh Hm Hbits Hf.
  - destruct fuel as [|fuel]; [lia|]. simpl.
    destruct (load_total rb h) as [b Hb]; [lia|]. rewrite Hb. simpl.
    assert (Hz : forall j b, load rb j = Done b -> b = 0).
    { intros j x Hx. destruct (Z.eq_dec x 0) as [|Hne]; [done|].
      apply (Hbits j x Hx) in Hne. apply load_bound in Hx.
      unfold ahead in Hne. destruct (h <=? j) eqn:E; [apply Z.leb_le in E | apply Z.leb_gt in E]; lia. }
    rewrite (Hz _ _ Hb). simpl. eexists. split; [done|]. simpl.
    repeat split; try done.
    + rewrite Z.add_0_r. symmetry. apply Z.mod_small. lia.
    + lia.
  - destruct fuel as [|fuel]; [lia|]. simpl.
    destruct (load_total rb h) as [b Hb]; [lia|]. rewrite Hb. simpl.
    assert (Hnz : b <> 0).
    { apply (Hbits h b Hb). unfold ahead.
      replace (h <=? h) with true by (symmetry; apply Z.leb_le; lia). lia. }
    replace (b =? 0) with false by (symmetry; by apply Z.eqb_neq).
    rewrite store_total by lia. simpl.
    pose proof (rem_succ h n Hh) as Hr.
    pose proof (rem_succ_bound h n Hh) as Hrb.
    destruct (IH fuel (<[Z.to_nat h := 0]> rb) (Z.rem (h + 1) n) (S seen))
      as (c & Hc1 & Hc2 & Hc3 & Hc4 & Hc5).
    + rewrite length_insert. done.
    + done.
    + lia.
    + intros j x Hx.
      assert (Hs : store rb h 0 = Done (<[Z.to_nat h := 0]> rb))
        by (apply store_total; lia).
      apply load_bound in Hx as Hj. rewrite length_insert in Hj.
      destruct (load_store _ _ _ _ _ _ Hs Hx) as [[-> ->] | [Hne Hl]].
      * split; [done|]. intros Ha. exfalso. revert Ha. rewrite Hr. unfold ahead.
        destruct (Z.eqb_spec (h + 1) n);
          [destruct (Z.leb_spec 0 h) | destruct (Z.leb_spec (h + 1) h)]; lia.
      * rewrite (Hbits j x Hl). rewrite Hr. unfold ahead.
        destruct (Z.eqb_spec (h + 1) n);
          [destruct (Z.leb_spec 0 j) | destruct (Z.leb_spec (h + 1) j)];
          destruct (Z.leb_spec h j); lia.
    + lia.
    + exists c. split; [done|]. rewrite length_insert in Hc4.
      split; [|split; [lia | split; [done | done]]].
      rewrite Hc2. rewrite Z.rem_mod_nonneg by lia.
      rewrite Z.add_mod_idemp_l by lia. f_equal. lia.
Qed.

(** ** Machine integers *)

Lemma int_of_uint_small (u : Z) : 0 <= u < 2 ^ 31 -> int_of_uint u = u.
Proof.
  intros H. unfold int_of_uint, UINT_MOD. rewrite Z.mod_small; lia.
Qed.

Lemma uint_of_int_small (i : Z) : 0 <= i < 2 ^ 32 -> uint_of_int i = i.
Proof. intros H. unfold uint_of_int, UINT_MOD. apply Z.mod_small. lia. Qed.

Lemma vpn_range (a : Z) : 0 <= a < UINT_MOD -> 0 <= a / PAGE_SIZE < VPN_LIMIT.
Proof.
  unfold UINT_MOD, PAGE_SIZE, VPN_LIMIT. intros H. split.
  - apply Z.div_pos; lia.
  - apply Z.div_lt_upper_bound; lia.
Qed.

(** ** The invariant of the simulation loop *)

Tactic Notation "inv_bind" hyp(H) "as" ident(x) ident(Hx) :=
  apply bind_Done in H; destruct H as (x & Hx & H).

Lemma inv_init (cfg : Config) : valid_config cfg -> inv cfg (init cfg).
Proof.
  intros Hc. unfold valid_config in Hc. constructor; simpl;
    rewrite ?length_replicate; try done; try lia.
  - destruct (Z.ltb_spec 0 (tlb_size cfg)); simpl;
      rewrite ?length_replicate; lia.
  - intros i x Hx. apply load_replicate in Hx. by left.
  - intros i j x Hx _ Hne. apply load_replicate in Hx. done.
  - intros k e He Hv. exfalso. apply Hv.
    destruct (0 <? tlb_size cfg).
    + apply load_replicate in He. by subst e.
    + apply load_bound in He. simpl in He. lia.
  - intros _. split; [done|]. intros i d Hd. by apply load_replicate in Hd.
Qed.

Lemma default_config_valid : valid_config default_config.
Proof. unfold valid_config, default_config, DEFAULT_NUM_FRAMES. simpl. lia. Qed.

Lemma touch_spec cfg o now i m m' :
  touch cfg o now i m = Done m' ->
  length (m_last_used m') = length (m_last_used m) /\
  length (m_ref_bits m') = length (m_ref_bits m) /\
  length (m_dirty m') = length (m_dirty m) /\
  (is_WB (write_policy cfg) = false -> m_dirty m' = m_dirty m).
Proof.
  unfold touch. intros H.
  inv_bind H as lu Hlu. inv_bind H as rb Hrb. inv_bind H as d Hd.
  inversion H; subst m'; clear H. simpl.
  repeat split.
  - destruct (is_LRU (alg cfg)); [by eapply store_length | congruence].
  - destruct (is_CLOCK (alg cfg)); [by eapply store_length | congruence].
  - destruct (is_W o && is_WB (write_policy cfg)); [by eapply store_length | congruence].
  - intros Hwt. rewrite Hwt, andb_false_r in Hd. congruence.
Qed.

Lemma touch_total cfg o now i m :
  0 <= i < Z.of_nat (length (m_last_used m)) ->
  0 <= i < Z.of_nat (length (m_ref_bits m)) ->
  0 <= i < Z.of_nat (length (m_dirty m)) ->
  exists m', touch cfg o now i m = Done m'.
Proof.
  intros H1 H2 H3. unfold touch.
  destruct (is_LRU (alg cfg)), (is_CLOCK (alg cfg)),
    (is_W o && is_WB (write_policy cfg));
    rewrite ?store_total by done; simpl; eauto.
Qed.

Lemma clock_scan_bounds (n : Z) (fuel : nat) (rb : list Z) hand seen c :
  Z.of_nat (length rb) = n -> 0 <= hand < n ->
  clock_scan fuel rb hand n seen = Done c ->
  (seen < cs_visits c <= seen + set_bits rb + 1)%nat /\
  0 <= cs_victim c < n /\ 0 <= cs_hand c < n /\
  length (cs_ref_bits c) = length rb /\
  load (cs_ref_bits c) (cs_victim c) = Done 0.
Proof.
  intros Hlen Hh H.
  apply (clock_scan_fuel n fuel (fuel + S (set_bits rb))) in H; [|lia].
  destruct (clock_scan_ends n (fuel + S (set_bits rb)) rb hand seen Hlen Hh)
    as (c' & Hc & ?); [lia|].
  assert (c' = c) as -> by congruence. intuition lia.
Qed.

Lemma choose_victim_spec fuel cfg s c :
  inv cfg s -> choose_victim fuel cfg s = Done c ->
  0 <= ch_victim c < num_frames cfg /\
  0 <= ch_fifo c < num_frames cfg /\
  0 <= ch_hand c < num_frames cfg /\
  length (ch_ref_bits c) = length (ref_bits s).
Proof.
  intros Hinv H. destruct Hinv. unfold choose_victim in H.
  inv_bind H as e He. destruct e as [i|].
  - inversion H; subst c; clear H. simpl.
    apply first_index_Some in He as (Hi & _). repeat split; lia.
  - destruct (alg cfg).
    + inversion H; subst c; clear H. simpl.
      pose proof (rem_succ_bound _ _ inv_fifo0). repeat split; lia.
    + inv_bind H as v Hv. inversion H; subst c; clear H. simpl.
      assert (Hne : frame_last_used s <> []).
      { intros E. rewrite E in inv_last_used0. simpl in *. lia. }
      apply (min_index_spec _ _ _ _ _ _ (lowest_min_start _ _ Hne)) in Hv.
      destruct Hv as [Hv _]. repeat split; lia.
    + inv_bind H as k Hk. inversion H; subst c; clear H. simpl.
      apply clock_scan_bounds in Hk; [|lia|lia]. intuition lia.
Qed.

Lemma choose_victim_total fuel cfg s :
  inv cfg s -> (alg cfg = ALG_CLOCK -> (Z.to_nat (num_frames cfg) < fuel)%nat) ->
  exists c, choose_victim fuel cfg s = Done c.
Proof.
  intros Hinv Hf. destruct Hinv. unfold choose_victim.
  destruct (first_index_total (fun x => x =? EMPTY) (frames s)
              (Z.to_nat (num_frames cfg)) 0) as [e He]; [lia..|].
  rewrite He. simpl. destruct e as [i|]; [eauto|].
  destruct (alg cfg) eqn:Halg; [eauto | |].
  - destruct (min_index_total (fun x => x) (frame_last_used s)
                (Z.to_nat (num_frames cfg - 1)) 1 0) as [v Hv]; [lia..|].
    rewrite Hv. simpl. eauto.
  - specialize (Hf eq_refl).
    destruct (clock_scan_ends (num_frames cfg) fuel (ref_bits s) (clock_hand s) 0)
      as (c & Hc & _); [lia | lia | |].
    + pose proof (set_bits_le (ref_bits s)). lia.
    + rewrite Hc. simpl. eauto.
Qed.

Lemma occupant_not_empty (x : Z) : 0 <= x < VPN_LIMIT -> x <> EMPTY.
Proof. unfold EMPTY. lia. Qed.

Lemma occupant_uint (x : Z) : occupant_ok x -> x <> EMPTY -> uint_of_int x = x.
Proof.
  intros [->|H] Hne; [done|]. apply uint_of_int_small.
  unfold VPN_LIMIT in H. lia.
Qed.

(** After the eviction, no valid entry of the table names the victim. *)
Lemma evict_spec cfg (t : list TLBEntry) wb (fr d : list Z) victim ev :
  Z.of_nat (length t) = Z.max 0 (tlb_size cfg) ->
  (forall i x, load fr i = Done x -> occupant_ok x) ->
  tlb_consistent fr t ->
  evict cfg t wb fr d victim = Done ev ->
  length (ev_tlb ev) = length t /\
  length (ev_dirty ev) = length d /\
  (forall k e, load (ev_tlb ev) k = Done e -> valid e <> 0 ->
     load t k = Done e /\ frame_index e <> victim) /\
  (is_WB (write_policy cfg) = false -> ev_write_backs ev = wb /\ ev_dirty ev = d).
Proof.
  intros Hlen Hocc Hcons H. unfold evict in H.
  inv_bind H as old Hold. destruct (Z.eqb_spec old EMPTY) as [->|Hne].
  - inversion H; subst ev; clear H. simpl. repeat split; try done.
    intros Hf. destruct (Hcons k e H H0) as [Hr Hl]. rewrite Hf in Hl.
    assert (vpn e = EMPTY) by congruence. unfold EMPTY in *. lia.
  - inv_bind H as t' Ht'.
    assert (Ht : length t' = length t /\
                 forall k e, load t' k = Done e -> valid e <> 0 ->
                   load t k = Done e /\ frame_index e <> victim).
    { destruct (Z.ltb_spec 0 (tlb_size cfg)) as [Hpos|Hle].
      - apply tlb_invalidate_vpn_spec in Ht' as [Hl Hpt]; [|done].
        split; [done|]. intros k e He Hv.
        destruct (load_total t k) as [e0 He0].
        { apply load_bound in He. lia. }
        rewrite (Hpt _ _ He0) in He.
        destruct (tlb_match (uint_of_int old) e0) eqn:Hm.
        + inversion He; subst e. simpl in Hv. done.
        + inversion He; subst e0. split; [done|].
          apply tlb_match_false in Hm as [Hm|Hm]; [done|].
          rewrite (occupant_uint old (Hocc _ _ Hold) Hne) in Hm.
          intros Hf. destruct (Hcons k e He0 Hv) as [_ Hfr]. rewrite Hf in Hfr.
          congruence.
      - inversion Ht'; subst t'. split; [done|]. intros k e He.
        apply load_bound in He. lia. }
    destruct Ht as [Htl Htv].
    destruct (is_WB (write_policy cfg)) eqn:Hwb.
    + inv_bind H as dv Hdv. destruct (dv =? 0).
      * inversion H; subst ev; clear H. simpl.
        refine (conj Htl (conj _ (conj Htv _))); done.
      * inv_bind H as d' Hd'. inversion H; subst ev; clear H. simpl.
        refine (conj Htl (conj _ (conj Htv _))); [by eapply store_length | done].
    + inversion H; subst ev; clear H. simpl.
      refine (conj Htl (conj _ (conj Htv _))); done.
Qed.

Lemma evict_total cfg (t : list TLBEntry) wb (fr d : list Z) victim :
  Z.of_nat (length t) = Z.max 0 (tlb_size cfg) ->
  length d = length fr ->
  0 <= victim < Z.of_nat (length fr) ->
  exists ev, evict cfg t wb fr d victim = Done ev.
Proof.
  intros Hlen Hd Hv. unfold evict.
  destruct (load_total fr victim Hv) as [old Hold]. rewrite Hold. simpl.
  destruct (old =? EMPTY); [eauto|].
  assert (Ht : exists t', (if 0 <? tlb_size cfg
                           then tlb_invalidate_vpn t (tlb_size cfg) (uint_of_int old)
                           else Done t) = Done t').
  { destruct (0 <? tlb_size cfg); [|eauto]. by apply tlb_invalidate_vpn_total. }
  destruct Ht as [t' ->]. simpl.
  destruct (is_WB (write_policy cfg)); [|eauto].
  destruct (load_total d victim) as [dv Hdv]; [lia|]. rewrite Hdv. simpl.
  destruct (dv =? 0); [eauto|]. rewrite store_total by lia. simpl. eauto.
Qed.

Lemma insert_case_entry t size v f now i e' :
  insert_case t size v f now i e' ->
  valid e' <> 0 /\ vpn e' = v /\ frame_index e' = f /\ last_used e' = now.
Proof.
  intros [e He Hm _ -> | e _ _ _ _ -> | _ _ _ ->]; simpl; try done.
  apply tlb_match_true in Hm as [Hv Hp]. done.
Qed.

(** Entering the page of a frame keeps the table consistent. *)
Lemma tlb_insert_consistent (fr : list Z) (t t' : list TLBEntry) size v f now :
  Z.of_nat (length t) = Z.max 0 size ->
  tlb_consistent fr t ->
  0 <= v < VPN_LIMIT -> load fr f = Done v ->
  tlb_insert t size v f now = Done t' ->
  length t' = length t /\ tlb_consistent fr t'.
Proof.
  intros Hlen Hcons Hv Hf H.
  destruct (Z.ltb_spec 0 size) as [Hpos|Hle].
  - destruct (tlb_insert_cases t size v f now Hpos) as (i & e' & Hi & Hins & Hcase);
      [lia|].
    rewrite Hins in H. inversion H; subst t'; clear H.
    split; [apply length_insert|].
    assert (Hs : store t i e' = Done (<[Z.to_nat i := e']> t))
      by (apply store_total; lia).
    intros k e He Hval.
    destruct (load_store _ _ _ _ _ _ Hs He) as [[-> ->] | [Hne Hl]].
    + apply insert_case_entry in Hcase as (_ & -> & -> & _). done.
    + by apply (Hcons k e).
  - unfold tlb_insert in H.
    replace (size <=? 0) with true in H by (symmetry; apply Z.leb_le; lia).
    rewrite orb_true_r in H. inversion H; subst t'. done.
Qed.

Lemma tlb_insert_total (t : list TLBEntry) size v f now :
  Z.of_nat (length t) = Z.max 0 size ->
  exists t', tlb_insert t size v f now = Done t'.
Proof.
  intros Hlen. destruct (Z.ltb_spec 0 size) as [Hpos|Hle].
  - destruct (tlb_insert_cases t size v f now Hpos) as (i & e' & _ & Hins & _);
      [lia | eauto].
  - unfold tlb_insert.
    replace (size <=? 0) with true by (symmetry; apply Z.leb_le; lia).
    rewrite orb_true_r. eauto.
Qed.

(** The invariant does not look at the tick nor at the access counters. *)
Lemma inv_same cfg s s' :
  frames s' = frames s -> frame_last_used s' = frame_last_used s ->
  ref_bits s' = ref_bits s -> dirty s' = dirty s ->
  fifo_index s' = fifo_index s -> clock_hand s' = clock_hand s ->
  tlb s' = tlb s -> write_backs s' = write_backs s ->
  inv cfg s -> inv cfg s'.
Proof.
  intros E1 E2 E3 E4 E5 E6 E7 E8 []. constructor;
    rewrite ?E1, ?E2, ?E3, ?E4, ?E5, ?E6, ?E7, ?E8; done.
Qed.

Lemma tlb_hit_inv cfg s o t f s' :
  inv cfg s ->
  length t = length (tlb s) -> tlb_consistent (frames s) t ->
  tlb_hit cfg s o t f = Done s' -> inv cfg s'.
Proof.
  intros Hinv Hlen Hcons H. destruct Hinv. unfold tlb_hit in H.
  inv_bind H as m Hm. inversion H; subst s'; clear H.
  assert (Hm' : length (m_last_used m) = length (frame_last_used s) /\
                length (m_ref_bits m) = length (ref_bits s) /\
                length (m_dirty m) = length (dirty s) /\
                (is_WB (write_policy cfg) = false -> m_dirty m = dirty s)).
  { destruct ((0 <=? f) && (f <? num_frames cfg)).
    - apply touch_spec in Hm. done.
    - inversion Hm; subst m. done. }
  destruct Hm' as (M1 & M2 & M3 & M4).
  constructor; simpl; try done; try congruence.
  intros Hwt. rewrite (M4 Hwt). by apply inv_write_through0.
Qed.

Lemma frame_hit_inv cfg s o v i s' :
  inv cfg s -> 0 <= v < VPN_LIMIT -> load (frames s) i = Done v ->
  frame_hit cfg s o v i = Done s' -> inv cfg s'.
Proof.
  intros Hinv Hv Hi H. destruct Hinv. unfold frame_hit in H.
  inv_bind H as m Hm. inv_bind H as t Ht. inversion H; subst s'; clear H.
  apply touch_spec in Hm as (M1 & M2 & M3 & M4). simpl in *.
  assert (Ht' : length t = length (tlb s) /\ tlb_consistent (frames s) t).
  { destruct (0 <? tlb_size cfg).
    - by eapply tlb_insert_consistent.
    - inversion Ht; subst t. done. }
  destruct Ht' as [T1 T2].
  constructor; simpl; try done; try congruence.
  intros Hwt. rewrite (M4 Hwt). by apply inv_write_through0.
Qed.

Lemma page_fault_inv fuel cfg s o v s' :
  inv cfg s -> 0 <= v < VPN_LIMIT ->
  (forall j x, load (frames s) j = Done x -> x <> v) ->
  page_fault fuel cfg s o v = Done s' -> inv cfg s'.
Proof.
  intros Hinv Hv Hnew H. unfold page_fault in H.
  inv_bind H as c Hc. inv_bind H as ev Hev. inv_bind H as fr Hfr.
  inv_bind H as m Hm. inv_bind H as t Ht. inversion H; subst s'; clear H.
  apply (choose_victim_spec _ _ _ _ Hinv) in Hc as (C1 & C2 & C3 & C4).
  destruct Hinv.
  apply evict_spec in Hev as (E1 & E2 & E3 & E4); try done.
  apply touch_spec in Hm as (M1 & M2 & M3 & M4). simpl in *.
  rewrite int_of_uint_small in Hfr by (unfold VPN_LIMIT in Hv; lia).
  pose proof (store_length _ _ _ _ Hfr) as F1.
  assert (Hcons : tlb_consistent fr (ev_tlb ev)).
  { intros k e He Hval. destruct (E3 k e He Hval) as [Hl Hne].
    destruct (inv_tlb0 k e Hl Hval) as [Hr Hf]. split; [done|].
    by rewrite (load_store_ne _ _ _ _ _ Hfr Hne). }
  assert (Ht' : length t = length (ev_tlb ev) /\ tlb_consistent fr t).
  { destruct (0 <? tlb_size cfg).
    - eapply tlb_insert_consistent; eauto; [lia|]. by eapply load_store_eq.
    - inversion Ht; subst t. done. }
  destruct Ht' as [T1 T2].
  constructor; simpl; try done; try congruence; try lia.
  - intros i x Hx. destruct (load_store _ _ _ _ _ _ Hfr Hx) as [[-> ->] | [Hne Hl]].
    + by right.
    + by eapply inv_occupants0.
  - intros i j x Hi Hj Hx.
    destruct (load_store _ _ _ _ _ _ Hfr Hi) as [[-> ->] | [Hni Hli]];
      destruct (load_store _ _ _ _ _ _ Hfr Hj) as [[-> Hxj] | [Hnj Hlj]]; try done.
    + by destruct (Hnew _ _ Hlj).
    + subst x. by destruct (Hnew _ _ Hli).
    + by apply (inv_no_duplicate0 i j x).
  - intros Hwt. destruct (E4 Hwt) as [-> E5]. rewrite (M4 Hwt), E5.
    by apply inv_write_through0.
Qed.

Lemma resolve_inv fuel cfg s o v s' :
  inv cfg s -> 0 <= v < VPN_LIMIT ->
  resolve fuel cfg s o v = Done s' -> inv cfg s'.
Proof.
  intros Hinv Hv H. unfold resolve in H. inv_bind H as h Hh.
  rewrite int_of_uint_small in Hh by (unfold VPN_LIMIT in Hv; lia).
  destruct h as [i|].
  - apply first_index_Some in Hh as (_ & (x & Hx & Hp) & _).
    apply Z.eqb_eq in Hp. subst x. by eapply frame_hit_inv.
  - eapply page_fault_inv; eauto. intros j x Hx.
    apply Z.eqb_neq. apply (first_index_None _ _ _ _ Hh j x); [|done].
    apply load_bound in Hx. destruct Hinv. lia.
Qed.

(** A lookup keeps the table consistent: it only writes a time stamp. *)
Lemma tlb_lookup_consistent (fr : list Z) (t t' : list TLBEntry) size v now hit :
  tlb_consistent fr t ->
  tlb_lookup t size v now = Done (t', hit) ->
  length t' = length t /\ tlb_consistent fr t'.
Proof.
  intros Hcons H. apply tlb_lookup_spec in H. destruct hit as [f|]; [|by subst].
  destruct H as (i & e & He & Hm & -> & Hs).
  split; [by eapply store_length|]. intros k e' Hk Hval.
  destruct (load_store _ _ _ _ _ _ Hs Hk) as [[-> ->] | [Hne Hl]].
  - simpl in *. by apply (Hcons i e).
  - by apply (Hcons k e').
Qed.

(** The invariant holds after every record. *)
Lemma step_inv fuel cfg s r s' :
  inv cfg s -> valid_access r -> step fuel cfg s r = Done s' -> inv cfg s'.
Proof.
  intros Hinv Hr H. unfold step in H.
  pose proof (vpn_range _ Hr) as Hv.
  set (s1 := with_tick s ((tick s + 1) mod ULONG_MOD)) in *.
  assert (H1 : inv cfg s1) by (by apply (inv_same cfg s)).
  destruct (is_R (op r) || is_W (op r)); [|by inversion H; subst].
  set (s2 := count_op s1 (op r)) in *.
  assert (H2 : inv cfg s2) by (by apply (inv_same cfg s1)).
  destruct (0 <? tlb_size cfg).
  - inv_bind H as p Hp. destruct p as [t hit].
    apply tlb_lookup_consistent with (fr := frames s2) in Hp as [L1 L2];
      [|by destruct H2].
    destruct hit as [f|].
    + by eapply tlb_hit_inv.
    + eapply resolve_inv; [| exact Hv | exact H].
      by apply (inv_same cfg s2).
  - by eapply resolve_inv.
Qed.

Lemma run_inv fuel cfg (trace : list Access) : forall s s',
  inv cfg s -> Forall valid_access trace ->
  run fuel cfg s trace = Done s' -> inv cfg s'.
Proof.
  induction trace as [|r trace IH]; intros s s' Hinv Hall H; simpl in H.
  - by inversion H; subst.
  - inv_bind H as s1 Hs1. inversion Hall; subst.
    eapply IH; [| done | exact H]. by eapply step_inv.
Qed.

(** ** Progress: no access outside an array, and the CLOCK loop ends *)

Lemma tlb_hit_total cfg s o t f :
  inv cfg s -> exists s', tlb_hit cfg s o t f = Done s'.
Proof.
  intros []. unfold tlb_hit.
  destruct (Z.leb_spec 0 f), (Z.ltb_spec f (num_frames cfg)); simpl; eauto.
  destruct (touch_total cfg o (tick s) f
              (mkMeta (frame_last_used s) (ref_bits s) (dirty s))) as [m Hm];
    simpl; try lia.
  rewrite Hm. simpl. eauto.
Qed.

Lemma frame_hit_total cfg s o v i :
  inv cfg s -> 0 <= i < num_frames cfg ->
  exists s', frame_hit cfg s o v i = Done s'.
Proof.
  intros [] Hi. unfold frame_hit.
  destruct (touch_total cfg o (tick s) i
              (mkMeta (frame_last_used s) (ref_bits s) (dirty s))) as [m Hm];
    simpl; try lia.
  rewrite Hm. simpl.
  destruct (0 <? tlb_size cfg); simpl; [|eauto].
  destruct (tlb_insert_total (tlb s) (tlb_size cfg) v i (tick s)) as [t Ht]; [done|].
  rewrite Ht. simpl. eauto.
Qed.

Lemma page_fault_total fuel cfg s o v :
  inv cfg s -> (alg cfg = ALG_CLOCK -> (Z.to_nat (num_frames cfg) < fuel)%nat) ->
  exists s', page_fault fuel cfg s o v = Done s'.
Proof.
  intros Hinv Hf. unfold page_fault.
  destruct (choose_victim_total fuel cfg s Hinv Hf) as [c Hc]. rewrite Hc. simpl.
  apply (choose_victim_spec _ _ _ _ Hinv) in Hc as (C1 & C2 & C3 & C4).
  pose proof Hinv as [].
  destruct (evict_total cfg (tlb s) (write_backs s) (frames s) (dirty s) (ch_victim c))
    as [ev Hev]; [done | done | lia |].
  rewrite Hev. simpl.
  apply evict_spec in Hev as (E1 & E2 & E3 & E4); try done.
  rewrite store_total by lia. simpl.
  destruct (touch_total cfg o (tick s) (ch_victim c)
              (mkMeta (frame_last_used s) (ch_ref_bits c) (ev_dirty ev))) as [m Hm];
    simpl; try lia.
  rewrite Hm. simpl.
  destruct (0 <? tlb_size cfg); simpl; [|eauto].
  destruct (tlb_insert_total (ev_tlb ev) (tlb_size cfg) v (ch_victim c) (tick s))
    as [t Ht]; [lia|].
  rewrite Ht. simpl. eauto.
Qed.

Lemma resolve_total fuel cfg s o v :
  inv cfg s -> (alg cfg = ALG_CLOCK -> (Z.to_nat (num_frames cfg) < fuel)%nat) ->
  exists s', resolve fuel cfg s o v = Done s'.
Proof.
  intros Hinv Hf. unfold resolve. pose proof Hinv as [].
  destruct (first_index_total (fun x => x =? int_of_uint v) (frames s)
              (Z.to_nat (num_frames cfg)) 0) as [h Hh]; [lia..|].
  rewrite Hh. simpl. destruct h as [i|].
  - apply first_index_Some in Hh as (Hi & _). apply frame_hit_total; [done | lia].
  - by apply page_fault_total.
Qed.

Lemma step_total fuel cfg s r :
  inv cfg s -> (alg cfg = ALG_CLOCK -> (Z.to_nat (num_frames cfg) < fuel)%nat) ->
  exists s', step fuel cfg s r = Done s'.
Proof.
  intros Hinv Hf. unfold step.
  set (s1 := with_tick s ((tick s + 1) mod ULONG_MOD)).
  assert (H1 : inv cfg s1) by (by apply (inv_same cfg s)).
  destruct (is_R (op r) || is_W (op r)); [|eauto].
  set (s2 := count_op s1 (op r)).
  assert (H2 : inv cfg s2) by (by apply (inv_same cfg s1)).
  destruct (0 <? tlb_size cfg).
  - destruct (tlb_lookup_total (tlb s2) (tlb_size cfg) (addr r / PAGE_SIZE) (tick s2))
      as [[t hit] Hl]; [by destruct H2|].
    rewrite Hl. simpl. destruct hit as [f|].
    + by apply tlb_hit_total.
    + apply resolve_total; [|done]. by apply (inv_same cfg s2).
  - by apply resolve_total.
Qed.

Lemma run_total fuel cfg (trace : list Access) : forall s,
  inv cfg s -> Forall valid_access trace ->
  (alg cfg = ALG_CLOCK -> (Z.to_nat (num_frames cfg) < fuel)%nat) ->
  exists s', run fuel cfg s trace = Done s'.
Proof.
  induction trace as [|r trace IH]; intros s Hinv Hall Hf; simpl; [eauto|].
  inversion Hall; subst.
  destruct (step_total fuel cfg s r Hinv Hf) as [s1 Hs1]. rewrite Hs1. simpl.
  apply IH; try done. by eapply step_inv.
Qed.

Lemma reachable_inv cfg s : valid_config cfg -> reachable cfg s -> inv cfg s.
Proof.
  intros Hc (fuel & trace & Hall & Hrun).
  eapply run_inv; [| exact Hall | exact Hrun]. by apply inv_init.
Qed.

(** ** Resident pages *)

Lemma no_duplicate_cons (x : Z) (fr : list Z) :
  no_duplicate (x :: fr) -> no_duplicate fr /\ (x <> EMPTY -> x ∉ fr).
Proof.
  intros H. split.
  - intros i j y Hi Hj Hy.
    apply load_Done in Hi as [Hi0 Hi]. apply load_Done in Hj as [Hj0 Hj].
    assert (i + 1 = j + 1); [|lia].
    apply (H (i + 1) (j + 1) y); [| |done]; apply load_Done; (split; [lia|]).
    + replace (Z.to_nat (i + 1)) with (S (Z.to_nat i)) by lia. done.
    + replace (Z.to_nat (j + 1)) with (S (Z.to_nat j)) by lia. done.
  - intros Hx Hin. apply list_elem_of_lookup in Hin as [k Hk].
    assert (0 = Z.of_nat (S k)); [|lia].
    apply (H 0 (Z.of_nat (S k)) x); [done | | done].
    apply load_Done. split; [lia|]. rewrite Nat2Z.id. done.
Qed.

Lemma no_duplicate_resident (fr : list Z) : no_duplicate fr -> NoDup (resident fr).
Proof.
  unfold resident. induction fr as [|x fr IH]; intros H; [constructor|].
  apply no_duplicate_cons in H as [H1 H2]. rewrite filter_cons.
  destruct (decide (x <> EMPTY)) as [Hx|Hx]; [|by apply IH].
  constructor; [|by apply IH].
  intros Hin. apply list_elem_of_filter in Hin as [_ Hin]. by apply H2.
Qed.

Lemma sample_trace_valid : Forall valid_access sample_trace.
Proof. repeat constructor; unfold valid_access, UINT_MOD; simpl; lia. Defined.

Lemma first_index_found {A : Type} (p : A -> bool) (a : list A) (k : nat) :
  forall i0 i x,
  i0 <= i < i0 + Z.of_nat k -> 0 <= i0 ->
  load a i = Done x -> p x = true ->
  (forall j y, i0 <= j < i -> load a j = Done y -> p y = false) ->
  first_index p a k i0 = Done (Some i).
Proof.
  induction k as [|k IH]; intros i0 i x Hi H0 Hx Hp Hlow; [lia|]. simpl.
  destruct (Z.eq_dec i0 i) as [->|Hne].
  - rewrite Hx. simpl. by rewrite Hp.
  - destruct (load_total a i0) as [y Hy].
    { apply load_bound in Hx. lia. }
    rewrite Hy. simpl. rewrite (Hlow i0 y) by (done || lia).
    apply (IH (i0 + 1) i x); try done; try lia.
    intros j z Hj. apply Hlow. lia.
Qed.

Lemma int_add_fits (a b : Z) : fits_int (a + b) -> int_add a b = a + b.
Proof.
  unfold fits_int, INT_MAX, int_add, UINT_MOD. intros H.
  rewrite Z.mod_small; lia.
Qed.

Lemma amat_example (cfg : Config) (s : State) :
  0 < tlb_size cfg ->
  tlb_hits s = 8 -> tlb_misses s = 2 -> page_faults s = 1 ->
  reads s + writes s = 10 ->
  amat (final_stats cfg s) = Some 1000020.8%float.
Proof.
  intros Hs Hh Hm Hf Ht. unfold final_stats, ratio.
  rewrite (int_add_fits (reads s) (writes s))
    by (rewrite Ht; unfold fits_int, INT_MAX; lia).
  rewrite Hh, Hm, Hf, Ht.
  replace (0 <? tlb_size cfg) with true by (symmetry; by apply Z.ltb_lt).
  vm_compute. reflexivity.
Qed.

(** ** The paths of one access *)

Lemma step_path fuel cfg s r s' :
  is_R (op r) || is_W (op r) = true ->
  step fuel cfg s r = Done s' -> path fuel cfg s r s'.
Proof.
  intros Hop H. unfold step in H. rewrite Hop in H. fold (entered s r) in H.
  assert (Hres : forall s2,
            scanned cfg s r s2 ->
            resolve fuel cfg s2 (op r) (addr r / PAGE_SIZE) = Done s' ->
            path fuel cfg s r s').
  { intros s2 Hs2 Hr. unfold resolve in Hr. inv_bind Hr as h Hh.
    assert (Hf : frames s2 = frames s) by (by destruct Hs2 as [[_ ->] | [_ ->]]).
    rewrite Hf in Hh. destruct h as [i|].
    - by eapply path_frame_hit.
    - by eapply path_page_fault. }
  destruct (Z.ltb_spec 0 (tlb_size cfg)) as [Hpos|Hle].
  - inv_bind H as p Hp. destruct p as [t [f|]].
    + by eapply path_tlb_hit.
    + apply (Hres (with_tlb_miss (entered s r))); [by right | done].
  - apply (Hres (entered s r)); [by left | done].
Qed.

Lemma touch_Done cfg o now i m m' :
  touch cfg o now i m = Done m' ->
  m_last_used m' = (if is_LRU (alg cfg) then <[Z.to_nat i := now]> (m_last_used m)
                    else m_last_used m) /\
  m_ref_bits m' = (if is_CLOCK (alg cfg) then <[Z.to_nat i := 1]> (m_ref_bits m)
                   else m_ref_bits m) /\
  m_dirty m' = (if is_W o && is_WB (write_policy cfg)
                then <[Z.to_nat i := 1]> (m_dirty m) else m_dirty m).
Proof.
  unfold touch. intros H.
  inv_bind H as lu Hlu. inv_bind H as rb Hrb. inv_bind H as d Hd.
  inversion H; subst m'; clear H. simpl.
  destruct (is_LRU (alg cfg)), (is_CLOCK (alg cfg)),
    (is_W o && is_WB (write_policy cfg));
    repeat match goal with
    | H : store _ _ _ = Done _ |- _ => apply store_Done in H as [_ ->]
    | H : Done _ = Done _ |- _ => inversion H; subst; clear H
    end; done.
Qed.

(** What [evict] does to the write-back counter and the dirty bits. *)
Lemma evict_cases cfg (t : list TLBEntry) wb (fr d : list Z) victim ev :
  evict cfg t wb fr d victim = Done ev ->
  (ev_write_backs ev = wb /\ ev_dirty ev = d /\
   (write_policy cfg = WP_WRITE_THROUGH \/ load fr victim = Done EMPTY \/
    load d victim = Done 0))
  \/
  (ev_write_backs ev = wb + 1 /\ store d victim 0 = Done (ev_dirty ev) /\
   write_policy cfg = WP_WRITE_BACK /\
   exists old dv, load fr victim = Done old /\ old <> EMPTY /\
                  load d victim = Done dv /\ dv <> 0).
Proof.
  intros H. unfold evict in H. inv_bind H as old Hold.
  destruct (Z.eqb_spec old EMPTY) as [->|Hne].
  { inversion H; subst ev. simpl. left. auto. }
  inv_bind H as t' Ht'. destruct (write_policy cfg) eqn:Hwp; simpl in H.
  { inversion H; subst ev. simpl. left. auto. }
  inv_bind H as dv Hdv. destruct (Z.eqb_spec dv 0) as [->|Hnz].
  { inversion H; subst ev. simpl. left. auto. }
  inv_bind H as d' Hd'. inversion H; subst ev. simpl. right.
  split; [done|]. split; [done|]. split; [done|]. exists old, dv. done.
Qed.

(** ** The tick *)

Lemma step_tick fuel cfg s r s' :
  step fuel cfg s r = Done s' -> tick s' = (tick s + 1) mod ULONG_MOD.
Proof.
  intros H. destruct (is_R (op r) || is_W (op r)) eqn:Hop.
  2:{ unfold step in H. rewrite Hop in H. by inversion H; subst s'. }
  apply step_path in H; [|done].
  destruct H as [t f _ _ H | s2 i Hs2 _ H | s2 Hs2 _ H].
  - unfold tlb_hit in H. inv_bind H as m Hm. by inversion H; subst s'.
  - unfold frame_hit in H. inv_bind H as m Hm. inv_bind H as t Ht.
    inversion H; subst s'. simpl. by destruct Hs2 as [[_ ->] | [_ ->]].
  - unfold page_fault in H.
    inv_bind H as c Hch. inv_bind H as ev Hev. inv_bind H as fr Hfr.
    inv_bind H as m Hm. inv_bind H as t Ht. inversion H; subst s'. simpl.
    by destruct Hs2 as [[_ ->] | [_ ->]].
Qed.

Lemma run_tick fuel cfg (trace : list Access) : forall s s',
  0 <= tick s < ULONG_MOD ->
  run fuel cfg s trace = Done s' ->
  tick s' = (tick s + Z.of_nat (length trace)) mod ULONG_MOD.
Proof.
  induction trace as [|r trace IH]; intros s s' Ht H; simpl in H.
  - inversion H; subst s'. simpl. rewrite Z.add_0_r. symmetry.
    by apply Z.mod_small.
  - inv_bind H as s1 Hs1. apply step_tick in Hs1.
    rewrite (IH s1 s'); [| |done].
    + rewrite Hs1. rewrite Z.add_mod_idemp_l by (unfold ULONG_MOD; lia).
      f_equal. simpl length. lia.
    + rewrite Hs1. apply Z.mod_pos_bound. unfold ULONG_MOD. lia.
Qed.

(** ** LRU *)

(** The choice of a victim reads the frames and the state of the policies. *)
Lemma choose_victim_same fuel cfg s s2 :
  frames s2 = frames s -> frame_last_used s2 = frame_last_used s ->
  ref_bits s2 = ref_bits s -> fifo_index s2 = fifo_index s ->
  clock_hand s2 = clock_hand s ->
  choose_victim fuel cfg s2 = choose_victim fuel cfg s.
Proof. intros E1 E2 E3 E4 E5. unfold choose_victim. by rewrite E1, E2, E3, E4, E5. Qed.

Lemma choose_victim_lru fuel cfg s c :
  alg cfg = ALG_LRU -> inv cfg s ->
  (forall j x, load (frames s) j = Done x -> x <> EMPTY) ->
  choose_victim fuel cfg s = Done c ->
  lowest_min (fun x => x) (frame_last_used s) (num_frames cfg) (ch_victim c).
Proof.
  intros Halg Hinv Hfull H. destruct Hinv. unfold choose_victim in H.
  inv_bind H as e He. destruct e as [i|].
  { apply first_index_Some in He as (_ & (x & Hx & Hp) & _).
    apply Z.eqb_eq in Hp. by destruct (Hfull i x Hx). }
  rewrite Halg in H. inv_bind H as v Hv. inversion H; subst c. simpl.
  assert (Hne : frame_last_used s <> []).
  { intros E. rewrite E in inv_last_used0. simpl in *. lia. }
  apply (min_index_spec _ _ _ _ _ _ (lowest_min_start _ _ Hne)) in Hv.
  by replace (1 + Z.of_nat (Z.to_nat (num_frames cfg - 1)))
    with (num_frames cfg) in Hv by lia.
Qed.

(** Under LRU, a read or a write stamps the frame of its page, and no
    other, with the tick; the page was there, or it is placed in the frame
    that [choose_victim] gives. *)
Lemma step_lru fuel cfg s r s' :
  alg cfg = ALG_LRU -> inv cfg s -> valid_access r ->
  is_R (op r) || is_W (op r) = true ->
  step fuel cfg s r = Done s' ->
  exists f, 0 <= f < num_frames cfg /\
    frame_last_used s' = <[Z.to_nat f := tick s']> (frame_last_used s) /\
    ((load (frames s) f = Done (addr r / PAGE_SIZE) /\ frames s' = frames s) \/
     ((forall j x, load (frames s) j = Done x -> x <> addr r / PAGE_SIZE) /\
      frames s' = <[Z.to_nat f := addr r / PAGE_SIZE]> (frames s) /\
      exists c, choose_victim fuel cfg s = Done c /\ ch_victim c = f)).
Proof.
  intros Halg Hinv Hr Hop H. pose proof (vpn_range _ Hr) as Hv.
  assert (Hi : int_of_uint (addr r / PAGE_SIZE) = addr r / PAGE_SIZE)
    by (apply int_of_uint_small; unfold VPN_LIMIT in Hv; lia).
  apply step_path in H; [|done]. pose proof Hinv as [].
  destruct H as [t f Hpos Hl H | s2 i Hs2 Hh H | s2 Hs2 Hh H].
  - apply tlb_lookup_spec in Hl as (i & e & He & Hm & -> & _).
    apply tlb_match_true in Hm as [Hval Hp].
    destruct (inv_tlb0 i e He Hval) as [_ Hf]. rewrite Hp in Hf.
    apply load_bound in Hf as Hb.
    exists (frame_index e). split; [lia|].
    unfold tlb_hit in H.
    replace ((0 <=? frame_index e) && (frame_index e <? num_frames cfg))
      with true in H
      by (symmetry; apply andb_true_iff; rewrite Z.leb_le, Z.ltb_lt; lia).
    inv_bind H as m Hm. apply touch_Done in Hm as (M1 & _).
    inversion H; subst s'; clear H. simpl in *.
    rewrite Halg in M1. split; [done|]. by left.
  - rewrite Hi in Hh.
    apply first_index_Some in Hh as (Hb & (x & Hx & Hp) & _).
    apply Z.eqb_eq in Hp. subst x.
    exists i. split; [lia|].
    unfold frame_hit in H. inv_bind H as m Hm. inv_bind H as t Ht.
    apply touch_Done in Hm as (M1 & _).
    inversion H; subst s'; clear H. simpl in *. rewrite Halg in M1.
    assert (E : frame_last_used s2 = frame_last_used s /\ frames s2 = frames s)
      by (by destruct Hs2 as [[_ ->] | [_ ->]]).
    destruct E as [E1 E2]. rewrite E1 in M1. rewrite E2.
    split; [done|]. by left.
  - rewrite Hi in Hh.
    assert (Hnew : forall j x, load (frames s) j = Done x -> x <> addr r / PAGE_SIZE).
    { intros j x Hx. apply Z.eqb_neq. apply (first_index_None _ _ _ _ Hh j x); [|done].
      apply load_bound in Hx. lia. }
    unfold page_fault in H.
    inv_bind H as c Hch. inv_bind H as ev Hev. inv_bind H as fr Hfr.
    inv_bind H as m Hm. inv_bind H as t Ht.
    apply touch_Done in Hm as (M1 & _).
    inversion H; subst s'; clear H. simpl in *. rewrite Halg in M1.
    assert (E : frame_last_used s2 = frame_last_used s /\ frames s2 = frames s /\
                choose_victim fuel cfg s2 = choose_victim fuel cfg s).
    { destruct Hs2 as [[_ ->] | [_ ->]]; (split; [done|]; split; [done|]);
        by apply choose_victim_same. }
    destruct E as (E1 & E2 & E3). rewrite E1 in M1. rewrite E2 in Hfr.
    rewrite E3 in Hch. rewrite Hi in Hfr.
    apply (choose_victim_spec _ _ _ _ Hinv) in Hch as Hb.
    apply store_Done in Hfr as [_ ->].
    exists (ch_victim c). split; [lia|]. split; [done|]. right. eauto.
Qed.

Lemma load_insert_eq {A : Type} (a : list A) (i : Z) (x : A) :
  0 <= i < Z.of_nat (length a) -> load (<[Z.to_nat i := x]> a) i = Done x.
Proof. intros H. eapply load_store_eq. by apply store_total. Qed.

Lemma load_insert_ne {A : Type} (a : list A) (i j : Z) (x : A) :
  0 <= i < Z.of_nat (length a) -> j <> i ->
  load (<[Z.to_nat i := x]> a) j = load a j.
Proof. intros H Hne. eapply load_store_ne; [by apply store_total | done]. Qed.

(** ** The access counters *)

Lemma counted_init (cfg : Config) : counted cfg (init cfg).
Proof. unfold counted. simpl. lia. Qed.

Lemma step_counted fuel cfg s r s' :
  step fuel cfg s r = Done s' -> counted cfg s -> counted cfg s'.
Proof.
  intros H (C1 & C2 & C3 & C4). unfold counted.
  destruct (is_R (op r) || is_W (op r)) eqn:Hop.
  2:{ unfold step in H. rewrite Hop in H. by inversion H; subst s'. }
  apply step_path in H; [|done].
  assert (E : reads (entered s r) + writes (entered s r) = reads s + writes s + 1).
  { unfold entered. simpl. destruct (is_R (op r)); lia. }
  destruct H as [t f Hpos _ H | s2 i Hs2 Hh H | s2 Hs2 Hh H].
  - unfold tlb_hit in H. inv_bind H as m Hm. inversion H; subst s'. simpl in *.
    split; [lia|]. split; [lia|]. split; [lia|]. intros _. specialize (C4 Hpos). lia.
  - unfold frame_hit in H. inv_bind H as m Hm. inv_bind H as t Ht.
    inversion H; subst s'. simpl.
    destruct Hs2 as [[Hle ->] | [Hpos ->]]; simpl in *;
      (split; [lia|]; split; [lia|]; split; [lia|]); intros Hp; [lia|].
    specialize (C4 Hp). lia.
  - unfold page_fault in H.
    inv_bind H as c Hch. inv_bind H as ev Hev. inv_bind H as fr Hfr.
    inv_bind H as m Hm. inv_bind H as t Ht. inversion H; subst s'. simpl.
    destruct Hs2 as [[Hle ->] | [Hpos ->]]; simpl in *;
      (split; [lia|]; split; [lia|]; split; [lia|]); intros Hp; [lia|].
    specialize (C4 Hp). lia.
Qed.

Lemma run_counted fuel cfg (trace : list Access) : forall s s',
  run fuel cfg s trace = Done s' -> counted cfg s -> counted cfg s'.
Proof.
  induction trace as [|r trace IH]; intros s s' H Hc; simpl in H.
  - by inversion H; subst.
  - inv_bind H as s1 Hs1. eapply IH; [exact H|]. by eapply step_counted.
Qed.

(** With two frames that hold pages [a] and [b], and the tick two steps
    from wrapping at most: an access to [b], one to [a], then one to a
    third page evict [b]. *)
Lemma lru_two_frames (cfg : Config) fuel trace s ra rb rc :
  valid_config cfg -> alg cfg = ALG_LRU ->
  num_frames cfg = 2 ->
  Forall valid_access trace -> run fuel cfg (init cfg) trace = Done s ->
  Z.of_nat (length trace) + 2 < ULONG_MOD ->
  valid_access ra -> valid_access rb -> valid_access rc ->
  is_R (op ra) || is_W (op ra) = true ->
  is_R (op rb) || is_W (op rb) = true ->
  is_R (op rc) || is_W (op rc) = true ->
  holds (frames s) (page ra) -> holds (frames s) (page rb) ->
  page ra <> page rb -> page rc <> page ra -> page rc <> page rb ->
  exists s1 s2 s3,
    step fuel cfg s rb = Done s1 /\ step fuel cfg s1 ra = Done s2 /\
    step fuel cfg s2 rc = Done s3 /\
    frames s2 = frames s /\
    holds (frames s3) (page ra) /\ holds (frames s3) (page rc) /\
    forall j x, load (frames s3) j = Done x -> x <> page rb.
Proof.
  intros Hc Halg.
  assert (Hfuel : forall fuel : nat,
            alg cfg = ALG_CLOCK -> (Z.to_nat (num_frames cfg) < fuel)%nat)
    by (intros fuel' E; congruence).
  intros Hn Hall Hrun Hlen Hra Hrb Hrc Hoa Hob Hoc
    [ia Hia] [ib Hib] Hab Hca Hcb.
  assert (Hinv : inv cfg s) by (apply reachable_inv; [done|]; by exists fuel, trace).
  assert (Ht : tick s = Z.of_nat (length trace)).
  { rewrite (run_tick fuel cfg trace (init cfg) s); [|simpl; unfold ULONG_MOD; lia|done].
    simpl. apply Z.mod_small. lia. }
  destruct (step_total fuel cfg s rb Hinv (Hfuel fuel)) as [s1 Hs1].
  pose proof (step_inv _ _ _ _ _ Hinv Hrb Hs1) as Hinv1.
  destruct (step_total fuel cfg s1 ra Hinv1 (Hfuel fuel)) as [s2 Hs2].
  pose proof (step_inv _ _ _ _ _ Hinv1 Hra Hs2) as Hinv2.
  destruct (step_total fuel cfg s2 rc Hinv2 (Hfuel fuel)) as [s3 Hs3].
  exists s1, s2, s3. split; [done|]. split; [done|]. split; [done|].
  pose proof (step_tick _ _ _ _ _ Hs1) as T1.
  pose proof (step_tick _ _ _ _ _ Hs2) as T2.
  rewrite Z.mod_small in T1 by lia. rewrite T1, Z.mod_small in T2 by lia.
  destruct (step_lru _ _ _ _ _ Halg Hinv Hrb Hob Hs1)
    as (f1 & Hf1 & L1 & [[F1 E1] | (N1 & _)]);
    [|by destruct (N1 ib _ Hib)].
  destruct (step_lru _ _ _ _ _ Halg Hinv1 Hra Hoa Hs2)
    as (f2 & Hf2 & L2 & [[F2 E2] | (N2 & _)]);
    [|rewrite E1 in N2; by destruct (N2 ia _ Hia)].
  rewrite E1 in F2, E2. fold (page ra) in F2. fold (page rb) in F1.
  assert (Hne : f1 <> f2) by (intros ->; congruence).
  split; [done|].
  destruct (step_lru _ _ _ _ _ Halg Hinv2 Hrc Hoc Hs3)
    as (f3 & Hf3 & L3 & [[F3 E3] | (N3 & E3 & c & Hch & Hvic)]).
  { exfalso. rewrite E2 in F3. fold (page rc) in F3.
    assert (f3 = f1 \/ f3 = f2) as [-> | ->] by lia; congruence. }
  fold (page rc) in E3. rewrite E2 in E3.
  assert (Hfull : forall j x, load (frames s2) j = Done x -> x <> EMPTY).
  { rewrite E2. intros j x Hx. apply load_bound in Hx as Hj.
    destruct Hinv. rewrite inv_frames0, Hn in Hj.
    pose proof (vpn_range _ Hra). pose proof (vpn_range _ Hrb).
    unfold VPN_LIMIT, EMPTY, page in *.
    assert (j = f1 \/ j = f2) as [-> | ->] by lia;
      [assert (x = addr rb / PAGE_SIZE) by congruence
      |assert (x = addr ra / PAGE_SIZE) by congruence]; lia. }
  destruct (choose_victim_lru _ _ _ _ Halg Hinv2 Hfull Hch)
    as (_ & y & Hy & Hmin).
  destruct Hinv.
  assert (B1 : 0 <= f1 < Z.of_nat (length (frame_last_used s))) by lia.
  assert (B2 : 0 <= f2 < Z.of_nat (length (frame_last_used s1)))
    by (rewrite L1, length_insert; lia).
  assert (V1 : load (frame_last_used s2) f1 = Done (tick s + 1)).
  { rewrite L2, load_insert_ne by done. rewrite L1, T1. by apply load_insert_eq. }
  assert (V2 : load (frame_last_used s2) f2 = Done (tick s + 1 + 1)).
  { rewrite L2, T2. by apply load_insert_eq. }
  assert (Hf31 : f3 = f1).
  { assert (f3 = f1 \/ f3 = f2) as [-> | ->] by lia; [done|].
    rewrite Hvic, V2 in Hy. inversion Hy; subst y.
    destruct (Hmin f1 _ ltac:(lia) V1). lia. }
  rewrite E3, Hf31.
  assert (B3 : 0 <= f1 < Z.of_nat (length (frames s))) by lia.
  split; [|split].
  + exists f2. by rewrite load_insert_ne.
  + exists f1. by apply load_insert_eq.
  + intros j x Hx. apply load_bound in Hx as Hj. rewrite length_insert in Hj.
    destruct (Z.eq_dec j f1) as [-> | Hj1].
    * rewrite load_insert_eq in Hx by done. congruence.
    * rewrite load_insert_ne in Hx by done.
      assert (j = f2) as -> by lia. congruence.
Qed.

(** A fault with an empty frame takes an empty frame. *)
Lemma choose_victim_empty fuel cfg s c j :
  inv cfg s -> load (frames s) j = Done EMPTY ->
  choose_victim fuel cfg s = Done c ->
  load (frames s) (ch_victim c) = Done EMPTY.
Proof.
  intros Hinv Hj H. unfold choose_victim in H. inv_bind H as e He.
  destruct e as [i|].
  - inversion H; subst c. simpl.
    apply first_index_Some in He as (_ & (x & Hx & Hp) & _).
    apply Z.eqb_eq in Hp. by subst x.
  - apply load_bound in Hj as Hb. destruct Hinv.
    assert (Hp : (EMPTY =? EMPTY) = false)
      by (apply (first_index_None _ _ _ _ He j EMPTY); [lia | done]).
    by rewrite Z.eqb_refl in Hp.
Qed.

(** From the start, with two frames, accesses to two pages leave both in
    the frames. *)
Lemma lru_first_two (cfg : Config) fuel ra rb :
  valid_config cfg -> alg cfg = ALG_LRU -> num_frames cfg = 2 ->
  valid_access ra -> valid_access rb ->
  is_R (op ra) || is_W (op ra) = true ->
  is_R (op rb) || is_W (op rb) = true ->
  page ra <> page rb ->
  exists s, run fuel cfg (init cfg) [ra; rb] = Done s /\
    holds (frames s) (page ra) /\ holds (frames s) (page rb).
Proof.
  intros Hc Halg Hn Hra Hrb Hoa Hob Hab.
  assert (Hfuel : alg cfg = ALG_CLOCK -> (Z.to_nat (num_frames cfg) < fuel)%nat)
    by (intros E; congruence).
  pose proof (inv_init cfg Hc) as Hinv0.
  destruct (step_total fuel cfg (init cfg) ra Hinv0 Hfuel) as [s1 Hs1].
  pose proof (step_inv _ _ _ _ _ Hinv0 Hra Hs1) as Hinv1.
  destruct (step_total fuel cfg s1 rb Hinv1 Hfuel) as [s2 Hs2].
  exists s2. split; [simpl; rewrite Hs1; simpl; by rewrite Hs2|].
  pose proof (vpn_range _ Hra) as Va. pose proof (vpn_range _ Hrb) as Vb.
  fold (page ra) in Va. fold (page rb) in Vb. unfold VPN_LIMIT in Va, Vb.
  destruct (step_lru _ _ _ _ _ Halg Hinv0 Hra Hoa Hs1)
    as (f1 & Hf1 & _ & [[F1 _] | (_ & E1 & _)]).
  { simpl in F1. apply load_replicate in F1. fold (page ra) in F1.
    unfold EMPTY in F1. lia. }
  fold (page ra) in E1. simpl in E1.
  assert (B1 : 0 <= f1 < Z.of_nat (length (replicate (Z.to_nat (num_frames cfg)) EMPTY)))
    by (rewrite length_replicate; lia).
  assert (Hold : forall j x, load (frames s1) j = Done x -> x = page ra \/ x = EMPTY).
  { rewrite E1. intros j x Hx. destruct (Z.eq_dec j f1) as [-> | Hj].
    - rewrite load_insert_eq in Hx by done. left. congruence.
    - rewrite load_insert_ne in Hx by done. right. by eapply load_replicate. }
  destruct (step_lru _ _ _ _ _ Halg Hinv1 Hrb Hob Hs2)
    as (f2 & Hf2 & _ & [[F2 _] | (_ & E2 & c & Hch & Hvic)]).
  { fold (page rb) in F2. destruct (Hold _ _ F2) as [E | E];
      [congruence | unfold EMPTY in E; lia]. }
  fold (page rb) in E2.
  assert (He : exists j, load (frames s1) j = Done EMPTY).
  { exists (1 - f1). rewrite E1, load_insert_ne by (done || lia).
    destruct (load_total (replicate (Z.to_nat (num_frames cfg)) EMPTY) (1 - f1))
      as [x Hx]; [rewrite length_replicate; lia|].
    rewrite Hx. f_equal. by eapply load_replicate. }
  destruct He as [j Hj].
  pose proof (choose_victim_empty _ _ _ _ _ Hinv1 Hj Hch) as Hv. rewrite Hvic in Hv.
  assert (Hne : f1 <> f2).
  { intros ->. rewrite E1, load_insert_eq in Hv by done.
    inversion Hv. unfold EMPTY in *. lia. }
  assert (B2 : 0 <= f2 < Z.of_nat (length (frames s1))).
  { rewrite E1, length_insert, length_replicate. lia. }
  rewrite E2. split.
  - exists f1. rewrite load_insert_ne by done. rewrite E1. by apply load_insert_eq.
  - exists f2. by apply load_insert_eq.
Qed.

(** From the start, with two frames: pages [a] and [b] come in, [b] is
    touched, then [a], and a third page evicts [b]. *)
Lemma lru_fresh_scenario (cfg : Config) fuel ra rb rc :
  valid_config cfg -> alg cfg = ALG_LRU -> num_frames cfg = 2 ->
  valid_access ra -> valid_access rb -> valid_access rc ->
  is_R (op ra) || is_W (op ra) = true ->
  is_R (op rb) || is_W (op rb) = true ->
  is_R (op rc) || is_W (op rc) = true ->
  page ra <> page rb -> page rc <> page ra -> page rc <> page rb ->
  exists s, run fuel cfg (init cfg) [ra; rb; rb; ra; rc] = Done s /\
    holds (frames s) (page ra) /\ holds (frames s) (page rc) /\
    forall j x, load (frames s) j = Done x -> x <> page rb.
Proof.
  intros Hc Halg Hn Hra Hrb Hrc Hoa Hob Hoc Hab Hca Hcb.
  destruct (lru_first_two cfg fuel ra rb) as (s0 & Hrun & Ha & Hb); try done.
  destruct (lru_two_frames cfg fuel [ra; rb] s0 ra rb rc)
    as (s1 & s2 & s3 & H1 & H2 & H3 & _ & Ra & Rc & Rb); try done.
  { apply List.Forall_cons; [done|]. apply List.Forall_cons; [done|].
    apply List.Forall_nil. }
  exists s3. split; [|done].
  simpl in Hrun. inv_bind Hrun as sa Hsa. inv_bind Hrun as sb Hsb.
  inversion Hrun; subst sb. simpl.
  rewrite Hsa. simpl. rewrite Hsb. simpl. rewrite H1. simpl. rewrite H2. simpl.
  by rewrite H3.
Qed.

(** ** One access, field by field *)

Lemma entered_fields (s : State) (r : Access) :
  frames (entered s r) = frames s /\
  frame_last_used (entered s r) = frame_last_used s /\
  ref_bits (entered s r) = ref_bits s /\ dirty (entered s r) = dirty s /\
  fifo_index (entered s r) = fifo_index s /\
  clock_hand (entered s r) = clock_hand s /\
  tlb (entered s r) = tlb s /\ write_backs (entered s r) = write_backs s /\
  page_faults (entered s r) = page_faults s /\
  tick (entered s r) = (tick s + 1) mod ULONG_MOD.
Proof. unfold entered. simpl. repeat split. Qed.

Lemma step_accessed fuel cfg s r s' :
  inv cfg s -> valid_access r -> is_R (op r) || is_W (op r) = true ->
  step fuel cfg s r = Done s' ->
  counted_op s r s' /\
  exists f, 0 <= f < num_frames cfg /\
    load (frames s') f = Done (page r) /\ accessed fuel cfg s r s' f.
Proof.
  intros Hinv Hr Hop H. pose proof (vpn_range _ Hr) as Hv.
  assert (Hi : int_of_uint (addr r / PAGE_SIZE) = addr r / PAGE_SIZE)
    by (apply int_of_uint_small; unfold VPN_LIMIT in Hv; lia).
  apply step_path in H; [|done]. pose proof Hinv as [].
  unfold counted_op, page.
  destruct H as [t f Hpos Hl H | s2 i Hs2 Hh H | s2 Hs2 Hh H].
  - apply tlb_lookup_spec in Hl as (i & e & He & Hm & -> & _).
    apply tlb_match_true in Hm as [Hval Hp].
    destruct (inv_tlb0 i e He Hval) as [_ Hf]. rewrite Hp in Hf.
    apply load_bound in Hf as Hb.
    unfold tlb_hit in H.
    replace ((0 <=? frame_index e) && (frame_index e <? num_frames cfg))
      with true in H
      by (symmetry; apply andb_true_iff; rewrite Z.leb_le, Z.ltb_lt; lia).
    inv_bind H as m Hm. apply touch_Done in Hm as (M1 & M2 & M3).
    inversion H; subst s'; clear H. simpl in *.
    split; [done|]. exists (frame_index e). split; [lia|]. split; [done|].
    apply accessed_hit; try done.
  - rewrite Hi in Hh.
    apply first_index_Some in Hh as (Hb & (x & Hx & Hp) & _).
    apply Z.eqb_eq in Hp. subst x.
    unfold frame_hit in H. inv_bind H as m Hm. inv_bind H as t Ht.
    apply touch_Done in Hm as (M1 & M2 & M3).
    inversion H; subst s'; clear H. simpl in *.
    split; [by destruct Hs2 as [[_ ->] | [_ ->]]|].
    exists i. split; [lia|].
    assert (E : frames s2 = frames s /\ frame_last_used s2 = frame_last_used s /\
                ref_bits s2 = ref_bits s /\ dirty s2 = dirty s /\
                fifo_index s2 = fifo_index s /\ clock_hand s2 = clock_hand s /\
                write_backs s2 = write_backs s /\ page_faults s2 = page_faults s)
      by (by destruct Hs2 as [[_ ->] | [_ ->]]).
    destruct E as (E1 & E2 & E3 & E4 & E5 & E6 & E7 & E8).
    rewrite E1. split; [done|].
    apply accessed_hit; simpl; try done.
    unfold touched. simpl. by rewrite M1, M2, M3, E2, E3, E4.
  - rewrite Hi in Hh.
    assert (Hnew : forall j x, load (frames s) j = Done x -> x <> addr r / PAGE_SIZE).
    { intros j x Hx. apply Z.eqb_neq. apply (first_index_None _ _ _ _ Hh j x); [|done].
      apply load_bound in Hx. lia. }
    unfold page_fault in H.
    inv_bind H as c Hch. inv_bind H as ev Hev. inv_bind H as fr Hfr.
    inv_bind H as m Hm. inv_bind H as t Ht.
    apply touch_Done in Hm as (M1 & M2 & M3).
    inversion H; subst s'; clear H. simpl in *.
    split; [by destruct Hs2 as [[_ ->] | [_ ->]]|].
    assert (E : frames s2 = frames s /\ frame_last_used s2 = frame_last_used s /\
                dirty s2 = dirty s /\ tlb s2 = tlb s /\
                write_backs s2 = write_backs s /\ page_faults s2 = page_faults s /\
                choose_victim fuel cfg s2 = choose_victim fuel cfg s).
    { destruct Hs2 as [[_ ->] | [_ ->]]; repeat (split; [done|]);
        by apply choose_victim_same. }
    destruct E as (E1 & E2 & E3 & E4 & E5 & E6 & E7).
    rewrite E1, E3, E4, E5 in Hev. rewrite E1 in Hfr. rewrite E7 in Hch.
    rewrite Hi in Hfr.
    apply (choose_victim_spec _ _ _ _ Hinv) in Hch as Hb.
    apply store_Done in Hfr as [Hbf ->].
    exists (ch_victim c). split; [lia|].
    split; [by apply load_insert_eq|].
    eapply accessed_fault; simpl; try done; try lia.
    unfold touched. simpl. by rewrite M1, M2, M3, E2.
Qed.

Lemma step_skip fuel cfg s r s' :
  is_R (op r) || is_W (op r) = false ->
  step fuel cfg s r = Done s' ->
  s' = with_tick s ((tick s + 1) mod ULONG_MOD).
Proof. intros Hop H. unfold step in H. rewrite Hop in H. by inversion H. Qed.

Lemma load_insert_other {A : Type} (a : list A) (f i : Z) (x : A) :
  0 <= f -> i <> f -> load (<[Z.to_nat f := x]> a) i = load a i.
Proof.
  intros Hf Hne. destruct (Z.lt_ge_cases f (Z.of_nat (length a))) as [Hlt|Hge].
  - apply load_insert_ne; [lia | done].
  - rewrite list_insert_ge by lia. done.
Qed.

(** * The claims *)

(** C1. A trace of 32-bit addresses runs to its end, given more fuel than
    frames.  After every record of it, each valid entry of the translation
    cache names a frame whose occupant is the entry's page; and when the
    page of a victim frame leaves, the invalidation that precedes the
    placement leaves no valid entry for that page, nor one that names the
    victim frame. *)
Theorem tlb_consistency (cfg : Config) (trace : list Access) :
  valid_config cfg -> Forall valid_access trace ->
  (forall fuel, (Z.to_nat (num_frames cfg) < fuel)%nat ->
     exists s, run fuel cfg (init cfg) trace = Done s) /\
  (forall fuel s,
     run fuel cfg (init cfg) trace = Done s ->
     tlb_consistent (frames s) (tlb s) /\
     forall victim old ev,
       load (frames s) victim = Done old -> old <> EMPTY ->
       evict cfg (tlb s) (write_backs s) (frames s) (dirty s) victim = Done ev ->
       forall k e, load (ev_tlb ev) k = Done e -> valid e <> 0 ->
         vpn e <> uint_of_int old /\ frame_index e <> victim).
Proof.
  intros Hc Hall. split.
  { intros fuel Hf. apply run_total; [by apply inv_init | done | done]. }
  intros fuel s Hrun.
  assert (Hinv : inv cfg s) by (apply reachable_inv; [done|]; by exists fuel, trace).
  destruct Hinv. split; [done|].
  intros victim old ev Hold Hne Hev k e He Hval.
  apply evict_spec in Hev as (_ & _ & Hev & _); try done.
  destruct (Hev k e He Hval) as [Hl Hf]. split; [|done].
  rewrite (occupant_uint old) by eauto.
  intros Heq. apply Hf.
  destruct (inv_tlb0 k e Hl Hval) as [_ Hfr]. rewrite Heq in Hfr.
  by apply (inv_no_duplicate0 (frame_index e) victim old).
Qed.

Lemma tlb_consistency_witness :
  tlb_consistent (frames (state_after 3 lru_wb_2_2 sample_trace))
                 (tlb (state_after 3 lru_wb_2_2 sample_trace)).
Proof.
  refine (proj1 (proj2 (tlb_consistency lru_wb_2_2 sample_trace _ sample_trace_valid)
                   3%nat _ _)).
  - unfold valid_config. simpl. lia.
  - vm_compute. reflexivity.
Defined.

(** C2. A trace of 32-bit addresses runs to its end, given more fuel than
    frames.  After every record of it, under every policy, no page is in
    two frames, and the resident pages are distinct and no more than
    [num_frames]. *)
Theorem no_duplicate_residency (cfg : Config) (trace : list Access) :
  valid_config cfg -> Forall valid_access trace ->
  (forall fuel, (Z.to_nat (num_frames cfg) < fuel)%nat ->
     exists s, run fuel cfg (init cfg) trace = Done s) /\
  (forall fuel s,
     run fuel cfg (init cfg) trace = Done s ->
     no_duplicate (frames s) /\
     Z.of_nat (length (frames s)) = num_frames cfg /\
     NoDup (resident (frames s)) /\
     Z.of_nat (length (resident (frames s))) <= num_frames cfg).
Proof.
  intros Hc Hall. split.
  { intros fuel Hf. apply run_total; [by apply inv_init | done | done]. }
  intros fuel s Hrun.
  assert (Hinv : inv cfg s) by (apply reachable_inv; [done|]; by exists fuel, trace).
  destruct Hinv. split; [done|]. split; [done|].
  split; [by apply no_duplicate_resident|].
  pose proof (length_filter (fun x => x <> EMPTY) (frames s)) as Hle.
  unfold resident. lia.
Qed.

Lemma no_duplicate_residency_witness :
  NoDup (resident (frames (state_after 4 clock_wb_1_3 sample_trace))) /\
  Z.of_nat (length (resident (frames (state_after 4 clock_wb_1_3 sample_trace)))) <= 3.
Proof.
  refine (proj2 (proj2 (proj2
    (no_duplicate_residency clock_wb_1_3 sample_trace _ sample_trace_valid)
    4%nat _ _))).
  - unfold valid_config. simpl. lia.
  - vm_compute. reflexivity.
Defined.

(** C3. In every state the simulation can reach, the CLOCK scan ends as
    soon as it has more fuel than frames: it selects a frame after looking
    at no more than [num_frames + 1] frames, hence no more than
    [2 * num_frames]; more fuel does not change the result.  When every
    reference bit is set, it looks at exactly [num_frames + 1] frames: one
    sweep that clears every bit, then the frame under the hand at the
    start, which it selects. *)
Theorem clock_termination (cfg : Config) (s : State) (fuel : nat) :
  valid_config cfg -> reachable cfg s ->
  (Z.to_nat (num_frames cfg) < fuel)%nat ->
  exists c,
    clock_scan fuel (ref_bits s) (clock_hand s) (num_frames cfg) 0 = Done c /\
    (forall fuel', (fuel <= fuel')%nat ->
       clock_scan fuel' (ref_bits s) (clock_hand s) (num_frames cfg) 0 = Done c) /\
    0 <= cs_victim c < num_frames cfg /\
    Z.of_nat (cs_visits c) <= num_frames cfg + 1 /\
    Z.of_nat (cs_visits c) <= 2 * num_frames cfg /\
    ((forall j b, load (ref_bits s) j = Done b -> b <> 0) ->
       Z.of_nat (cs_visits c) = num_frames cfg + 1 /\
       cs_victim c = clock_hand s /\
       forall j b, load (cs_ref_bits c) j = Done b -> b = 0).
Proof.
  intros Hc Hreach Hf. unfold valid_config in Hc.
  destruct (reachable_inv cfg s Hc Hreach).
  pose proof (set_bits_le (ref_bits s)) as Hle.
  destruct (clock_scan_ends (num_frames cfg) fuel (ref_bits s) (clock_hand s) 0)
    as (c & Hrun & Hv & _ & Hvic & _); [lia..|].
  exists c. split; [done|].
  split; [intros fuel' Hge; by eapply clock_scan_fuel|].
  split; [done|]. split; [lia|]. split; [lia|].
  intros Hall.
  destruct (clock_scan_sweep (num_frames cfg) (Z.to_nat (num_frames cfg)) fuel
              (ref_bits s) (clock_hand s) 0) as (c' & Hrun' & Hv1 & Hv2 & _ & Hz);
    [lia | lia | lia | | lia |].
  - intros j b Hb. split; [intros _ | intros _; by eapply Hall].
    apply load_bound in Hb. unfold ahead.
    destruct (Z.leb_spec (clock_hand s) j); lia.
  - assert (c' = c) as -> by congruence.
    split; [lia|]. split; [|done].
    rewrite Hv1, Z2Nat.id by lia.
    rewrite <- (Z.mul_1_l (num_frames cfg)) at 1.
    rewrite Z.mod_add by lia. apply Z.mod_small. lia.
Qed.

Lemma clock_termination_witness :
  exists c,
    clock_scan 4 (ref_bits (state_after 4 clock_wb_1_3 [R 0; R 4096; R 8192]))
               (clock_hand (state_after 4 clock_wb_1_3 [R 0; R 4096; R 8192])) 3 0
      = Done c /\
    cs_visits c = 4%nat /\ cs_victim c = 0.
Proof.
  destruct (clock_termination clock_wb_1_3
              (state_after 4 clock_wb_1_3 [R 0; R 4096; R 8192]) 4)
    as (c & Hrun & _ & _ & _ & _ & Hall).
  - unfold valid_config. simpl. lia.
  - exists 4%nat, [R 0; R 4096; R 8192]. split.
    + repeat constructor; unfold valid_access, UINT_MOD; simpl; lia.
    + vm_compute. reflexivity.
  - simpl. lia.
  - exists c. split; [exact Hrun|].
    destruct Hall as (Hv & Hvic & _).
    + assert (E : ref_bits (state_after 4 clock_wb_1_3 [R 0; R 4096; R 8192])
                  = [1; 1; 1]) by (vm_compute; reflexivity).
      rewrite E. intros j b Hb. apply load_Done in Hb as [Hj Hb].
      destruct (Z.to_nat j) as [|[|[|k]]]; simpl in Hb; inversion Hb; lia.
    + split; [|exact Hvic]. simpl in Hv. lia.
Defined.

(** C4. In a reachable state, a read or a write of a page that is in no
    frame takes the frame of a victim and counts one fault.  Under
    write-back, when the victim held a page and its dirty bit was set, the
    write-back counter goes up by exactly one and the bit is cleared, to
    be set again only when the access is a write, for the page that came
    in; when the policy is write-through, or the frame was empty, or the
    bit was clear, the counter stays.  No other dirty bit changes.  A
    record that is no fault, a write that hits among them, and a record
    that is skipped leave the counter alone: nothing is counted at write
    time.  The eviction by itself adds one and clears the victim's bit,
    and no other.  Under write-through the counter stays 0 and no dirty bit
    is ever set. *)
Theorem write_back_accounting (cfg : Config) :
  valid_config cfg ->
  (forall fuel s r s',
     reachable cfg s -> valid_access r ->
     is_R (op r) || is_W (op r) = true ->
     (forall j x, load (frames s) j = Done x -> x <> page r) ->
     step fuel cfg s r = Done s' ->
     exists victim old dv,
       load (frames s) victim = Done old /\
       load (dirty s) victim = Done dv /\
       load (frames s') victim = Done (page r) /\
       page_faults s' = page_faults s + 1 /\
       (write_policy cfg = WP_WRITE_BACK -> old <> EMPTY -> dv <> 0 ->
          write_backs s' = write_backs s + 1 /\
          load (dirty s') victim = Done (if is_W (op r) then 1 else 0)) /\
       (write_policy cfg = WP_WRITE_THROUGH \/ old = EMPTY \/ dv = 0 ->
          write_backs s' = write_backs s) /\
       (forall j, j <> victim -> load (dirty s') j = load (dirty s) j)) /\
  (forall fuel s r s',
     reachable cfg s -> valid_access r ->
     is_R (op r) || is_W (op r) = false \/ holds (frames s) (page r) ->
     step fuel cfg s r = Done s' ->
     write_backs s' = write_backs s /\ page_faults s' = page_faults s) /\
  (forall s victim old dv,
     reachable cfg s -> write_policy cfg = WP_WRITE_BACK ->
     load (frames s) victim = Done old -> old <> EMPTY ->
     load (dirty s) victim = Done dv -> dv <> 0 ->
     exists ev,
       evict cfg (tlb s) (write_backs s) (frames s) (dirty s) victim = Done ev /\
       ev_write_backs ev = write_backs s + 1 /\
       load (ev_dirty ev) victim = Done 0 /\
       forall j, j <> victim -> load (ev_dirty ev) j = load (dirty s) j) /\
  (forall fuel trace s,
     write_policy cfg = WP_WRITE_THROUGH -> Forall valid_access trace ->
     run fuel cfg (init cfg) trace = Done s ->
     write_backs s = 0 /\ forall i d, load (dirty s) i = Done d -> d = 0).
Proof.
  intros Hc. split; [|split; [|split]].
  - intros fuel s r s' Hreach Hr Hop Hnew H.
    pose proof (reachable_inv cfg s Hc Hreach) as Hinv.
    destruct (step_accessed _ _ _ _ _ Hinv Hr Hop H) as (_ & f & Hf & Hl & Hacc).
    pose proof Hinv as [].
    destruct Hacc as [Hhit _ _ _ _ _ _
                     | c ev _ _ _ Hev _ Hpf Hwb _ _ (_ & _ & T3)].
    { exfalso. by apply (Hnew f (page r)). }
    destruct (load_total (frames s) f) as [old Hold]; [lia|].
    destruct (load_total (dirty s) f) as [dv Hdv]; [lia|].
    exists f, old, dv. split; [done|]. split; [done|]. split; [done|].
    split; [done|]. rewrite Hwb, T3.
    apply evict_cases in Hev
      as [(Hw & Hd & Hcase) | (Hw & Hs & Hpol & old' & dv' & Ho & Hne & Hd & Hnz)].
    + rewrite Hw, Hd. split; [|split; [done|]].
      * intros Hpol Hoe Hdz. exfalso.
        destruct Hcase as [Hwt | [He | Hz]]; congruence.
      * intros j Hj. destruct (is_W (op r) && is_WB (write_policy cfg)); [|done].
        apply load_insert_other; [lia | done].
    + rewrite Hw. apply store_length in Hs as Hlen.
      split; [|split].
      * intros _ _ _. split; [done|]. rewrite Hpol. simpl. rewrite andb_true_r.
        destruct (is_W (op r)).
        -- apply load_insert_eq. lia.
        -- by eapply load_store_eq.
      * intros [Hwt | [He | Hz]]; congruence.
      * intros j Hj. rewrite <- (load_store_ne _ _ _ _ _ Hs Hj).
        destruct (is_W (op r) && is_WB (write_policy cfg)); [|done].
        apply load_insert_other; [lia | done].
  - intros fuel s r s' Hreach Hr Hcase H.
    destruct (is_R (op r) || is_W (op r)) eqn:Hop.
    2:{ apply step_skip in H; [|done]. by subst s'. }
    destruct Hcase as [Hcase | (i & Hi)]; [discriminate Hcase|].
    pose proof (reachable_inv cfg s Hc Hreach) as Hinv.
    destruct (step_accessed _ _ _ _ _ Hinv Hr Hop H) as (_ & f & _ & _ & Hacc).
    destruct Hacc as [_ _ Hpf Hwb _ _ _ | c ev Hnew _ _ _ _ _ _ _ _ _]; [done|].
    exfalso. by apply (Hnew i (page r)).
  - intros s victim old dv Hreach Hwb Hold Hne Hdv Hnz.
    destruct (reachable_inv cfg s Hc Hreach).
    destruct (evict_total cfg (tlb s) (write_backs s) (frames s) (dirty s) victim)
      as [ev Hev]; [done | done | by eapply load_bound |].
    exists ev. split; [done|].
    apply evict_cases in Hev
      as [(_ & _ & [Hwt | [He | Hz]]) | (Hw & Hs & _)]; try congruence.
    split; [done|]. split; [by eapply load_store_eq|].
    intros j Hj. by eapply load_store_ne.
  - intros fuel trace s Hwt Hall Hrun.
    destruct (reachable_inv cfg s Hc) as [? ? ? ? ? ? ? ? ? ? Hw];
      [by exists fuel, trace|].
    apply Hw. by rewrite Hwt.
Qed.

Lemma write_back_accounting_witness :
  exists s' victim,
    step 3 lru_wb_2_2 (state_after 3 lru_wb_2_2 [W 0; W 4096]) (R 8192) = Done s' /\
    load (frames s') victim = Done 2 /\
    write_backs s' = write_backs (state_after 3 lru_wb_2_2 [W 0; W 4096]) + 1 /\
    load (dirty s') victim = Done 0.
Proof.
  assert (Hc : valid_config lru_wb_2_2) by (unfold valid_config; simpl; lia).
  assert (Hs : exists s', step 3 lru_wb_2_2 (state_after 3 lru_wb_2_2 [W 0; W 4096])
                            (R 8192) = Done s')
    by (eexists; vm_compute; reflexivity).
  destruct Hs as (s' & Hs).
  assert (Ef : frames (state_after 3 lru_wb_2_2 [W 0; W 4096]) = [0; 1])
    by (vm_compute; reflexivity).
  assert (Ed : dirty (state_after 3 lru_wb_2_2 [W 0; W 4096]) = [1; 1])
    by (vm_compute; reflexivity).
  destruct (proj1 (write_back_accounting lru_wb_2_2 Hc)
              3%nat (state_after 3 lru_wb_2_2 [W 0; W 4096]) (R 8192) s')
    as (victim & old & dv & Hold & Hdv & Hnew & _ & Hwb & _).
  - exists 3%nat, [W 0; W 4096]. split; [|vm_compute; reflexivity].
    repeat constructor; unfold valid_access, UINT_MOD; simpl; lia.
  - unfold valid_access, UINT_MOD. simpl. lia.
  - reflexivity.
  - rewrite Ef. intros j x Hx. apply load_Done in Hx as [Hj Hx].
    change (page (R 8192)) with 2.
    destruct (Z.to_nat j) as [|[|k]]; simpl in Hx; inversion Hx; lia.
  - exact Hs.
  - exists s', victim. split; [exact Hs|]. split; [exact Hnew|].
    rewrite Ef in Hold. rewrite Ed in Hdv.
    apply load_Done in Hold as [Hj Hold]. apply load_Done in Hdv as [_ Hdv].
    apply Hwb.
    + reflexivity.
    + destruct (Z.to_nat victim) as [|[|k]]; simpl in Hold; inversion Hold;
        unfold EMPTY; lia.
    + destruct (Z.to_nat victim) as [|[|k]]; simpl in Hdv; inversion Hdv; lia.
Defined.

(** C5, as the claim states it: a record that is neither a read nor a
    write leaves the whole state as it was.  It fails: the tick has moved. *)
Lemma skip_moves_the_tick :
  is_R (op (mkAccess "X" 0)) = false /\
  is_W (op (mkAccess "X" 0)) = false /\
  (exists s', step 0 fifo_wt_0_2 (init fifo_wt_0_2) (mkAccess "X" 0) = Done s' /\
              tick (init fifo_wt_0_2) = 0 /\ tick s' = 1) /\
  step 0 fifo_wt_0_2 (init fifo_wt_0_2) (mkAccess "X" 0) <> Done (init fifo_wt_0_2).
Proof.
  split; [reflexivity|]. split; [reflexivity|]. split.
  - eexists. split; [vm_compute; reflexivity|]. split; reflexivity.
  - vm_compute. intros H. discriminate H.
Qed.

(** C5, amended. A record that is neither a read nor a write raises no
    error and leaves the counters, the frames and their metadata, the
    policy indices and the translation cache as they were; the tick is one
    more (modulo 2^64). *)
Theorem skip_unknown_op (fuel : nat) (cfg : Config) (s : State) (r : Access) :
  is_R (op r) = false -> is_W (op r) = false ->
  exists s', step fuel cfg s r = Done s' /\
    reads s' = reads s /\ writes s' = writes s /\
    page_faults s' = page_faults s /\
    tlb_hits s' = tlb_hits s /\ tlb_misses s' = tlb_misses s /\
    write_backs s' = write_backs s /\
    frames s' = frames s /\ frame_last_used s' = frame_last_used s /\
    ref_bits s' = ref_bits s /\ dirty s' = dirty s /\
    fifo_index s' = fifo_index s /\ clock_hand s' = clock_hand s /\
    tlb s' = tlb s /\
    tick s' = (tick s + 1) mod ULONG_MOD.
Proof.
  intros Hr Hw. unfold step. rewrite Hr, Hw. simpl.
  eexists. split; [reflexivity|]. simpl. repeat split.
Qed.

Lemma skip_unknown_op_witness :
  exists s', step 0 lru_wb_2_2 (state_after 3 lru_wb_2_2 sample_trace)
               (mkAccess "x" 4096) = Done s' /\
    frames s' = frames (state_after 3 lru_wb_2_2 sample_trace) /\
    tick s' = 9.
Proof.
  destruct (skip_unknown_op 0 lru_wb_2_2 (state_after 3 lru_wb_2_2 sample_trace)
              (mkAccess "x" 4096))
    as (s' & Hs & _ & _ & _ & _ & _ & _ & Hf & _ & _ & _ & _ & _ & _ & Ht).
  - reflexivity.
  - reflexivity.
  - exists s'. split; [exact Hs|]. split; [exact Hf|].
    rewrite Ht. vm_compute. reflexivity.
Defined.

(** C6. The two sums of the report, [reads + writes] and
    [tlb_hits + tlb_misses], are sums of [int]s; for every state in which
    both fit an [int]: the report has a TLB hit rate and an AMAT exactly
    when the TLB is on and [tlb_hits + tlb_misses > 0]; they are then
    [tlb_hits / (tlb_hits + tlb_misses)] and
    [rate * 1.0 + (1 - rate) * 100.0 + fault_rate * 10000000.0], where the
    fault rate counts as 0 when there is none.  It has a fault rate and a
    hit rate exactly when [reads + writes > 0], and its total is
    [reads + writes].  Every divisor it uses is positive.  With 8 hits,
    2 misses, 1 fault and 10 accesses the AMAT is the [double] 1000020.8.
    At the end of a run with the TLB on, [tlb_hits + tlb_misses] is the
    number of lookups, one for each read or write. *)
Theorem amat_and_rates (cfg : Config) (s : State) :
  fits_int (reads s + writes s) ->
  fits_int (tlb_hits s + tlb_misses s) ->
  (is_Some (amat (final_stats cfg s)) <->
     0 < tlb_size cfg /\ 0 < tlb_hits s + tlb_misses s) /\
  (is_Some (tlb_hit_rate (final_stats cfg s)) <->
     0 < tlb_size cfg /\ 0 < tlb_hits s + tlb_misses s) /\
  (is_Some (fault_rate (final_stats cfg s)) <-> 0 < reads s + writes s) /\
  (is_Some (hit_rate (final_stats cfg s)) <-> 0 < reads s + writes s) /\
  (forall f, fault_rate (final_stats cfg s) = Some f ->
     f = (double_of_int (page_faults s) / double_of_int (reads s + writes s))%float /\
     hit_rate (final_stats cfg s) = Some (1.0 - f)%float) /\
  (forall h, tlb_hit_rate (final_stats cfg s) = Some h ->
     h = (double_of_int (tlb_hits s)
          / double_of_int (tlb_hits s + tlb_misses s))%float /\
     amat (final_stats cfg s)
     = Some (h * 1.0 + (1.0 - h) * 100.0
             + match fault_rate (final_stats cfg s) with
               | Some f => f
               | None => 0.0
               end * 10000000.0)%float) /\
  Forall (fun d => 0 < d) (denominators (final_stats cfg s)) /\
  total_accesses (final_stats cfg s) = reads s + writes s /\
  (0 < tlb_size cfg ->
   tlb_hits s = 8 -> tlb_misses s = 2 -> page_faults s = 1 ->
   reads s + writes s = 10 ->
   amat (final_stats cfg s) = Some 1000020.8%float) /\
  (forall fuel trace, run fuel cfg (init cfg) trace = Done s -> counted cfg s).
Proof.
  intros Hfit Hfit'.
  refine (conj _ (conj _ (conj _ (conj _ (conj _ (conj _ (conj _ (conj _
            (conj (amat_example cfg s)
               (fun fuel trace H =>
                  run_counted fuel cfg trace _ _ H (counted_init cfg)))))))))));
  unfold final_stats, ratio; rewrite ?(int_add_fits _ _ Hfit), ?(int_add_fits _ _ Hfit');
  simpl;
  destruct (Z.ltb_spec 0 (reads s + writes s)) as [Ht|Ht];
    destruct (Z.ltb_spec 0 (tlb_size cfg)) as [Hs|Hs];
    try destruct (Z.ltb_spec 0 (tlb_hits s + tlb_misses s)) as [Hl|Hl]; simpl;
    (repeat split); intros;
    try lia; try (by eexists);
    try (repeat (apply List.Forall_cons; [lia|]); apply List.Forall_nil).
  all: try match goal with
    | H : is_Some None |- _ => exfalso; by apply is_Some_None in H
    | H : None = Some _ |- _ => discriminate H
    | H : Some _ = Some _ |- _ => inversion H; subst; clear H; reflexivity
    end.
Qed.

Lemma amat_and_rates_witness :
  amat (final_stats (mkConfig ALG_FIFO WP_WRITE_THROUGH 4 3) stats_8_2_1_10)
  = Some 1000020.8%float.
Proof.
  apply (proj1 (proj2 (proj2 (proj2 (proj2 (proj2 (proj2 (proj2 (proj2
    (amat_and_rates (mkConfig ALG_FIFO WP_WRITE_THROUGH 4 3) stats_8_2_1_10
       ltac:(unfold fits_int, INT_MAX; simpl; lia)
       ltac:(unfold fits_int, INT_MAX; simpl; lia)))))))))));
    reflexivity.
Defined.

(** C7. Under LRU, in a reachable state: a read or a write, whether the
    translation cache, the frame scan or a placement serves it, stamps the
    frame of its page with the tick of the record and leaves the other
    stamps; when no frame is empty, the victim has the least stamp and is
    the lowest such frame.  With two frames: from the start, once pages
    [a] and [b] are in, an access to [b], one to [a] and one to a third
    page [c] leave [a] and [c] in the frames and not [b]; and so it is from
    any state that holds [a] and [b], as long as the 64-bit tick does not
    wrap in between (the trace so far has fewer than 2^64 - 2 records). *)
Theorem lru_recency (cfg : Config) :
  valid_config cfg -> alg cfg = ALG_LRU ->
  (forall fuel s r,
     reachable cfg s -> valid_access r -> is_R (op r) || is_W (op r) = true ->
     exists s' f,
       step fuel cfg s r = Done s' /\
       tick s' = (tick s + 1) mod ULONG_MOD /\
       load (frames s') f = Done (page r) /\
       load (frame_last_used s') f = Done (tick s') /\
       forall j, j <> f ->
         load (frame_last_used s') j = load (frame_last_used s) j) /\
  (forall fuel s c,
     reachable cfg s ->
     (forall j x, load (frames s) j = Done x -> x <> EMPTY) ->
     choose_victim fuel cfg s = Done c ->
     exists y, 0 <= ch_victim c < num_frames cfg /\
       load (frame_last_used s) (ch_victim c) = Done y /\
       forall j x, load (frame_last_used s) j = Done x ->
         y <= x /\ (j < ch_victim c -> y < x)) /\
  (forall fuel ra rb rc,
     num_frames cfg = 2 ->
     valid_access ra -> valid_access rb -> valid_access rc ->
     is_R (op ra) || is_W (op ra) = true ->
     is_R (op rb) || is_W (op rb) = true ->
     is_R (op rc) || is_W (op rc) = true ->
     page ra <> page rb -> page rc <> page ra -> page rc <> page rb ->
     exists s, run fuel cfg (init cfg) [ra; rb; rb; ra; rc] = Done s /\
       holds (frames s) (page ra) /\ holds (frames s) (page rc) /\
       forall j x, load (frames s) j = Done x -> x <> page rb) /\
  (forall fuel trace s ra rb rc,
     num_frames cfg = 2 ->
     Forall valid_access trace -> run fuel cfg (init cfg) trace = Done s ->
     Z.of_nat (length trace) + 2 < ULONG_MOD ->
     valid_access ra -> valid_access rb -> valid_access rc ->
     is_R (op ra) || is_W (op ra) = true ->
     is_R (op rb) || is_W (op rb) = true ->
     is_R (op rc) || is_W (op rc) = true ->
     holds (frames s) (page ra) -> holds (frames s) (page rb) ->
     page ra <> page rb -> page rc <> page ra -> page rc <> page rb ->
     exists s1 s2 s3,
       step fuel cfg s rb = Done s1 /\ step fuel cfg s1 ra = Done s2 /\
       step fuel cfg s2 rc = Done s3 /\
       frames s2 = frames s /\
       holds (frames s3) (page ra) /\ holds (frames s3) (page rc) /\
       forall j x, load (frames s3) j = Done x -> x <> page rb).
Proof.
  intros Hc Halg.
  assert (Hfuel : forall fuel : nat,
            alg cfg = ALG_CLOCK -> (Z.to_nat (num_frames cfg) < fuel)%nat)
    by (intros fuel E; congruence).
  split; [|split; [|split]].
  - intros fuel s r Hreach Hr Hop.
    pose proof (reachable_inv cfg s Hc Hreach) as Hinv.
    destruct (step_total fuel cfg s r Hinv (Hfuel fuel)) as [s' Hs'].
    destruct (step_lru fuel cfg s r s' Halg Hinv Hr Hop Hs') as (f & Hf & Hlu & Hfr).
    exists s', f. split; [done|]. split; [by eapply step_tick|].
    destruct Hinv. split; [|rewrite Hlu; split].
    + destruct Hfr as [[Hl ->] | (_ & -> & _)]; [done|].
      apply load_insert_eq. lia.
    + apply load_insert_eq. lia.
    + intros j Hj. apply load_insert_ne; [lia | done].
  - intros fuel s c Hreach Hfull Hch.
    pose proof (reachable_inv cfg s Hc Hreach) as Hinv.
    destruct (choose_victim_lru fuel cfg s c Halg Hinv Hfull Hch)
      as (Hv & y & Hy & Hmin).
    exists y. split; [done|]. split; [done|]. intros j x Hx.
    apply Hmin; [|done]. apply load_bound in Hx. destruct Hinv. lia.
  - intros fuel ra rb rc Hn. by apply lru_fresh_scenario.
  - intros fuel trace s ra rb rc Hn Hall Hrun. by eapply lru_two_frames.
Qed.

Lemma lru_recency_witness :
  exists s1 s2 s3,
    step 0 lru_wb_2_2 (state_after 0 lru_wb_2_2 [R 0; R 4096]) (W 4100) = Done s1 /\
    step 0 lru_wb_2_2 s1 (R 8) = Done s2 /\
    step 0 lru_wb_2_2 s2 (R 8192) = Done s3 /\
    frames s2 = frames (state_after 0 lru_wb_2_2 [R 0; R 4096]) /\
    holds (frames s3) (page (R 8)) /\ holds (frames s3) (page (R 8192)) /\
    forall j x, load (frames s3) j = Done x -> x <> page (W 4100).
Proof.
  assert (Hc : valid_config lru_wb_2_2) by (unfold valid_config; simpl; lia).
  apply (proj2 (proj2 (proj2 (lru_recency lru_wb_2_2 Hc eq_refl)))
           0%nat [R 0; R 4096] (state_after 0 lru_wb_2_2 [R 0; R 4096])
           (R 8) (W 4100) (R 8192)).
  - reflexivity.
  - repeat constructor; unfold valid_access, UINT_MOD; simpl; lia.
  - vm_compute. reflexivity.
  - unfold ULONG_MOD. simpl. lia.
  - unfold valid_access, UINT_MOD. simpl. lia.
  - unfold valid_access, UINT_MOD. simpl. lia.
  - unfold valid_access, UINT_MOD. simpl. lia.
  - reflexivity.
  - reflexivity.
  - reflexivity.
  - exists 0. vm_compute. reflexivity.
  - exists 1. vm_compute. reflexivity.
  - vm_compute. intros H. discriminate H.
  - vm_compute. intros H. discriminate H.
  - vm_compute. intros H. discriminate H.
Defined.

(** C8. With a table of [size > 0] entries, [tlb_insert] writes one entry
    and leaves the others: the lowest valid entry of the page, its frame
    and time stamp replaced, when there is one; else the lowest invalid
    entry; else the entry with the least time stamp, the lowest such
    index.  The frame policy takes no part in it. *)
Theorem tlb_insert_algorithm (t : list TLBEntry) (size v f now : Z) :
  0 < size -> Z.of_nat (length t) = size ->
  exists i e', 0 <= i < size /\
    tlb_insert t size v f now = Done (<[Z.to_nat i := e']> t) /\
    ((exists e, load t i = Done e /\ valid e <> 0 /\ vpn e = v /\
        (forall j x, 0 <= j < i -> load t j = Done x -> valid x = 0 \/ vpn x <> v) /\
        e' = mkTLBEntry (valid e) (vpn e) f now)
     \/
     ((forall j x, load t j = Done x -> valid x = 0 \/ vpn x <> v) /\
      (exists e, load t i = Done e /\ valid e = 0) /\
      (forall j x, 0 <= j < i -> load t j = Done x -> valid x <> 0) /\
      e' = mkTLBEntry 1 v f now)
     \/
     ((forall j x, load t j = Done x -> valid x <> 0 /\ vpn x <> v) /\
      (exists y, load t i = Done y /\
         forall j x, load t j = Done x ->
           last_used y <= last_used x /\ (j < i -> last_used y < last_used x)) /\
      e' = mkTLBEntry 1 v f now)).
Proof.
  intros Hpos Hlen.
  destruct (tlb_insert_cases t size v f now Hpos Hlen) as (i & e' & Hi & Hins & Hcase).
  exists i, e'. split; [done|]. split; [done|].
  destruct Hcase as [e He Hm Hlow -> | e Hno He Hv Hlow -> | Hno Hfull Hmin ->].
  - left. exists e. apply tlb_match_true in Hm as [Hv Hp].
    repeat split; try done.
    intros j x Hj Hx. apply tlb_match_false. by apply (Hlow j x).
  - right; left. split; [|split; [eauto | split; done]].
    intros j x Hx. apply tlb_match_false. by apply (Hno j x).
  - right; right. split; [|split; [|done]].
    + intros j x Hx. split; [by apply (Hfull j x)|].
      destruct (proj1 (tlb_match_false v x) (Hno j x Hx)) as [Hz|Hz]; [|done].
      by destruct (Hfull j x Hx).
    + destruct Hmin as (_ & y & Hy & Hmin). exists y. split; [done|].
      intros j x Hx. apply Hmin; [|done]. apply load_bound in Hx. lia.
Qed.

Lemma tlb_insert_algorithm_witness :
  exists i e', 0 <= i < 3 /\
    tlb_insert full_table 3 4 1 10 = Done (<[Z.to_nat i := e']> full_table).
Proof.
  destruct (tlb_insert_algorithm full_table 3 4 1 10) as (i & e' & Hi & Hins & _).
  - lia.
  - reflexivity.
  - exists i, e'. split; [exact Hi | exact Hins].
Defined.

(** C9. FIFO, two frames, no translation cache, on the trace
    R 0x0000, R 0x1000, R 0x2000, R 0x0000: the four accesses all fault;
    the first two fill frames 0 and 1, the third replaces page 0 by page 2
    and moves the FIFO index to 1, the fourth replaces page 1 by page 0.
    And under every policy, a fault with an empty frame takes the lowest
    empty frame and leaves the state of the policy as it is. *)
Theorem fifo_scenario :
  (exists s1 s2 s3 s4,
     step 0 fifo_wt_0_2 (init fifo_wt_0_2) (R 0) = Done s1 /\
     step 0 fifo_wt_0_2 s1 (R 4096) = Done s2 /\
     step 0 fifo_wt_0_2 s2 (R 8192) = Done s3 /\
     step 0 fifo_wt_0_2 s3 (R 0) = Done s4 /\
     run 0 fifo_wt_0_2 (init fifo_wt_0_2) [R 0; R 4096; R 8192; R 0] = Done s4 /\
     frames s1 = [0; EMPTY] /\ page_faults s1 = 1 /\ fifo_index s1 = 0 /\
     frames s2 = [0; 1] /\ page_faults s2 = 2 /\ fifo_index s2 = 0 /\
     frames s3 = [2; 1] /\ page_faults s3 = 3 /\ fifo_index s3 = 1 /\
     frames s4 = [2; 0] /\ page_faults s4 = 4 /\ fifo_index s4 = 0 /\
     reads s4 = 4 /\ writes s4 = 0 /\ tlb_hits s4 = 0) /\
  (forall cfg s fuel i,
     valid_config cfg -> reachable cfg s ->
     load (frames s) i = Done EMPTY ->
     (forall j x, 0 <= j < i -> load (frames s) j = Done x -> x <> EMPTY) ->
     choose_victim fuel cfg s
       = Done (mkChoice i (fifo_index s) (ref_bits s) (clock_hand s))).
Proof.
  split.
  - do 4 eexists. repeat (split; [vm_compute; reflexivity|]). reflexivity.
  - intros cfg s fuel i Hc Hreach Hi Hlow.
    destruct (reachable_inv cfg s Hc Hreach). unfold choose_victim.
    rewrite (first_index_found _ _ _ 0 i EMPTY); try done.
    + apply load_bound in Hi. lia.
    + intros j y Hj Hy. apply Z.eqb_neq. by apply (Hlow j y).
Qed.

Lemma fifo_scenario_witness :
  choose_victim 0 clock_wb_1_3 (state_after 4 clock_wb_1_3 [R 0; R 4096])
  = Done (mkChoice 2 0 [1; 1; 0] 0).
Proof.
  refine (proj2 fifo_scenario clock_wb_1_3
            (state_after 4 clock_wb_1_3 [R 0; R 4096]) 0%nat 2 _ _ _ _).
  - unfold valid_config. simpl. lia.
  - exists 4%nat, [R 0; R 4096]. split.
    + repeat constructor; unfold valid_access, UINT_MOD; simpl; lia.
    + vm_compute. reflexivity.
  - vm_compute. reflexivity.
  - assert (E : frames (state_after 4 clock_wb_1_3 [R 0; R 4096]) = [0; 1; EMPTY])
      by (vm_compute; reflexivity).
    rewrite E. intros j x Hj Hx. apply load_Done in Hx as [_ Hx].
    assert (Hjj : j = 0 \/ j = 1) by lia.
    destruct Hjj as [-> | ->]; simpl in Hx; inversion Hx; unfold EMPTY; lia.
Defined.

(** C10. The page number of a 32-bit address is at most 2^20 - 1, so the
    cast to [int] keeps its value, the stored occupant is never the marker
    of an empty frame, and the cast back to [unsigned int] gives the page
    number again; in every reachable state a frame is either empty or holds
    such a page number, and the comparison [frames[i] == (int)vpn] holds
    exactly when the frame holds that page. *)
Theorem occupant_sentinel_safety (cfg : Config) (s : State) (a : Z) :
  valid_config cfg -> reachable cfg s -> 0 <= a < UINT_MOD ->
  0 <= a / PAGE_SIZE <= 2 ^ 20 - 1 /\
  int_of_uint (a / PAGE_SIZE) = a / PAGE_SIZE /\
  int_of_uint (a / PAGE_SIZE) <> EMPTY /\
  uint_of_int (int_of_uint (a / PAGE_SIZE)) = a / PAGE_SIZE /\
  forall i x, load (frames s) i = Done x ->
    (x = EMPTY \/ (0 <= x <= 2 ^ 20 - 1 /\ uint_of_int x = x /\ int_of_uint x = x)) /\
    ((x =? int_of_uint (a / PAGE_SIZE)) = true <-> x = a / PAGE_SIZE) /\
    ((x =? int_of_uint (a / PAGE_SIZE)) = true -> (x =? EMPTY) = false).
Proof.
  intros Hc Hreach Ha. pose proof (vpn_range a Ha) as Hv.
  unfold VPN_LIMIT in Hv.
  assert (Hi : int_of_uint (a / PAGE_SIZE) = a / PAGE_SIZE)
    by (apply int_of_uint_small; lia).
  rewrite Hi. split; [lia|]. split; [done|].
  split; [unfold EMPTY; lia|].
  split; [apply uint_of_int_small; lia|].
  intros i x Hx. destruct (reachable_inv cfg s Hc Hreach).
  split; [|split].
  - destruct (inv_occupants0 i x Hx) as [->|Hr]; [by left|]. right.
    unfold VPN_LIMIT in Hr. split; [lia|].
    split; [apply uint_of_int_small | apply int_of_uint_small]; lia.
  - apply Z.eqb_eq.
  - intros Heq. apply Z.eqb_eq in Heq. apply Z.eqb_neq. unfold EMPTY. lia.
Qed.

Lemma occupant_sentinel_safety_witness :
  0 <= 4294967295 / PAGE_SIZE <= 2 ^ 20 - 1 /\
  int_of_uint (4294967295 / PAGE_SIZE) = 4294967295 / PAGE_SIZE.
Proof.
  destruct (occupant_sentinel_safety lru_wb_2_2
              (state_after 3 lru_wb_2_2 sample_trace) 4294967295)
    as (H1 & H2 & _).
  - unfold valid_config. simpl. lia.
  - exists 3%nat, sample_trace. split; [exact sample_trace_valid|].
    vm_compute. reflexivity.
  - unfold UINT_MOD. lia.
  - split; [exact H1 | exact H2].
Defined.

(** * Further properties *)


(** ** Counting the records *)

Lemma is_R_not_W (c : ascii) : is_R c = true -> is_W c = false.
Proof. unfold is_R, is_W. intros H. apply Ascii.eqb_eq in H. by subst c. Qed.

Lemma step_reads_writes fuel cfg s r s' :
  step fuel cfg s r = Done s' ->
  reads s' = reads s + (if is_R (op r) then 1 else 0) /\
  writes s' = writes s + (if is_W (op r) then 1 else 0).
Proof.
  intros H. destruct (is_R (op r) || is_W (op r)) eqn:Hop.
  2:{ unfold step in H. rewrite Hop in H. inversion H; subst s'. simpl.
      apply orb_false_iff in Hop as [-> ->]. simpl. lia. }
  assert (E : reads (entered s r) = reads s + (if is_R (op r) then 1 else 0) /\
              writes (entered s r) = writes s + (if is_W (op r) then 1 else 0)).
  { unfold entered. simpl. destruct (is_R (op r)) eqn:HR.
    - rewrite (is_R_not_W _ HR). lia.
    - simpl in Hop. rewrite Hop. lia. }
  apply step_path in H; [|done].
  destruct H as [t f _ _ H | s2 i Hs2 _ H | s2 Hs2 _ H].
  - unfold tlb_hit in H. inv_bind H as m Hm. by inversion H; subst s'.
  - unfold frame_hit in H. inv_bind H as m Hm. inv_bind H as t Ht.
    inversion H; subst s'. simpl. by destruct Hs2 as [[_ ->] | [_ ->]].
  - unfold page_fault in H.
    inv_bind H as c Hch. inv_bind H as ev Hev. inv_bind H as fr Hfr.
    inv_bind H as m Hm. inv_bind H as t Ht. inversion H; subst s'. simpl.
    by destruct Hs2 as [[_ ->] | [_ ->]].
Qed.

Lemma run_reads_writes fuel cfg (trace : list Access) : forall s s',
  run fuel cfg s trace = Done s' ->
  reads s' = reads s + count_ops is_R trace /\
  writes s' = writes s + count_ops is_W trace.
Proof.
  induction trace as [|r trace IH]; intros s s' H; simpl in H.
  - inversion H; subst s'. simpl. lia.
  - inv_bind H as s1 Hs1. apply step_reads_writes in Hs1 as [R1 W1].
    apply IH in H as [R2 W2]. simpl. lia.
Qed.

Lemma count_ops_nonneg (p : ascii -> bool) (trace : list Access) :
  0 <= count_ops p trace.
Proof. induction trace as [|r trace IH]; simpl; [lia|]. destruct (p (op r)); lia. Qed.

(** X1. For a trace with at most [INT_MAX] records marked R or W, so
    that no counter and no sum of counters leaves the range of [int]: at
    the end of the run [reads] and [writes] are the numbers of records
    marked R and W, records with any other mark are counted by neither,
    the tick is the number of all records (modulo 2^64), and the report's
    total is the number of R and W records. *)
Theorem run_counts (fuel : nat) (cfg : Config) (trace : list Access) (s : State) :
  run fuel cfg (init cfg) trace = Done s ->
  count_ops (fun c => is_R c || is_W c) trace <= INT_MAX ->
  reads s = count_ops is_R trace /\
  writes s = count_ops is_W trace /\
  tick s = Z.of_nat (length trace) mod ULONG_MOD /\
  total_accesses (final_stats cfg s)
  = count_ops (fun c => is_R c || is_W c) trace.
Proof.
  intros H Hmax. pose proof (run_reads_writes _ _ _ _ _ H) as [HR HW].
  simpl in HR, HW. split; [done|]. split; [done|]. split.
  - rewrite (run_tick fuel cfg trace (init cfg) s);
      [done | simpl; unfold ULONG_MOD; lia | done].
  - assert (E : count_ops is_R trace + count_ops is_W trace
                = count_ops (fun c => is_R c || is_W c) trace).
    { clear. induction trace as [|r trace IH]; simpl; [done|].
      destruct (is_R (op r)) eqn:E; simpl.
      - rewrite (is_R_not_W _ E). lia.
      - destruct (is_W (op r)); lia. }
    unfold final_stats. simpl. rewrite HR, HW, int_add_fits; [done|].
    pose proof (count_ops_nonneg is_R trace).
    pose proof (count_ops_nonneg is_W trace).
    unfold fits_int. lia.
Qed.

Lemma run_counts_witness :
  reads (state_after 3 lru_wb_2_2 (mkAccess "x" 0 :: sample_trace)) = 4 /\
  writes (state_after 3 lru_wb_2_2 (mkAccess "x" 0 :: sample_trace)) = 4 /\
  tick (state_after 3 lru_wb_2_2 (mkAccess "x" 0 :: sample_trace)) = 9 /\
  total_accesses (final_stats lru_wb_2_2
    (state_after 3 lru_wb_2_2 (mkAccess "x" 0 :: sample_trace))) = 8.
Proof.
  destruct (run_counts 3 lru_wb_2_2 (mkAccess "x" 0 :: sample_trace)
              (state_after 3 lru_wb_2_2 (mkAccess "x" 0 :: sample_trace)))
    as (HR & HW & HT & HA).
  - vm_compute. reflexivity.
  - vm_compute. discriminate.
  - rewrite HR, HW, HT, HA. vm_compute. repeat split.
Defined.

(** X2. A trace without any R or W record, the empty trace among them,
    ends in a report without rates: no fault rate, no hit rate, no TLB hit
    rate, no AMAT, and no division, whatever the configuration; and no
    fault, TLB hit, TLB miss or write-back was counted. *)
Theorem report_of_idle_run (fuel : nat) (cfg : Config) (trace : list Access)
    (s : State) :
  Forall (fun r => is_R (op r) || is_W (op r) = false) trace ->
  run fuel cfg (init cfg) trace = Done s ->
  fault_rate (final_stats cfg s) = None /\
  hit_rate (final_stats cfg s) = None /\
  tlb_hit_rate (final_stats cfg s) = None /\
  amat (final_stats cfg s) = None /\
  denominators (final_stats cfg s) = [] /\
  total_accesses (final_stats cfg s) = 0 /\
  page_faults s = 0 /\ tlb_hits s = 0 /\ tlb_misses s = 0 /\ write_backs s = 0 /\
  frames s = frames (init cfg) /\ tlb s = tlb (init cfg).
Proof.
  intros Hall Hrun.
  assert (Hs : forall s0 s1, run fuel cfg s0 trace = Done s1 ->
            reads s1 = reads s0 /\ writes s1 = writes s0 /\
            page_faults s1 = page_faults s0 /\ tlb_hits s1 = tlb_hits s0 /\
            tlb_misses s1 = tlb_misses s0 /\ write_backs s1 = write_backs s0 /\
            frames s1 = frames s0 /\ tlb s1 = tlb s0).
  { clear Hrun. induction Hall as [|r trace Hr Hall IH]; intros s0 s1 H; simpl in H.
    - by inversion H; subst.
    - inv_bind H as s2 Hs2. unfold step in Hs2. rewrite Hr in Hs2.
      inversion Hs2; subst s2. apply IH in H. simpl in H. done. }
  destruct (Hs _ _ Hrun) as (HR & HW & HF & HH & HM & HB & HFr & HT).
  simpl in HR, HW, HF, HH, HM, HB.
  unfold final_stats. rewrite HR, HW, HH, HM. simpl. simpl in HT. revert HT.
  destruct (0 <? tlb_size cfg); intros HT; simpl; repeat split; done.
Qed.

Lemma report_of_idle_run_witness :
  amat (final_stats lru_wb_2_2
          (state_after 0 lru_wb_2_2 [mkAccess "x" 0; mkAccess "r" 4096])) = None.
Proof.
  destruct (report_of_idle_run 0 lru_wb_2_2 [mkAccess "x" 0; mkAccess "r" 4096]
              (state_after 0 lru_wb_2_2 [mkAccess "x" 0; mkAccess "r" 4096]))
    as (_ & _ & _ & H & _).
  - repeat constructor.
  - vm_compute. reflexivity.
  - exact H.
Defined.

(** ** The choice of a victim, case by case *)

Lemma choose_victim_chosen fuel cfg s c :
  inv cfg s -> choose_victim fuel cfg s = Done c -> chosen fuel cfg s c.
Proof.
  intros Hinv H. pose proof Hinv as []. unfold choose_victim in H.
  inv_bind H as e He. destruct e as [i|].
  { inversion H; subst c; clear H.
    apply first_index_Some in He as (Hi & (x & Hx & Hp) & Hlow).
    apply Z.eqb_eq in Hp. subst x. apply chosen_empty; simpl; try done.
    intros j x Hj Hx'. apply Z.eqb_neq. by apply (Hlow j x). }
  assert (Hfull : forall j x, load (frames s) j = Done x -> x <> EMPTY).
  { intros j x Hx. apply Z.eqb_neq. apply (first_index_None _ _ _ _ He j x); [|done].
    apply load_bound in Hx. lia. }
  destruct (alg cfg) eqn:Halg.
  - inversion H; subst c; clear H. by apply chosen_fifo.
  - inv_bind H as v Hv. inversion H; subst c; clear H.
    apply chosen_lru; simpl; try done.
    assert (Hne : frame_last_used s <> []).
    { intros E. rewrite E in inv_last_used0. simpl in *. lia. }
    apply (min_index_spec _ _ _ _ _ _ (lowest_min_start _ _ Hne)) in Hv.
    by replace (1 + Z.of_nat (Z.to_nat (num_frames cfg - 1)))
      with (num_frames cfg) in Hv by lia.
  - inv_bind H as k Hk. inversion H; subst c; clear H.
    by eapply chosen_clock.
Qed.

(** ** Occupied frames *)

Lemma resident_insert (fr : list Z) (i : nat) (old v : Z) :
  fr !! i = Some old -> v <> EMPTY ->
  length (resident (<[i := v]> fr))
  = (length (resident fr) + (if decide (old = EMPTY) then 1 else 0))%nat.
Proof.
  unfold resident. revert i. induction fr as [|x fr IH]; intros i Hi Hv; [done|].
  destruct i as [|i]; simpl in *.
  - injection Hi as ->. rewrite !filter_cons.
    destruct (decide (v <> EMPTY)); [|done].
    destruct (decide (old <> EMPTY)), (decide (old = EMPTY)); simpl; try done; lia.
  - specialize (IH i Hi Hv). rewrite !filter_cons.
    destruct (decide (x <> EMPTY)); simpl; lia.
Qed.

Lemma page_not_empty (r : Access) : valid_access r -> page r <> EMPTY.
Proof.
  intros Hr. pose proof (vpn_range _ Hr) as Hv. unfold page, EMPTY. lia.
Qed.

(** ** Invariants of a run *)


(** A property of the initial state that every step keeps holds in every
    reachable state. *)
Lemma reachable_invariant (cfg : Config) (P : State -> Prop) :
  valid_config cfg -> P (init cfg) ->
  (forall fuel s r s',
     inv cfg s -> P s -> valid_access r -> step fuel cfg s r = Done s' -> P s') ->
  forall s, reachable cfg s -> P s.
Proof.
  intros Hc H0 Hstep s (fuel & trace & Hall & Hrun).
  pose proof (inv_init cfg Hc) as Hinv. revert Hrun Hinv H0.
  generalize (init cfg). induction Hall as [|r trace Hr Hall IH];
    intros s0 Hrun Hinv H0; simpl in Hrun.
  - by inversion Hrun; subst.
  - inv_bind Hrun as s1 Hs1. apply (IH s1); [done | by eapply step_inv |].
    by eapply Hstep.
Qed.

Lemma filled_prefix_step fuel cfg s r s' :
  inv cfg s -> filled_prefix (frames s) -> valid_access r ->
  step fuel cfg s r = Done s' -> filled_prefix (frames s').
Proof.
  intros Hinv HP Hr H. destruct (is_R (op r) || is_W (op r)) eqn:Hop.
  2:{ apply step_skip in H; [|done]. by subst s'. }
  destruct (step_accessed _ _ _ _ _ Hinv Hr Hop H) as (_ & f & Hf & _ & Hacc).
  pose proof (page_not_empty r Hr) as Hpe. pose proof Hinv as [].
  destruct Hacc as [_ -> | c ev _ Hch Hvic _ -> ]; [done|].
  assert (Bf : 0 <= f < Z.of_nat (length (frames s))) by lia.
  intros i j x Hi Hij Hj.
  assert (Hif : i <> f).
  { intros ->. rewrite load_insert_eq in Hi by done. congruence. }
  rewrite load_insert_ne in Hi by done.
  destruct (choose_victim_chosen _ _ _ _ Hinv Hch)
    as [He Hlow _ _ _ | Hfull _ _ _ _ _ | Hfull _ _ _ _ _ | k Hfull _ _ _ _ _ _];
    try (by destruct (Hfull _ _ Hi)).
  rewrite Hvic in He, Hlow.
  assert (f < i).
  { destruct (Z.lt_trichotomy i f) as [Hlt | [-> | Hgt]]; [|done|done].
    apply load_bound in Hi as Hb. by destruct (Hlow i EMPTY ltac:(lia) Hi). }
  rewrite load_insert_ne in Hj by lia. by apply (HP i j x).
Qed.

(** X3. The frames fill in index order: in every reachable state the empty
    frames come after all the occupied ones, under every policy. *)
Theorem frames_fill_in_order (cfg : Config) (s : State) :
  valid_config cfg -> reachable cfg s ->
  forall i j x,
    load (frames s) i = Done EMPTY -> i < j -> load (frames s) j = Done x ->
    x = EMPTY.
Proof.
  intros Hc Hreach.
  apply (reachable_invariant cfg (fun s => filled_prefix (frames s)) Hc); [| |done].
  - intros i j x _ _ Hj. simpl in Hj. by apply load_replicate in Hj.
  - intros fuel s0 r s1. apply filled_prefix_step.
Qed.

Lemma frames_fill_in_order_witness :
  exists x, load (frames (state_after 4 clock_wb_1_3 [R 0])) 2 = Done x /\ x = EMPTY.
Proof.
  exists EMPTY. split; [vm_compute; reflexivity|].
  apply (frames_fill_in_order clock_wb_1_3 (state_after 4 clock_wb_1_3 [R 0])
           ltac:(unfold valid_config; simpl; lia)) with (i := 1) (j := 2).
  - exists 4%nat, [R 0]. split.
    + repeat constructor; unfold valid_access, UINT_MOD; simpl; lia.
    + vm_compute. reflexivity.
  - vm_compute. reflexivity.
  - lia.
  - vm_compute. reflexivity.
Defined.

Lemma occupied_step fuel cfg s r s' :
  inv cfg s -> valid_access r -> step fuel cfg s r = Done s' ->
  (forall i x, load (frames s) i = Done x -> x <> EMPTY ->
     exists y, load (frames s') i = Done y /\ y <> EMPTY) /\
  (length (resident (frames s)) <= length (resident (frames s')))%nat.
Proof.
  intros Hinv Hr H. destruct (is_R (op r) || is_W (op r)) eqn:Hop.
  2:{ apply step_skip in H; [|done]. subst s'. simpl. eauto. }
  destruct (step_accessed _ _ _ _ _ Hinv Hr Hop H) as (_ & f & Hf & _ & Hacc).
  pose proof (page_not_empty r Hr) as Hpe. pose proof Hinv as [].
  destruct Hacc as [_ -> | c ev _ _ _ _ -> ]; [eauto|].
  assert (Bf : 0 <= f < Z.of_nat (length (frames s))) by lia.
  split.
  - intros i x Hi Hx. destruct (Z.eq_dec i f) as [-> | Hne].
    + exists (page r). by rewrite load_insert_eq.
    + exists x. by rewrite load_insert_ne.
  - destruct (load_total (frames s) f Bf) as [old Hold].
    apply load_Done in Hold as [_ Hold].
    rewrite (resident_insert _ _ old) by done. lia.
Qed.

(** X4. A frame that holds a page holds a page ever after, and the number
    of occupied frames never goes down: the simulator replaces pages, it
    never frees a frame. *)
Theorem occupied_forever (cfg : Config) (fuel : nat) (trace : list Access)
    (s s' : State) :
  valid_config cfg -> reachable cfg s -> Forall valid_access trace ->
  run fuel cfg s trace = Done s' ->
  (forall i x, load (frames s) i = Done x -> x <> EMPTY ->
     exists y, load (frames s') i = Done y /\ y <> EMPTY) /\
  (length (resident (frames s)) <= length (resident (frames s')))%nat.
Proof.
  intros Hc Hreach Hall. pose proof (reachable_inv cfg s Hc Hreach) as Hinv.
  clear Hreach. revert s Hinv.
  induction Hall as [|r trace Hr Hall IH]; intros s Hinv Hrun; simpl in Hrun.
  - inversion Hrun; subst s'. eauto.
  - inv_bind Hrun as s1 Hs1.
    destruct (occupied_step _ _ _ _ _ Hinv Hr Hs1) as [O1 L1].
    destruct (IH s1 (step_inv _ _ _ _ _ Hinv Hr Hs1) Hrun) as [O2 L2].
    split; [|lia]. intros i x Hi Hx.
    destruct (O1 i x Hi Hx) as (y & Hy & Hye). by apply (O2 i y).
Qed.

Lemma occupied_forever_witness :
  exists y,
    load (frames (state_after 4 clock_wb_1_3 ([R 0; R 4096] ++ sample_trace))) 0
    = Done y /\ y <> EMPTY.
Proof.
  apply (proj1 (occupied_forever clock_wb_1_3 4 sample_trace
                  (state_after 4 clock_wb_1_3 [R 0; R 4096])
                  (state_after 4 clock_wb_1_3 ([R 0; R 4096] ++ sample_trace))
                  ltac:(unfold valid_config; simpl; lia)
                  ltac:(exists 4%nat, [R 0; R 4096]; split;
                        [repeat constructor; unfold valid_access, UINT_MOD; simpl; lia
                        | vm_compute; reflexivity])
                  sample_trace_valid
                  ltac:(vm_compute; reflexivity)) 0 0).
  - vm_compute. reflexivity.
  - unfold EMPTY. lia.
Defined.











Lemma isolated_step fuel cfg s r s' :
  inv cfg s -> isolated cfg s -> valid_access r ->
  step fuel cfg s r = Done s' -> isolated cfg s'.
Proof.
  intros Hinv (I1 & I2 & I3) Hr H.
  destruct (is_R (op r) || is_W (op r)) eqn:Hop.
  2:{ apply step_skip in H; [|done]. by subst s'. }
  destruct (step_accessed _ _ _ _ _ Hinv Hr Hop H) as (_ & f & Hf & _ & Hacc).
  unfold isolated.
  destruct Hacc as [_ _ _ _ Hfi Hha (T1 & T2 & _)
                   | c ev _ Hch _ _ _ _ _ Hfi Hha (T1 & T2 & _)].
  - rewrite Hfi, Hha. split; [|split; [|done]].
    + intros E. rewrite T1, E. by apply I1.
    + intros E. rewrite T2, E. by apply I2.
  - assert (Hc : (is_CLOCK (alg cfg) = false ->
                  ch_ref_bits c = ref_bits s /\ ch_hand c = clock_hand s) /\
                 (alg cfg <> ALG_FIFO -> ch_fifo c = fifo_index s)).
    { destruct (choose_victim_chosen _ _ _ _ Hinv Hch)
        as [_ _ F R0 Hh | _ Ha _ _ R0 Hh | _ Ha _ F R0 Hh | k _ Ha _ _ _ _ F];
        (split; [intros E | intros E]); try done; try congruence.
      rewrite Ha in E. discriminate E. }
    destruct Hc as [C1 C2]. rewrite Hfi, Hha. split; [|split].
    + intros E. rewrite T1, E. by apply I1.
    + intros E. rewrite T2, E. destruct (C1 E) as [-> ->]. by apply I2.
    + intros E. rewrite (C2 E). by apply I3.
Qed.

(** X7. A policy writes its own state only, over a whole run: unless the
    policy is LRU every frame stamp stays 0; unless it is CLOCK every
    reference bit and the hand stay 0; unless it is FIFO the FIFO index
    stays 0. *)
Theorem policy_state_is_private (cfg : Config) (s : State) :
  valid_config cfg -> reachable cfg s ->
  (alg cfg <> ALG_LRU ->
     forall i x, load (frame_last_used s) i = Done x -> x = 0) /\
  (alg cfg <> ALG_CLOCK ->
     clock_hand s = 0 /\ forall i x, load (ref_bits s) i = Done x -> x = 0) /\
  (alg cfg <> ALG_FIFO -> fifo_index s = 0).
Proof.
  intros Hc Hreach.
  assert (H : isolated cfg s).
  { apply (reachable_invariant cfg (isolated cfg) Hc); [| |done].
    - unfold isolated. simpl. split; [|split; [|done]].
      + intros _ i x Hx. by apply load_replicate in Hx.
      + intros _. split; [done|]. intros i x Hx. by apply load_replicate in Hx.
    - intros fuel s0 r s1. apply isolated_step. }
  destruct H as (I1 & I2 & I3). split; [|split; [|done]].
  - intros Ha. apply I1. by destruct (alg cfg).
  - intros Ha. apply I2. by destruct (alg cfg).
Qed.

Lemma policy_state_is_private_witness :
  clock_hand (state_after 3 lru_wb_2_2 sample_trace) = 0 /\
  fifo_index (state_after 3 lru_wb_2_2 sample_trace) = 0.
Proof.
  destruct (policy_state_is_private lru_wb_2_2
              (state_after 3 lru_wb_2_2 sample_trace)) as (_ & H2 & H3).
  - unfold valid_config. simpl. lia.
  - exists 3%nat, sample_trace. split; [exact sample_trace_valid|].
    vm_compute. reflexivity.
  - split; [apply H2 | apply H3]; intros E; discriminate E.
Defined.

(** ** Bits and stamps *)


Lemma load_insert_cases {A : Type} (a : list A) (f i : Z) (x b : A) :
  0 <= f -> load (<[Z.to_nat f := x]> a) i = Done b ->
  (i = f /\ b = x) \/ load a i = Done b.
Proof.
  intros Hf H. destruct (Z.eq_dec i f) as [-> | Hne].
  - destruct (Z.lt_ge_cases f (Z.of_nat (length a))) as [Hlt|Hge].
    + rewrite load_insert_eq in H by lia. left. split; [done | congruence].
    + rewrite list_insert_ge in H by lia. by right.
  - right. by rewrite load_insert_other in H.
Qed.

Lemma clock_scan_bits (n : Z) (fuel : nat) : forall (rb : list Z) hand seen k,
  clock_scan fuel rb hand n seen = Done k ->
  forall j b, load (cs_ref_bits k) j = Done b -> b = 0 \/ load rb j = Done b.
Proof.
  induction fuel as [|fuel IH]; intros rb hand seen k H j b Hb; [discriminate|].
  simpl in H. inv_bind H as x Hx. destruct (x =? 0).
  - inversion H; subst k. by right.
  - inv_bind H as rb' Hrb'. destruct (IH _ _ _ _ H j b Hb) as [-> | Hl]; [by left|].
    destruct (load_store _ _ _ _ _ _ Hrb' Hl) as [[_ ->] | [_ Hl']]; [by left | by right].
Qed.

Lemma evict_dirty cfg (t : list TLBEntry) wb (fr d : list Z) victim ev :
  evict cfg t wb fr d victim = Done ev ->
  (forall j, j <> victim -> load (ev_dirty ev) j = load d j) /\
  (forall b, load (ev_dirty ev) victim = Done b -> b = 0 \/ load d victim = Done b) /\
  (load fr victim = Done EMPTY -> ev_dirty ev = d).
Proof.
  intros H. apply evict_cases in H
    as [(_ & -> & _) | (_ & Hs & _ & old & dv & Ho & Hoe & _)].
  - split; [done|]. split; [|done]. intros b Hb. by right.
  - split; [|split].
    + intros j Hj. by eapply load_store_ne.
    + intros b Hb. left. rewrite (load_store_eq _ _ _ _ Hs) in Hb. congruence.
    + intros He. congruence.
Qed.

Lemma blank_step fuel cfg s r s' :
  inv cfg s -> blank s -> valid_access r ->
  step fuel cfg s r = Done s' -> blank s'.
Proof.
  intros Hinv (B1 & B2 & B3) Hr H.
  destruct (is_R (op r) || is_W (op r)) eqn:Hop.
  2:{ apply step_skip in H; [|done]. by subst s'. }
  destruct (step_accessed _ _ _ _ _ Hinv Hr Hop H) as (_ & f & Hf & _ & Hacc).
  pose proof (page_not_empty r Hr) as Hpe. pose proof Hinv as [].
  assert (F0 : 0 <= f) by lia. unfold blank.
  destruct Hacc as [Hl -> _ _ _ _ (T1 & T2 & T3)
                   | c ev _ Hch Hvic Hev -> _ _ _ _ (T1 & T2 & T3)].
  - rewrite T1, T2, T3. split; [|split].
    + intros i b Hb. destruct (is_CLOCK (alg cfg)); [|by eapply B1].
      apply load_insert_cases in Hb as [[_ ->] | Hb]; [by right | by eapply B1 | done].
    + intros i b Hb. destruct (is_W (op r) && is_WB (write_policy cfg)); [|by eapply B2].
      apply load_insert_cases in Hb as [[_ ->] | Hb]; [by right | by eapply B2 | done].
    + intros i Hi. assert (i <> f) by (intros ->; congruence).
      destruct (B3 i Hi) as (Z1 & Z2 & Z3).
      destruct (is_LRU (alg cfg)), (is_CLOCK (alg cfg)),
        (is_W (op r) && is_WB (write_policy cfg));
        rewrite ?load_insert_other by done; done.
  - destruct (evict_dirty _ _ _ _ _ _ _ Hev) as (D1 & D2 & D3).
    pose proof (choose_victim_chosen _ _ _ _ Hinv Hch) as Hcase.
    rewrite T1, T2, T3. split; [|split].
    + intros i b Hb.
      assert (Hb' : (i = f /\ b = 1) \/ load (ch_ref_bits c) i = Done b).
      { destruct (is_CLOCK (alg cfg)); [|by right].
        by apply load_insert_cases in Hb. }
      destruct Hb' as [[_ ->] | Hb']; [by right|].
      destruct Hcase as [_ _ _ R0 _ | _ _ _ _ R0 _ | _ _ _ _ R0 _ | k _ _ Hk _ R0 _ _];
        rewrite R0 in Hb'; try (by eapply B1).
      destruct (clock_scan_bits _ _ _ _ _ _ Hk i b Hb') as [-> | Hb'']; [by left|].
      by eapply B1.
    + intros i b Hb.
      assert (Hb' : (i = f /\ b = 1) \/ load (ev_dirty ev) i = Done b).
      { destruct (is_W (op r) && is_WB (write_policy cfg)); [|by right].
        by apply load_insert_cases in Hb. }
      destruct Hb' as [[_ ->] | Hb']; [by right|].
      destruct (Z.eq_dec i f) as [-> | Hne].
      * destruct (D2 b Hb') as [-> | Hb'']; [by left | by eapply B2].
      * rewrite D1 in Hb' by done. by eapply B2.
    + intros i Hi.
      assert (Bf : 0 <= f < Z.of_nat (length (frames s))) by lia.
      assert (Hif : i <> f).
      { intros ->. rewrite load_insert_eq in Hi by done. congruence. }
      rewrite load_insert_ne in Hi by done.
      destruct (B3 i Hi) as (Z1 & Z2 & Z3).
      destruct Hcase as [He _ _ R0 _ | Hfull _ _ _ _ _ | Hfull _ _ _ _ _
                        | k Hfull _ _ _ _ _ _];
        try (by destruct (Hfull _ _ Hi)).
      rewrite Hvic in He. rewrite R0, (D3 He).
      destruct (is_LRU (alg cfg)), (is_CLOCK (alg cfg)),
        (is_W (op r) && is_WB (write_policy cfg));
        rewrite ?load_insert_other by done; done.
Qed.

Lemma reachable_blank cfg s : valid_config cfg -> reachable cfg s -> blank s.
Proof.
  intros Hc. apply (reachable_invariant cfg blank Hc).
  - unfold blank. simpl. pose proof Hc as Hn. unfold valid_config in Hn.
    split; [|split].
    + intros i b Hb. left. by apply load_replicate in Hb.
    + intros i b Hb. left. by apply load_replicate in Hb.
    + intros i Hi. apply load_bound in Hi. rewrite length_replicate in Hi.
      assert (Hz : load (replicate (Z.to_nat (num_frames cfg)) 0) i = Done 0).
      { destruct (load_total (replicate (Z.to_nat (num_frames cfg)) 0) i) as [x Hx];
          [by rewrite length_replicate|].
        rewrite Hx. f_equal. by eapply load_replicate. }
      done.
  - intros fuel s0 r s1. apply blank_step.
Qed.

(** X8. In every reachable state the reference and dirty bits are 0 or 1,
    and an empty frame carries nothing: its stamp, its reference bit and
    its dirty bit are 0. *)
Theorem empty_frames_are_blank (cfg : Config) (s : State) :
  valid_config cfg -> reachable cfg s ->
  (forall i b, load (ref_bits s) i = Done b -> b = 0 \/ b = 1) /\
  (forall i b, load (dirty s) i = Done b -> b = 0 \/ b = 1) /\
  (forall i, load (frames s) i = Done EMPTY ->
     load (frame_last_used s) i = Done 0 /\
     load (ref_bits s) i = Done 0 /\ load (dirty s) i = Done 0).
Proof. intros Hc Hreach. by apply (reachable_blank cfg). Qed.

Lemma empty_frames_are_blank_witness :
  load (dirty (state_after 4 clock_wb_1_3 [W 0; W 4096])) 2 = Done 0.
Proof.
  apply (empty_frames_are_blank clock_wb_1_3 (state_after 4 clock_wb_1_3 [W 0; W 4096])).
  - unfold valid_config. simpl. lia.
  - exists 4%nat, [W 0; W 4096]. split.
    + repeat constructor; unfold valid_access, UINT_MOD; simpl; lia.
    + vm_compute. reflexivity.
  - vm_compute. reflexivity.
Defined.

(** X9. What a read or a write does to the dirty bits, in a reachable
    state: it touches the bit of the frame of its page and no other; a
    write under write-back leaves that bit 1; otherwise a hit leaves it as
    it was and a page fault leaves it 0, the bit of the page that left
    being gone. *)
Theorem dirty_bit_follows_the_page (cfg : Config) (fuel : nat) (s : State)
    (r : Access) (s' : State) :
  valid_config cfg -> reachable cfg s -> valid_access r ->
  is_R (op r) || is_W (op r) = true ->
  step fuel cfg s r = Done s' ->
  exists f,
    load (frames s') f = Done (page r) /\
    (forall j, j <> f -> load (dirty s') j = load (dirty s) j) /\
    (is_W (op r) && is_WB (write_policy cfg) = true ->
       load (dirty s') f = Done 1) /\
    (is_W (op r) && is_WB (write_policy cfg) = false ->
       (page_faults s' = page_faults s -> load (dirty s') f = load (dirty s) f) /\
       (page_faults s' = page_faults s + 1 -> load (dirty s') f = Done 0)).
Proof.
  intros Hc Hreach Hr Hop H.
  pose proof (reachable_inv cfg s Hc Hreach) as Hinv.
  destruct (reachable_blank cfg s Hc Hreach) as (_ & _ & B3).
  destruct (step_accessed _ _ _ _ _ Hinv Hr Hop H) as (_ & f & Hf & Hl & Hacc).
  pose proof Hinv as []. exists f. split; [done|].
  assert (Bd : 0 <= f < Z.of_nat (length (dirty s))) by lia.
  destruct Hacc as [_ _ Hpf _ _ _ (_ & _ & T3)
                   | c ev _ _ _ Hev _ Hpf _ _ _ (_ & _ & T3)]; rewrite T3.
  - split; [|split].
    + intros j Hj. destruct (is_W (op r) && is_WB (write_policy cfg)); [|done].
      by apply load_insert_other; [lia|].
    + intros ->. by apply load_insert_eq.
    + intros ->. split; [done | lia].
  - destruct (evict_dirty _ _ _ _ _ _ _ Hev) as (D1 & D2 & D3).
    assert (Le : length (ev_dirty ev) = length (dirty s)).
    { apply evict_spec in Hev as (_ & Le & _); done. }
    split; [|split].
    + intros j Hj. rewrite <- (D1 j Hj).
      destruct (is_W (op r) && is_WB (write_policy cfg)); [|done].
      by apply load_insert_other; [lia|].
    + intros ->. apply load_insert_eq. lia.
    + intros ->. split; [lia|]. intros _.
      destruct (load_total (ev_dirty ev) f) as [b Hb]; [lia|]. rewrite Hb. f_equal.
      destruct (D2 b Hb) as [-> | Hb']; [done|].
      apply evict_cases in Hev
        as [(_ & _ & [Hwt | [He | Hz]]) | (_ & Hs & _)].
      * apply (proj2 (inv_write_through0 ltac:(by rewrite Hwt)) f b Hb').
      * destruct (B3 f He) as (_ & _ & Hz). congruence.
      * congruence.
      * rewrite (load_store_eq _ _ _ _ Hs) in Hb. congruence.
Qed.

Lemma dirty_bit_follows_the_page_witness :
  exists s' f,
    step 3 lru_wb_2_2 (state_after 3 lru_wb_2_2 [W 0; W 4096]) (R 8192) = Done s' /\
    load (frames s') f = Done (page (R 8192)) /\ load (dirty s') f = Done 0.
Proof.
  assert (Hs : exists s', step 3 lru_wb_2_2 (state_after 3 lru_wb_2_2 [W 0; W 4096])
                            (R 8192) = Done s' /\
                          page_faults s'
                          = page_faults (state_after 3 lru_wb_2_2 [W 0; W 4096]) + 1).
  { eexists. split; [vm_compute; reflexivity|]. vm_compute. reflexivity. }
  destruct Hs as (s' & Hs & Hpf).
  destruct (dirty_bit_follows_the_page lru_wb_2_2 3
              (state_after 3 lru_wb_2_2 [W 0; W 4096]) (R 8192) s')
    as (f & Hf & _ & _ & Hd).
  - unfold valid_config. simpl. lia.
  - exists 3%nat, [W 0; W 4096]. split.
    + repeat constructor; unfold valid_access, UINT_MOD; simpl; lia.
    + vm_compute. reflexivity.
  - unfold valid_access, UINT_MOD. simpl. lia.
  - reflexivity.
  - exact Hs.
  - exists s', f. split; [exact Hs|]. split; [exact Hf|].
    apply (proj2 (Hd eq_refl) Hpf).
Defined.

(** ** Hits and faults *)

(** X10. In a reachable state, a read or a write of a page that is in a
    frame never faults, whether the translation cache or the frame scan
    finds it, and leaves the frames and the write-back counter as they
    are; one of a page that is in no frame faults once and changes one
    frame, to that page.  Either way the page is in a frame afterwards. *)
Theorem hit_or_fault (cfg : Config) (fuel : nat) (s : State) (r : Access)
    (s' : State) :
  valid_config cfg -> reachable cfg s -> valid_access r ->
  is_R (op r) || is_W (op r) = true ->
  step fuel cfg s r = Done s' ->
  holds (frames s') (page r) /\
  (holds (frames s) (page r) ->
     frames s' = frames s /\ page_faults s' = page_faults s /\
     write_backs s' = write_backs s) /\
  ((forall j x, load (frames s) j = Done x -> x <> page r) ->
     page_faults s' = page_faults s + 1 /\
     exists f, 0 <= f < num_frames cfg /\
       frames s' = <[Z.to_nat f := page r]> (frames s)).
Proof.
  intros Hc Hreach Hr Hop H.
  pose proof (reachable_inv cfg s Hc Hreach) as Hinv.
  destruct (step_accessed _ _ _ _ _ Hinv Hr Hop H) as (_ & f & Hf & Hl & Hacc).
  split; [by exists f|].
  destruct Hacc as [Hold Hfr Hpf Hwb _ _ _ | c ev Hnew _ _ _ Hfr Hpf _ _ _ _].
  - split; [done|]. intros Hnew. by destruct (Hnew _ _ Hold).
  - split.
    + intros [i Hi]. by destruct (Hnew _ _ Hi).
    + intros _. split; [done|]. by exists f.
Qed.

Lemma hit_or_fault_witness :
  exists s',
    step 3 lru_wb_2_2 (state_after 3 lru_wb_2_2 [W 0; W 4096]) (R 4100) = Done s' /\
    frames s' = frames (state_after 3 lru_wb_2_2 [W 0; W 4096]) /\
    page_faults s' = page_faults (state_after 3 lru_wb_2_2 [W 0; W 4096]).
Proof.
  assert (Hs : exists s', step 3 lru_wb_2_2 (state_after 3 lru_wb_2_2 [W 0; W 4096])
                            (R 4100) = Done s')
    by (eexists; vm_compute; reflexivity).
  destruct Hs as (s' & Hs). exists s'. split; [exact Hs|].
  destruct (hit_or_fault lru_wb_2_2 3 (state_after 3 lru_wb_2_2 [W 0; W 4096])
              (R 4100) s') as (_ & Hhit & _).
  - unfold valid_config. simpl. lia.
  - exists 3%nat, [W 0; W 4096]. split.
    + repeat constructor; unfold valid_access, UINT_MOD; simpl; lia.
    + vm_compute. reflexivity.
  - unfold valid_access, UINT_MOD. simpl. lia.
  - reflexivity.
  - exact Hs.
  - destruct Hhit as (H1 & H2 & _).
    + exists 1. vm_compute. reflexivity.
    + split; [exact H1 | exact H2].
Defined.

(** ** The translation cache does not change the paging *)

Lemma evict_paging cfg cfg0 (t t0 : list TLBEntry) wb (fr d : list Z) victim ev ev0 :
  write_policy cfg0 = write_policy cfg ->
  evict cfg t wb fr d victim = Done ev ->
  evict cfg0 t0 wb fr d victim = Done ev0 ->
  ev_write_backs ev = ev_write_backs ev0 /\ ev_dirty ev = ev_dirty ev0.
Proof.
  intros Hwp H H0.
  apply evict_cases in H
    as [(W1 & D1 & C1) | (W1 & S1 & P1 & old & dv & Ho & Hoe & Hd & Hnz)];
    apply evict_cases in H0
      as [(W0 & D0 & C0) | (W0 & S0 & P0 & old0 & dv0 & Ho0 & Hoe0 & Hd0 & Hnz0)].
  - split; congruence.
  - exfalso. destruct C1 as [C | [C | C]]; congruence.
  - exfalso. destruct C0 as [C | [C | C]]; congruence.
  - split; congruence.
Qed.

Lemma same_paging_step fuel cfg s s0 r s' s0' :
  inv cfg s -> inv (without_tlb cfg) s0 -> same_paging s s0 -> valid_access r ->
  step fuel cfg s r = Done s' -> step fuel (without_tlb cfg) s0 r = Done s0' ->
  same_paging s' s0'.
Proof.
  intros Hinv Hinv0 (E1 & E2 & E3 & E4 & E5 & E6 & E7 & E8 & E9 & E10 & E11) Hr H H0.
  destruct (is_R (op r) || is_W (op r)) eqn:Hop.
  2:{ apply step_skip in H; [|done]. apply step_skip in H0; [|done].
      subst s' s0'. unfold same_paging. simpl. rewrite E11. done. }
  destruct (step_accessed _ _ _ _ _ Hinv Hr Hop H)
    as ((R1 & W1 & K1) & f & Hf & Hl & Hacc).
  destruct (step_accessed _ _ _ _ _ Hinv0 Hr Hop H0)
    as ((R0 & W0 & K0) & f0 & Hf0 & Hl0 & Hacc0).
  pose proof (page_not_empty r Hr) as Hpe.
  assert (Ht : tick s' = tick s0') by congruence.
  unfold same_paging. rewrite R1, W1, R0, W0, E1, E2.
  split; [done|]. split; [done|].
  destruct Hacc as [Hold Hfr Hpf Hwb Hfi Hha (T1 & T2 & T3)
                   | c ev Hnew Hch Hvic Hev Hfr Hpf Hwb Hfi Hha (T1 & T2 & T3)];
    destruct Hacc0 as [Hold0 Hfr0 Hpf0 Hwb0 Hfi0 Hha0 (U1 & U2 & U3)
                      | c0 ev0 Hnew0 Hch0 Hvic0 Hev0 Hfr0 Hpf0 Hwb0 Hfi0 Hha0
                          (U1 & U2 & U3)].
  - assert (f = f0) as <-.
    { destruct Hinv. apply (inv_no_duplicate0 f f0 (page r)); [done | | done].
      by rewrite E5. }
    simpl in U1, U2, U3.
    rewrite Hfr, Hfr0, Hpf, Hpf0, Hwb, Hwb0, Hfi, Hfi0, Hha, Hha0,
      T1, T2, T3, U1, U2, U3, Ht, E6, E7, E8.
    repeat split; done.
  - exfalso. apply (Hnew0 f (page r)); [by rewrite <- E5 | done].
  - exfalso. apply (Hnew f0 (page r)); [by rewrite E5 | done].
  - assert (Hcc : choose_victim fuel (without_tlb cfg) s0 = choose_victim fuel cfg s).
    { unfold choose_victim. simpl. by rewrite E5, E6, E7, E9, E10. }
    rewrite Hcc, Hch in Hch0. inversion Hch0; subst c0. rewrite Hvic in Hvic0.
    subst f0. rewrite <- E4, <- E5, <- E8 in Hev0.
    destruct (evict_paging cfg (without_tlb cfg) _ _ _ _ _ _ _ _ eq_refl Hev Hev0)
      as [V1 V2].
    simpl in U1, U2, U3.
    rewrite Hfr, Hfr0, Hpf, Hpf0, Hwb, Hwb0, Hfi, Hfi0, Hha, Hha0,
      T1, T2, T3, U1, U2, U3, Ht, E3, E5, E6, V1, V2.
    repeat split; done.
Qed.

Lemma same_paging_run fuel cfg (trace : list Access) : forall s s0 s' s0',
  inv cfg s -> inv (without_tlb cfg) s0 -> same_paging s s0 ->
  Forall valid_access trace ->
  run fuel cfg s trace = Done s' -> run fuel (without_tlb cfg) s0 trace = Done s0' ->
  same_paging s' s0'.
Proof.
  induction trace as [|r trace IH]; intros s s0 s' s0' Hinv Hinv0 Hsp Hall H H0;
    simpl in H, H0.
  - inversion H; inversion H0; by subst.
  - inv_bind H as s1 Hs1. inv_bind H0 as s2 Hs2. inversion Hall; subst.
    apply (IH s1 s2); try done.
    + by eapply step_inv.
    + by eapply step_inv.
    + eapply (same_paging_step _ _ s s0); eauto.
Qed.

(** X11. The translation cache is transparent: for the same trace, the run
    with a cache of any size and the run without one end with the same
    frames, stamps, reference and dirty bits, FIFO index and CLOCK hand,
    and the same counts of reads, writes, page faults and write-backs.
    Both runs end, given more fuel than frames. *)
Theorem tlb_is_transparent (cfg : Config) (fuel : nat) (trace : list Access) :
  valid_config cfg -> Forall valid_access trace ->
  (Z.to_nat (num_frames cfg) < fuel)%nat ->
  exists s s0,
    run fuel cfg (init cfg) trace = Done s /\
    run fuel (without_tlb cfg) (init (without_tlb cfg)) trace = Done s0 /\
    same_paging s s0.
Proof.
  intros Hc Hall Hf.
  assert (Hc0 : valid_config (without_tlb cfg)) by done.
  destruct (run_total fuel cfg trace (init cfg) (inv_init cfg Hc) Hall
              (fun _ => Hf)) as [s Hs].
  destruct (run_total fuel (without_tlb cfg) trace (init (without_tlb cfg))
              (inv_init _ Hc0) Hall (fun _ => Hf)) as [s0 Hs0].
  exists s, s0. split; [done|]. split; [done|].
  apply (same_paging_run fuel cfg trace (init cfg) (init (without_tlb cfg)));
    try done; by apply inv_init.
Qed.

Lemma tlb_is_transparent_witness :
  exists s s0,
    run 4 clock_wb_1_3 (init clock_wb_1_3) sample_trace = Done s /\
    run 4 (without_tlb clock_wb_1_3) (init (without_tlb clock_wb_1_3)) sample_trace
    = Done s0 /\
    same_paging s s0.
Proof.
  apply (tlb_is_transparent clock_wb_1_3 4 sample_trace).
  - unfold valid_config. simpl. lia.
  - exact sample_trace_valid.
  - simpl. lia.
Defined.

(** ** The translation cache switched off *)

Lemma step_tlb_off fuel cfg s r s' :
  tlb_size cfg <= 0 -> step fuel cfg s r = Done s' ->
  tlb s' = tlb s /\ tlb_hits s' = tlb_hits s /\ tlb_misses s' = tlb_misses s.
Proof.
  intros Hoff H. destruct (is_R (op r) || is_W (op r)) eqn:Hop.
  2:{ apply step_skip in H; [|done]. by subst s'. }
  assert (Hz : (0 <? tlb_size cfg) = false) by (apply Z.ltb_ge; lia).
  apply step_path in H; [|done].
  destruct H as [t f Hpos _ _ | s2 i [[_ ->] | [Hpos _]] _ H
                | s2 [[_ ->] | [Hpos _]] _ H]; try lia.
  - unfold frame_hit in H. rewrite Hz in H.
    inv_bind H as m Hm. inv_bind H as t Ht. inversion Ht; subst t.
    by inversion H; subst s'.
  - unfold page_fault, evict in H. rewrite Hz in H.
    inv_bind H as c Hch. inv_bind H as ev Hev. inv_bind H as fr Hfr.
    inv_bind H as m Hm. inv_bind H as t Ht. inversion Ht; subst t.
    inversion H; subst s'; clear H. simpl.
    assert (Ht' : ev_tlb ev = tlb s).
    { inv_bind Hev as old Hold. destruct (old =? EMPTY); [by inversion Hev|].
      inv_bind Hev as t' Ht'. inversion Ht'; subst t'.
      destruct (is_WB (write_policy cfg)); [|by inversion Hev].
      inv_bind Hev as dv Hdv. destruct (dv =? 0); [by inversion Hev|].
      inv_bind Hev as d' Hd'. by inversion Hev. }
    by rewrite Ht'.
Qed.

(** X12. With [tlb_size <= 0] the translation cache is bypassed for the
    whole run: there is no table, and no hit and no miss is ever counted,
    so the report has neither a TLB hit rate nor an AMAT. *)
Theorem tlb_switched_off (cfg : Config) (fuel : nat) (trace : list Access)
    (s : State) :
  tlb_size cfg <= 0 ->
  run fuel cfg (init cfg) trace = Done s ->
  tlb s = [] /\ tlb_hits s = 0 /\ tlb_misses s = 0 /\
  tlb_hit_rate (final_stats cfg s) = None /\ amat (final_stats cfg s) = None.
Proof.
  intros Hoff Hrun.
  assert (Hz : (0 <? tlb_size cfg) = false) by (apply Z.ltb_ge; lia).
  assert (H : tlb s = tlb (init cfg) /\ tlb_hits s = 0 /\ tlb_misses s = 0).
  { change 0 with (tlb_hits (init cfg)) at 1.
    change 0 with (tlb_misses (init cfg)) at 1.
    revert Hrun. generalize (init cfg) as s0. clear -Hoff.
    induction trace as [|r trace IH]; intros s0 Hrun; simpl in Hrun.
    - by inversion Hrun; subst.
    - inv_bind Hrun as s1 Hs1.
      destruct (step_tlb_off _ _ _ _ _ Hoff Hs1) as (<- & <- & <-). by apply IH. }
  destruct H as (Ht & Hh & Hm). simpl in Ht. rewrite Hz in Ht.
  split; [done|]. split; [done|]. split; [done|].
  unfold final_stats. rewrite Hz. simpl. done.
Qed.

Lemma tlb_switched_off_witness :
  tlb (state_after 0 fifo_wt_0_2 sample_trace) = [] /\
  tlb_misses (state_after 0 fifo_wt_0_2 sample_trace) = 0.
Proof.
  destruct (tlb_switched_off fifo_wt_0_2 0 sample_trace
              (state_after 0 fifo_wt_0_2 sample_trace)) as (H1 & _ & H3 & _).
  - simpl. lia.
  - vm_compute. reflexivity.
  - split; [exact H1 | exact H3].
Defined.

(** ** Lookups in the translation cache *)

Lemma load_defined {A : Type} (a : list A) (i : Z) :
  (exists x, load a i = Done x) \/ (load a i = Stuck /\ ~ 0 <= i < Z.of_nat (length a)).
Proof.
  destruct (decide (0 <= i < Z.of_nat (length a))) as [Hb|Hb].
  - left. by apply load_total.
  - right. split; [|done]. unfold load. destruct (Z.leb_spec 0 i); [|done].
    destruct (a !! Z.to_nat i) eqn:E; [|done].
    apply lookup_lt_Some in E. lia.
Qed.

(** Two arrays whose cells pass the tests alike are searched alike. *)
Lemma first_index_ext {A : Type} (p q : A -> bool) (a b : list A) (k : nat) :
  length a = length b ->
  (forall j x y, load a j = Done x -> load b j = Done y -> p x = q y) ->
  forall i, first_index p a k i = first_index q b k i.
Proof.
  intros Hlen Hpq. induction k as [|k IH]; intros i; [done|]. simpl.
  destruct (load_defined a i) as [[x Hx] | [Hx Hbx]];
    destruct (load_defined b i) as [[y Hy] | [Hy Hby]]; rewrite Hx, Hy; simpl.
  - rewrite (Hpq i x y Hx Hy). destruct (q y); [done | apply IH].
  - apply load_bound in Hx. lia.
  - apply load_bound in Hy. lia.
  - done.
Qed.

Lemma first_index_none {A : Type} (p : A -> bool) (a : list A) (k : nat) (i : Z) :
  0 <= i -> i + Z.of_nat k <= Z.of_nat (length a) ->
  (forall j x, load a j = Done x -> p x = false) ->
  first_index p a k i = Done None.
Proof.
  intros H0 Hk Hno. destruct (first_index_total p a k i H0 Hk) as [[j|] Hr]; [|done].
  apply first_index_Some in Hr as (_ & (x & Hx & Hp) & _).
  rewrite (Hno j x Hx) in Hp. discriminate Hp.
Qed.

(** A hit is the first valid entry of the page; it gets the time stamp. *)
Lemma tlb_lookup_hit (t : list TLBEntry) size v now t' f :
  tlb_lookup t size v now = Done (t', Some f) ->
  exists i e, load t i = Done e /\ tlb_match v e = true /\ f = frame_index e /\
    (forall j x, 0 <= j < i -> load t j = Done x -> tlb_match v x = false) /\
    t' = <[Z.to_nat i := mkTLBEntry (valid e) (vpn e) (frame_index e) now]> t.
Proof.
  unfold tlb_lookup. destruct (tlb_null t || (size <=? 0)); [discriminate|].
  intros H. inv_bind H as r Hr. destruct r as [i|]; [|discriminate].
  inv_bind H as e He. inv_bind H as t1 Ht1. inversion H; subst.
  apply first_index_Some in Hr as (_ & (x & Hx & Hp) & Hlow).
  assert (x = e) as -> by congruence. exists i, e.
  apply store_Done in Ht1 as [_ ->]. repeat split; try done.
Qed.

Lemma tlb_lookup_found (t : list TLBEntry) size v now i e :
  0 < size -> Z.of_nat (length t) = size ->
  load t i = Done e -> tlb_match v e = true ->
  (forall j x, 0 <= j < i -> load t j = Done x -> tlb_match v x = false) ->
  tlb_lookup t size v now
  = Done (<[Z.to_nat i := mkTLBEntry (valid e) (vpn e) (frame_index e) now]> t,
          Some (frame_index e)).
Proof.
  intros Hpos Hlen He Hm Hlow. unfold tlb_lookup.
  rewrite tlb_null_false by lia.
  replace (size <=? 0) with false by (symmetry; apply Z.leb_gt; lia). simpl.
  apply load_bound in He as Hb.
  rewrite (first_index_found _ _ _ 0 i e); try done; try lia. simpl.
  rewrite He. simpl. rewrite store_total by lia. done.
Qed.

Lemma tlb_lookup_missed (t : list TLBEntry) size v now :
  Z.of_nat (length t) = Z.max 0 size ->
  (forall j x, load t j = Done x -> tlb_match v x = false) ->
  tlb_lookup t size v now = Done (t, None).
Proof.
  intros Hlen Hno. unfold tlb_lookup.
  destruct (tlb_null t || (size <=? 0)) eqn:Hn; [done|].
  apply orb_false_iff in Hn as [_ Hn]. apply Z.leb_gt in Hn.
  rewrite (first_index_none _ _ _ 0); try done; lia.
Qed.

(** X13. Insert, then look up: after [tlb_insert] of a page with a frame
    into a table of [size > 0] entries, [tlb_lookup] of that page hits and
    returns that frame, whatever was in the table. *)
Theorem tlb_insert_then_lookup (t : list TLBEntry) (size v f now now' : Z)
    (t' : list TLBEntry) :
  0 < size -> Z.of_nat (length t) = size ->
  tlb_insert t size v f now = Done t' ->
  exists t'', tlb_lookup t' size v now' = Done (t'', Some f) /\
    length t'' = length t.
Proof.
  intros Hpos Hlen H.
  destruct (tlb_insert_cases t size v f now Hpos Hlen) as (i & e' & Hi & Hins & Hcase).
  rewrite Hins in H. inversion H; subst t'; clear H.
  assert (Hlow : forall j x, 0 <= j < i -> load t j = Done x -> tlb_match v x = false).
  { destruct Hcase as [e _ _ Hlow _ | e Hno _ _ _ _ | Hno _ _ _]; eauto. }
  apply insert_case_entry in Hcase as (Hv & Hp & Hf & _).
  assert (Hm : tlb_match v e' = true) by (by apply tlb_match_true).
  eexists. split.
  - rewrite <- Hf. apply tlb_lookup_found; try done.
    + rewrite length_insert. lia.
    + apply load_insert_eq. lia.
    + intros j x Hj Hx. rewrite load_insert_ne in Hx by lia. by apply (Hlow j x).
  - by rewrite !length_insert.
Qed.

Lemma tlb_insert_then_lookup_witness :
  exists t'', tlb_lookup [mkTLBEntry 1 7 0 5; mkTLBEntry 1 4 1 10; mkTLBEntry 1 9 2 3]
                3 4 11 = Done (t'', Some 1) /\
    length t'' = length full_table.
Proof.
  apply (tlb_insert_then_lookup full_table 3 4 1 10 11).
  - lia.
  - reflexivity.
  - vm_compute. reflexivity.
Defined.

Lemma tlb_lookup_miss (t : list TLBEntry) size v now t' :
  Z.of_nat (length t) = Z.max 0 size ->
  tlb_lookup t size v now = Done (t', None) ->
  t' = t /\ forall j x, load t j = Done x -> tlb_match v x = false.
Proof.
  intros Hlen H. unfold tlb_lookup in H.
  destruct (tlb_null t || (size <=? 0)) eqn:Hn.
  - inversion H; subst t'. split; [done|]. intros j x Hx. apply load_bound in Hx.
    apply orb_true_iff in Hn as [Hn|Hn].
    + destruct t; [simpl in Hx; lia | discriminate].
    + apply Z.leb_le in Hn. lia.
  - apply orb_false_iff in Hn as [_ Hn]. apply Z.leb_gt in Hn.
    inv_bind H as r Hr. destruct r as [i|].
    + inv_bind H as e He. inv_bind H as t1 Ht1. discriminate H.
    + inversion H; subst t'. split; [done|]. intros j x Hx.
      apply (first_index_None _ _ _ _ Hr j x); [|done]. apply load_bound in Hx. lia.
Qed.

(** X14. Invalidate, then look up: after [tlb_invalidate_vpn] of a page,
    [tlb_lookup] of that page misses; the entries of every other page are
    as they were, and a lookup of another page has the result it had. *)
Theorem tlb_invalidate_then_lookup (t : list TLBEntry) (size v : Z)
    (t' : list TLBEntry) :
  Z.of_nat (length t) = Z.max 0 size ->
  tlb_invalidate_vpn t size v = Done t' ->
  (forall now, tlb_lookup t' size v now = Done (t', None)) /\
  (forall j e, load t j = Done e -> vpn e <> v -> load t' j = Done e) /\
  (forall v' now t1 r,
     v' <> v -> tlb_lookup t size v' now = Done (t1, r) ->
     exists t2, tlb_lookup t' size v' now = Done (t2, r)).
Proof.
  intros Hlen H. apply tlb_invalidate_vpn_spec in H as [Hl Hpt]; [|done].
  assert (Hinvert : forall j x', load t' j = Done x' ->
            exists x, load t j = Done x /\
              x' = (if tlb_match v x then invalidated x else x)).
  { intros j x' Hx'. destruct (load_total t j) as [x Hx].
    { apply load_bound in Hx'. lia. }
    exists x. split; [done|]. rewrite (Hpt _ _ Hx) in Hx'. congruence. }
  assert (Hkeep : forall j e, load t j = Done e -> vpn e <> v -> load t' j = Done e).
  { intros j e He Hne. rewrite (Hpt _ _ He).
    replace (tlb_match v e) with false; [done|].
    symmetry. apply tlb_match_false. by right. }
  split; [|split; [done|]].
  - intros now. apply tlb_lookup_missed; [lia|].
    intros j x' Hx'. destruct (Hinvert j x' Hx') as (x & _ & ->).
    destruct (tlb_match v x) eqn:E; [|done].
    apply tlb_match_false. by left.
  - intros v' now t1 r Hne Hlook. destruct r as [f|].
    + apply tlb_lookup_hit in Hlook as (i & e & He & Hm & -> & Hlow & _).
      apply tlb_match_true in Hm as Hm'. destruct Hm' as [_ Hp].
      apply load_bound in He as Hb.
      eexists. apply tlb_lookup_found; try done; try lia.
      * apply Hkeep; [done | congruence].
      * intros j x' Hj Hx'. destruct (Hinvert j x' Hx') as (x & Hx & ->).
        destruct (tlb_match v x) eqn:E; [|by apply (Hlow j x)].
        apply tlb_match_false. by left.
    + apply tlb_lookup_miss in Hlook as [_ Hno]; [|done].
      exists t'. apply tlb_lookup_missed; [lia|].
      intros j x' Hx'. destruct (Hinvert j x' Hx') as (x & Hx & ->).
      destruct (tlb_match v x) eqn:E; [|by apply (Hno j x)].
      apply tlb_match_false. by left.
Qed.

Lemma tlb_invalidate_then_lookup_witness :
  tlb_lookup [mkTLBEntry 1 7 0 5; mkTLBEntry 0 8 1 3; mkTLBEntry 1 9 2 3] 3 8 20
  = Done ([mkTLBEntry 1 7 0 5; mkTLBEntry 0 8 1 3; mkTLBEntry 1 9 2 3], None).
Proof.
  apply (tlb_invalidate_then_lookup full_table 3 8).
  - reflexivity.
  - vm_compute. reflexivity.
Defined.

(** ** One valid entry per page *)

Lemma tlb_unique_keys (t t' : list TLBEntry) :
  (forall j e', load t' j = Done e' -> valid e' <> 0 ->
     exists e, load t j = Done e /\ valid e <> 0 /\ vpn e = vpn e') ->
  tlb_unique t -> tlb_unique t'.
Proof.
  intros Hk Hu i j e1 e2 H1 H2 V1 V2 Hp.
  destruct (Hk i e1 H1 V1) as (x1 & X1 & W1 & P1).
  destruct (Hk j e2 H2 V2) as (x2 & X2 & W2 & P2).
  apply (Hu i j x1 x2); try done. congruence.
Qed.

Lemma tlb_lookup_unique (t t' : list TLBEntry) size v now r :
  tlb_lookup t size v now = Done (t', r) -> tlb_unique t -> tlb_unique t'.
Proof.
  intros H. apply tlb_lookup_spec in H. destruct r as [f|]; [|by subst].
  destruct H as (i & e & He & _ & _ & Hs). apply tlb_unique_keys.
  intros j e' Hj Hv.
  destruct (load_store _ _ _ _ _ _ Hs Hj) as [[-> ->] | [_ Hl]]; eauto.
Qed.

Lemma tlb_invalidate_unique (t t' : list TLBEntry) size v :
  Z.of_nat (length t) = Z.max 0 size ->
  tlb_invalidate_vpn t size v = Done t' -> tlb_unique t -> tlb_unique t'.
Proof.
  intros Hlen H. apply tlb_invalidate_vpn_spec in H as [Hl Hpt]; [|done].
  apply tlb_unique_keys. intros j e' Hj Hv.
  destruct (load_total t j) as [e He].
  { apply load_bound in Hj. lia. }
  rewrite (Hpt _ _ He) in Hj. destruct (tlb_match v e).
  - inversion Hj; subst e'. simpl in Hv. done.
  - inversion Hj; subst e'. eauto.
Qed.

Lemma tlb_unique_fresh (t : list TLBEntry) (i v f now : Z) :
  0 <= i < Z.of_nat (length t) ->
  (forall j x, load t j = Done x -> tlb_match v x = false) ->
  tlb_unique t -> tlb_unique (<[Z.to_nat i := mkTLBEntry 1 v f now]> t).
Proof.
  intros Bi Hno Hu j k e1 e2 H1 H2 V1 V2 Hp.
  destruct (Z.eq_dec j i) as [-> | Hj]; destruct (Z.eq_dec k i) as [-> | Hk];
    try done.
  - rewrite load_insert_eq in H1 by done. rewrite load_insert_ne in H2 by done.
    assert (e1 = mkTLBEntry 1 v f now) as -> by congruence. simpl in Hp.
    pose proof (Hno k e2 H2) as Hf. apply tlb_match_false in Hf as [|]; congruence.
  - rewrite load_insert_ne in H1 by done. rewrite load_insert_eq in H2 by done.
    assert (e2 = mkTLBEntry 1 v f now) as -> by congruence. simpl in Hp.
    pose proof (Hno j e1 H1) as Hf. apply tlb_match_false in Hf as [|]; congruence.
  - rewrite load_insert_ne in H1 by done. rewrite load_insert_ne in H2 by done.
    by apply (Hu j k e1 e2).
Qed.

Lemma tlb_insert_unique (t t' : list TLBEntry) size v f now :
  Z.of_nat (length t) = Z.max 0 size ->
  tlb_insert t size v f now = Done t' -> tlb_unique t -> tlb_unique t'.
Proof.
  intros Hlen H Hu. destruct (Z.ltb_spec 0 size) as [Hpos|Hle].
  2:{ unfold tlb_insert in H.
      replace (size <=? 0) with true in H by (symmetry; apply Z.leb_le; lia).
      rewrite orb_true_r in H. by inversion H; subst. }
  destruct (tlb_insert_cases t size v f now Hpos) as (i & e' & Hi & Hins & Hcase);
    [lia|].
  rewrite Hins in H. inversion H; subst t'; clear H.
  assert (Bi : 0 <= i < Z.of_nat (length t)) by lia.
  destruct Hcase as [e He Hm _ -> | e Hno _ _ _ -> | Hno _ _ ->].
  - revert Hu. apply tlb_unique_keys. intros j x Hj Hv.
    destruct (Z.eq_dec j i) as [-> | Hne].
    + rewrite load_insert_eq in Hj by done. inversion Hj; subst x. simpl in *. eauto.
    + rewrite load_insert_ne in Hj by done. eauto.
  - by apply (tlb_unique_fresh t i v f now).
  - by apply (tlb_unique_fresh t i v f now).
Qed.

Lemma evict_tlb cfg (t : list TLBEntry) wb (fr d : list Z) victim ev :
  evict cfg t wb fr d victim = Done ev ->
  ev_tlb ev = t \/
  (0 < tlb_size cfg /\
   exists old, tlb_invalidate_vpn t (tlb_size cfg) (uint_of_int old) = Done (ev_tlb ev)).
Proof.
  intros H. unfold evict in H. inv_bind H as old Hold.
  destruct (old =? EMPTY); [inversion H; by left|].
  inv_bind H as t' Ht'.
  assert (Hev : ev_tlb ev = t').
  { destruct (is_WB (write_policy cfg)); [|by inversion H].
    inv_bind H as dv Hdv. destruct (dv =? 0); [by inversion H|].
    inv_bind H as d' Hd'. by inversion H. }
  rewrite Hev. destruct (Z.ltb_spec 0 (tlb_size cfg)).
  - right. eauto.
  - left. by inversion Ht'.
Qed.

Lemma tlb_unique_step fuel cfg s r s' :
  inv cfg s -> tlb_unique (tlb s) -> valid_access r ->
  step fuel cfg s r = Done s' -> tlb_unique (tlb s').
Proof.
  intros Hinv Hu Hr H. destruct (is_R (op r) || is_W (op r)) eqn:Hop.
  2:{ apply step_skip in H; [|done]. by subst s'. }
  apply step_path in H; [|done]. pose proof Hinv as [].
  destruct H as [t f Hpos Hl H | s2 i Hs2 _ H | s2 Hs2 _ H].
  - unfold tlb_hit in H. inv_bind H as m Hm. inversion H; subst s'. simpl.
    by eapply tlb_lookup_unique.
  - assert (E : tlb s2 = tlb s) by (by destruct Hs2 as [[_ ->] | [_ ->]]).
    unfold frame_hit in H. inv_bind H as m Hm. inv_bind H as t Ht.
    inversion H; subst s'. simpl. rewrite E in Ht.
    destruct (0 <? tlb_size cfg); [|by inversion Ht; subst].
    by eapply tlb_insert_unique.
  - assert (E : tlb s2 = tlb s) by (by destruct Hs2 as [[_ ->] | [_ ->]]).
    unfold page_fault in H.
    inv_bind H as c Hch. inv_bind H as ev Hev. inv_bind H as fr Hfr.
    inv_bind H as m Hm. inv_bind H as t Ht. inversion H; subst s'. simpl.
    rewrite E in Hev.
    assert (Hue : tlb_unique (ev_tlb ev) /\ length (ev_tlb ev) = length (tlb s)).
    { apply evict_tlb in Hev as [-> | (_ & old & Hi)]; [done|]. split.
      - by eapply tlb_invalidate_unique.
      - apply tlb_invalidate_vpn_spec in Hi as [Hl _]; done. }
    destruct Hue as [Hue Hle].
    destruct (0 <? tlb_size cfg); [|by inversion Ht; subst].
    eapply tlb_insert_unique; [|exact Ht|done]. lia.
Qed.

(** X15. In every reachable state no page has two valid entries in the
    translation cache, so an invalidation clears at most one entry. *)
Theorem tlb_holds_a_page_once (cfg : Config) (s : State) :
  valid_config cfg -> reachable cfg s ->
  forall i j e1 e2,
    load (tlb s) i = Done e1 -> load (tlb s) j = Done e2 ->
    valid e1 <> 0 -> valid e2 <> 0 -> vpn e1 = vpn e2 -> i = j.
Proof.
  intros Hc Hreach.
  apply (reachable_invariant cfg (fun s => tlb_unique (tlb s)) Hc); [| |done].
  - intros i j e1 e2 H1 _ V1. exfalso. apply V1. simpl in H1.
    destruct (0 <? tlb_size cfg).
    + apply load_replicate in H1. by subst e1.
    + apply load_bound in H1. simpl in H1. lia.
  - intros fuel s0 r s1. apply tlb_unique_step.
Qed.

Lemma tlb_holds_a_page_once_witness :
  exists e, load (tlb (state_after 3 lru_wb_2_2 sample_trace)) 1 = Done e /\
            vpn e = 2 /\ (1 : Z) = 1.
Proof.
  exists (mkTLBEntry 1 2 1 8). split; [vm_compute; reflexivity|].
  split; [reflexivity|].
  apply (tlb_holds_a_page_once lru_wb_2_2 (state_after 3 lru_wb_2_2 sample_trace)
           ltac:(unfold valid_config; simpl; lia)
           ltac:(exists 3%nat, sample_trace; split;
                 [exact sample_trace_valid | vm_compute; reflexivity])
           1 1 (mkTLBEntry 1 2 1 8) (mkTLBEntry 1 2 1 8)).
  - vm_compute. reflexivity.
  - vm_compute. reflexivity.
  - simpl. lia.
  - simpl. lia.
  - reflexivity.
Defined.

(** X16. In a reachable state a TLB hit returns the very frame the frame
    scan would find: the page of the lookup is in that frame, and the scan
    for the page stops at that frame. *)
Theorem tlb_hit_agrees_with_scan (cfg : Config) (s : State) (v now f : Z)
    (t' : list TLBEntry) :
  valid_config cfg -> reachable cfg s ->
  tlb_lookup (tlb s) (tlb_size cfg) v now = Done (t', Some f) ->
  load (frames s) f = Done v /\
  first_index (fun x => x =? int_of_uint v) (frames s)
    (Z.to_nat (num_frames cfg)) 0 = Done (Some f).
Proof.
  intros Hc Hreach Hl. destruct (reachable_inv cfg s Hc Hreach).
  apply tlb_lookup_hit in Hl as (i & e & He & Hm & -> & _).
  apply tlb_match_true in Hm as [Hv Hp].
  destruct (inv_tlb0 i e He Hv) as [Hr Hf]. rewrite Hp in Hr, Hf.
  split; [done|]. apply load_bound in Hf as Hb.
  rewrite int_of_uint_small by (unfold VPN_LIMIT in Hr; lia).
  apply (first_index_found _ _ _ 0 (frame_index e) v);
    [lia | lia | done | apply Z.eqb_refl |].
  intros j y Hj Hy. apply Z.eqb_neq. intros ->.
  assert (j = frame_index e); [|lia].
  apply (inv_no_duplicate0 j (frame_index e) v); try done. unfold EMPTY. lia.
Qed.

Lemma tlb_hit_agrees_with_scan_witness :
  load (frames (state_after 3 lru_wb_2_2 sample_trace)) 1 = Done 2.
Proof.
  apply (tlb_hit_agrees_with_scan lru_wb_2_2 (state_after 3 lru_wb_2_2 sample_trace)
           2 9 1
           [mkTLBEntry 1 3 0 7; mkTLBEntry 1 2 1 9]).
  - unfold valid_config. simpl. lia.
  - exists 3%nat, sample_trace. split; [exact sample_trace_valid|].
    vm_compute. reflexivity.
  - vm_compute. reflexivity.
Defined.

Lemma ahead_nonneg (h j n : Z) : 0 <= h < n -> 0 <= j < n -> 0 <= ahead h j n < n.
Proof.
  intros Hh Hj. unfold ahead. destruct (Z.leb_spec h j); lia.
Qed.

Lemma ahead_succ (h j n : Z) :
  0 <= h < n -> 0 <= j < n -> j <> h ->
  ahead (Z.rem (h + 1) n) j n = ahead h j n - 1.
Proof.
  intros Hh Hj Hne. rewrite rem_succ by done. unfold ahead.
  destruct (Z.eqb_spec (h + 1) n); destruct (Z.leb_spec h j);
    repeat match goal with |- context [?a <=? ?b] => destruct (Z.leb_spec a b) end;
    lia.
Qed.

Lemma ahead_mod (h k n : Z) :
  0 <= h < n -> 0 <= k < n -> ahead h ((h + k) mod n) n = k.
Proof.
  intros Hh Hk. unfold ahead. destruct (Z_lt_le_dec (h + k) n).
  - rewrite Z.mod_small by lia. destruct (Z.leb_spec h (h + k)); lia.
  - replace (h + k) with (h + k - n + 1 * n) by lia.
    rewrite Z.mod_add by lia. rewrite Z.mod_small by lia.
    destruct (Z.leb_spec h (h + k - n)); lia.
Qed.

(** The hand gives every frame it passes a second chance. *)
Lemma clock_scan_passes (n : Z) (fuel : nat) : forall (rb : list Z) h seen c,
  Z.of_nat (length rb) = n -> 0 <= h < n ->
  clock_scan fuel rb h n seen = Done c ->
  exists k : nat,
    cs_visits c = (seen + k + 1)%nat /\
    cs_victim c = (h + Z.of_nat k) mod n /\
    cs_hand c = Z.rem (cs_victim c + 1) n /\
    length (cs_ref_bits c) = length rb /\
    forall j b, load rb j = Done b ->
      (ahead h j n < Z.of_nat k -> b <> 0) /\
      load (cs_ref_bits c) j = Done (if ahead h j n <? Z.of_nat k then 0 else b).
Proof.
  induction fuel as [|fuel IH]; intros rb h seen c Hlen Hh H; [discriminate|].
  simpl in H. inv_bind H as x Hx. destruct (Z.eqb_spec x 0) as [->|Hnz].
  - inversion H; subst c; clear H. exists 0%nat. simpl.
    split; [lia|]. split; [by rewrite Z.add_0_r, Z.mod_small|].
    split; [done|]. split; [done|].
    intros j b Hb. apply load_bound in Hb as Hj.
    pose proof (ahead_nonneg h j n Hh ltac:(lia)) as Ha.
    split; [lia|]. destruct (Z.ltb_spec (ahead h j n) (Z.of_nat 0)); [lia | done].
  - inv_bind H as rb' Hrb'.
    pose proof (rem_succ_bound h n Hh) as Hrb.
    apply store_length in Hrb' as Hl'.
    destruct (IH rb' (Z.rem (h + 1) n) (S seen) c) as (k & K1 & K2 & K3 & K4 & K5);
      [lia | done | done |].
    exists (S k). split; [lia|]. split.
    { rewrite K2, Z.rem_mod_nonneg by lia. rewrite Zplus_mod_idemp_l.
      f_equal. lia. }
    split; [done|]. split; [lia|].
    intros j b Hb. apply load_bound in Hb as Hj.
    destruct (Z.eq_dec j h) as [->|Hne].
    + assert (b = x) as -> by congruence.
      split; [done|].
      destruct (K5 h 0) as [_ ->]; [by eapply load_store_eq|].
      assert (E : ahead h h n = 0) by (unfold ahead; destruct (Z.leb_spec h h); lia).
      rewrite E. destruct (Z.ltb_spec 0 (Z.of_nat (S k))); [|lia].
      by destruct (_ <? _).
    + assert (Hb' : load rb' j = Done b)
        by (by rewrite (load_store_ne _ _ _ _ _ Hrb' Hne)).
      destruct (K5 j b Hb') as [N1 N2].
      rewrite (ahead_succ h j n Hh ltac:(lia) Hne) in N1, N2.
      split; [intros Ha; apply N1; lia|]. rewrite N2.
      destruct (Z.ltb_spec (ahead h j n - 1) (Z.of_nat k));
        destruct (Z.ltb_spec (ahead h j n) (Z.of_nat (S k))); try done; lia.
Qed.

(** X17. CLOCK is the second-chance policy.  In a reachable state, with
    more fuel than frames, the scan passes [k <= num_frames] frames from
    the hand on: each of them had its reference bit set and has it cleared;
    no other bit changes; the victim is the next frame, [k] past the hand
    going round, and the hand is left one past the victim.  Unless the scan
    went all the way round, the victim is a frame whose bit was clear. *)
Theorem clock_second_chance (cfg : Config) (s : State) (fuel : nat) :
  valid_config cfg -> reachable cfg s ->
  (Z.to_nat (num_frames cfg) < fuel)%nat ->
  exists c k,
    clock_scan fuel (ref_bits s) (clock_hand s) (num_frames cfg) 0 = Done c /\
    0 <= k <= num_frames cfg /\
    Z.of_nat (cs_visits c) = k + 1 /\
    cs_victim c = (clock_hand s + k) mod num_frames cfg /\
    cs_hand c = (cs_victim c + 1) mod num_frames cfg /\
    (forall j b, load (ref_bits s) j = Done b ->
       (ahead (clock_hand s) j (num_frames cfg) < k ->
          b = 1 /\ load (cs_ref_bits c) j = Done 0) /\
       (k <= ahead (clock_hand s) j (num_frames cfg) ->
          load (cs_ref_bits c) j = Done b)) /\
    (k < num_frames cfg -> load (ref_bits s) (cs_victim c) = Done 0).
Proof.
  intros Hc Hreach Hf. pose proof Hc as Hn. unfold valid_config in Hn.
  destruct (reachable_inv cfg s Hc Hreach).
  destruct (reachable_blank cfg s Hc Hreach) as (Hbits & _ & _).
  pose proof (set_bits_le (ref_bits s)) as Hle.
  destruct (clock_scan_ends (num_frames cfg) fuel (ref_bits s) (clock_hand s) 0)
    as (c & Hrun & Hvis & _ & Hvic & _ & _ & Hz); [lia..|].
  assert (Hlen : Z.of_nat (length (ref_bits s)) = num_frames cfg) by lia.
  destruct (clock_scan_passes _ _ _ _ _ _ Hlen inv_hand0 Hrun)
    as (k & K1 & K2 & K3 & K4 & K5).
  exists c, (Z.of_nat k). split; [done|]. split; [lia|]. split; [lia|].
  split; [done|]. split; [rewrite K3; apply Z.rem_mod_nonneg; lia|].
  split.
  - intros j b Hb. destruct (K5 j b Hb) as [N1 N2]. split.
    + intros Ha. split; [destruct (Hbits j b Hb); [by apply N1 in Ha | done]|].
      rewrite N2. by destruct (Z.ltb_spec (ahead (clock_hand s) j (num_frames cfg))
                                 (Z.of_nat k)); [|lia].
    + intros Ha. rewrite N2.
      by destruct (Z.ltb_spec (ahead (clock_hand s) j (num_frames cfg))
                    (Z.of_nat k)); [lia|].
  - intros Hk. destruct (load_total (ref_bits s) (cs_victim c)) as [b Hb]; [lia|].
    destruct (K5 _ b Hb) as [_ N2]. rewrite Hz in N2. rewrite K2 in N2 at 1.
    rewrite ahead_mod in N2 by lia. rewrite Z.ltb_irrefl in N2. congruence.
Qed.

Lemma clock_second_chance_witness :
  exists c k,
    clock_scan 4 (ref_bits (state_after 4 clock_wb_1_3 sample_trace))
      (clock_hand (state_after 4 clock_wb_1_3 sample_trace)) 3 0 = Done c /\
    0 <= k <= 3 /\ Z.of_nat (cs_visits c) = k + 1.
Proof.
  destruct (clock_second_chance clock_wb_1_3
              (state_after 4 clock_wb_1_3 sample_trace) 4
              ltac:(unfold valid_config; simpl; lia)
              ltac:(exists 4%nat, sample_trace; split;
                    [exact sample_trace_valid | vm_compute; reflexivity])
              ltac:(simpl; lia))
    as (c & k & H1 & H2 & H3 & _).
  exists c, k. split; [exact H1|]. split; [exact H2 | exact H3].
Defined.

(** ** The command line *)

Section CommandLineProperties.

Variable atoi : string -> Z.

Lemma not_an_option (a : string) :
  a <> "-a" -> a <> "-f" -> a <> "-t" -> a <> "-wt" -> a <> "-wb" ->
  is_option a = false.
Proof.
  intros H1 H2 H3 H4 H5. unfold is_option.
  apply String.eqb_neq in H1, H2, H3, H4, H5. by rewrite H1, H2, H3, H4, H5.
Qed.

Lemma is_option_false (a : string) :
  is_option a = false ->
  a <> "-a" /\ a <> "-f" /\ a <> "-t" /\ a <> "-wt" /\ a <> "-wb".
Proof.
  unfold is_option. rewrite !orb_false_iff, !String.eqb_neq. tauto.
Qed.

(** One turn of the argument loop, on a command line that is accepted. *)
Ltac parse_cases H a rest v rest' :=
  simpl in *;
  destruct (String.eqb_spec a "-a") as [->|?];
    [destruct rest as [|v rest']; [discriminate H|]; simpl in *;
     destruct (String.eqb_spec v "fifo") as [->|?];
       [|destruct (String.eqb_spec v "lru") as [->|?];
          [|destruct (String.eqb_spec v "clock") as [->|?]; [|discriminate H]]]
    |destruct (String.eqb_spec a "-f") as [->|?];
       [destruct rest as [|v rest']; [discriminate H|]; simpl in *;
        destruct (Z.leb_spec (atoi v) 0); [discriminate H|]
       |destruct (String.eqb_spec a "-t") as [->|?];
          [destruct rest as [|v rest']; [discriminate H|]; simpl in *
          |destruct (String.eqb_spec a "-wt") as [->|?];
             [|destruct (String.eqb_spec a "-wb") as [->|?]]]]].

Lemma parse_loop_accepts (n : nat) : forall args cfg tp cfg' tp',
  (length args <= n)%nat ->
  parse_loop atoi cfg tp args = Parsed (cfg', tp') ->
  0 < num_frames cfg -> 0 <= tlb_size cfg ->
  0 < num_frames cfg' /\ 0 <= tlb_size cfg' /\
  (tp' = tp \/ exists p, tp' = Some p /\ p ∈ args /\ is_option p = false).
Proof.
  induction n as [|n IH]; intros args cfg tp cfg' tp' Hn H Hf Ht;
    (destruct args as [|a rest];
     [inversion H; subst; by eauto|]); [simpl in Hn; lia|].
  parse_cases H a rest v rest';
    (apply IH in H; [|lia| simpl; try done; try lia ..]);
    try (destruct (Z.ltb_spec (atoi v) 0); lia);
    destruct H as (H1 & H2 & [H3 | (p & H3 & H4 & H5)]);
    (split; [done|]; split; [done|]);
    try (left; done);
    try (right; exists p; split; [done|]; split; [|done];
         rewrite !elem_of_cons; tauto).
  right. inversion H3; subst. exists a. split; [done|].
  split; [apply elem_of_cons; by left | by apply not_an_option].
Qed.

Lemma parse_loop_defaults (n : nat) : forall args cfg tp cfg' tp',
  (length args <= n)%nat ->
  parse_loop atoi cfg tp args = Parsed (cfg', tp') ->
  ("-a" ∉ args -> alg cfg' = alg cfg) /\
  ("-f" ∉ args -> num_frames cfg' = num_frames cfg) /\
  ("-t" ∉ args -> tlb_size cfg' = tlb_size cfg) /\
  ("-wb" ∉ args -> write_policy cfg = WP_WRITE_THROUGH ->
     write_policy cfg' = WP_WRITE_THROUGH) /\
  ("-wt" ∉ args -> write_policy cfg = WP_WRITE_BACK ->
     write_policy cfg' = WP_WRITE_BACK).
Proof.
  induction n as [|n IH]; intros args cfg tp cfg' tp' Hn H;
    (destruct args as [|a rest];
     [inversion H; subst; by eauto|]); [simpl in Hn; lia|].
  parse_cases H a rest v rest';
    (apply IH in H; [|lia]); simpl in H;
    destruct H as (H1 & H2 & H3 & H4 & H5);
    rewrite ?not_elem_of_cons;
    (split; [|split; [|split; [|split]]]);
    intros; try tauto;
    try (apply H1; tauto); try (apply H2; tauto); try (apply H3; tauto);
    try (apply H4; tauto); try (apply H5; tauto).
Qed.

Lemma parse_loop_app (n : nat) : forall args more cfg tp cfg' tp',
  (length args <= n)%nat ->
  parse_loop atoi cfg tp args = Parsed (cfg', tp') ->
  parse_loop atoi cfg tp (args ++ more) = parse_loop atoi cfg' tp' more.
Proof.
  induction n as [|n IH]; intros args more cfg tp cfg' tp' Hn H;
    (destruct args as [|a rest];
     [inversion H; subst; by eauto|]); [simpl in Hn; lia|].
  parse_cases H a rest v rest'; apply IH; try done; lia.
Qed.

Lemma parse_args_Parsed (args : list string) cfg p :
  parse_args atoi args = Parsed (cfg, p) <->
  parse_loop atoi default_config None args = Parsed (cfg, Some p).
Proof.
  unfold parse_args.
  destruct (parse_loop atoi default_config None args) as [[c [q|]]| |];
    split; intros H; try discriminate H; by inversion H.
Qed.

(** X18. A command line that is accepted gives a configuration that the
    simulation can run with: at least one frame and a TLB size that is not
    negative.  The trace file is one of the arguments, and never one of the
    option strings. *)
Theorem accepted_command_line (args : list string) (cfg : Config) (p : string) :
  parse_args atoi args = Parsed (cfg, p) ->
  valid_config cfg /\ 0 <= tlb_size cfg /\ p ∈ args /\ is_option p = false.
Proof.
  intros H. apply parse_args_Parsed in H.
  apply (parse_loop_accepts (length args)) in H;
    [|done| unfold default_config, DEFAULT_NUM_FRAMES; simpl; lia ..].
  destruct H as (H1 & H2 & [H3 | (q & H3 & H4 & H5)]); [discriminate H3|].
  inversion H3; subst q. done.
Qed.

(** X19. An option that does not occur on an accepted command line keeps
    its default: FIFO, three frames, no TLB, write-through. *)
Theorem defaults_of_absent_options (args : list string) (cfg : Config) (p : string) :
  parse_args atoi args = Parsed (cfg, p) ->
  ("-a" ∉ args -> alg cfg = ALG_FIFO) /\
  ("-f" ∉ args -> num_frames cfg = 3) /\
  ("-t" ∉ args -> tlb_size cfg = 0) /\
  ("-wb" ∉ args -> write_policy cfg = WP_WRITE_THROUGH).
Proof.
  intros H. apply parse_args_Parsed in H.
  apply (parse_loop_defaults (length args)) in H; [|done].
  destruct H as (H1 & H2 & H3 & H4 & _).
  split; [done|]. split; [done|]. split; [done|]. intros Hwb. by apply H4.
Qed.

(** X20. Arguments are read from left to right and the last one wins: after
    an accepted command line, one more option replaces the value of that
    option and leaves the rest as it was, be it [-wb], [-wt], [-a] with a
    policy, [-f] with a positive number or [-t] with a number, a negative
    one counting as 0; the value of [-a], [-f] and [-t] is taken with the
    option and is not the trace file.  [-f] with a number that is not
    positive, [-a] with any other word and an option whose value is missing
    are refused.  One more free argument replaces the trace file. *)
Theorem last_argument_wins (args : list string) (cfg : Config) (p : string) :
  parse_args atoi args = Parsed (cfg, p) ->
  parse_args atoi (args ++ ["-wb"]) = Parsed (with_write_policy cfg WP_WRITE_BACK, p) /\
  parse_args atoi (args ++ ["-wt"]) = Parsed (with_write_policy cfg WP_WRITE_THROUGH, p) /\
  parse_args atoi (args ++ ["-a"; "fifo"]) = Parsed (with_alg cfg ALG_FIFO, p) /\
  parse_args atoi (args ++ ["-a"; "lru"]) = Parsed (with_alg cfg ALG_LRU, p) /\
  parse_args atoi (args ++ ["-a"; "clock"]) = Parsed (with_alg cfg ALG_CLOCK, p) /\
  (forall v, v <> "fifo" -> v <> "lru" -> v <> "clock" ->
     parse_args atoi (args ++ ["-a"; v]) = UsageError) /\
  (forall v, 0 < atoi v ->
     parse_args atoi (args ++ ["-f"; v]) = Parsed (with_num_frames cfg (atoi v), p)) /\
  (forall v, atoi v <= 0 -> parse_args atoi (args ++ ["-f"; v]) = FramesError) /\
  (forall v, 0 <= atoi v ->
     parse_args atoi (args ++ ["-t"; v]) = Parsed (with_tlb_size cfg (atoi v), p)) /\
  (forall v, atoi v < 0 ->
     parse_args atoi (args ++ ["-t"; v]) = Parsed (with_tlb_size cfg 0, p)) /\
  parse_args atoi (args ++ ["-a"]) = UsageError /\
  parse_args atoi (args ++ ["-f"]) = UsageError /\
  parse_args atoi (args ++ ["-t"]) = UsageError /\
  (forall q, is_option q = false -> parse_args atoi (args ++ [q]) = Parsed (cfg, q)).
Proof.
  intros H. apply parse_args_Parsed in H.
  pose proof (fun more => parse_loop_app (length args) args more _ _ _ _
                            (Nat.le_refl _) H) as Happ.
  unfold parse_args. rewrite !Happ. simpl.
  do 5 (split; [done|]). split; [|split; [|split; [|split; [|split]]]].
  - intros v H1 H2 H3. rewrite Happ. simpl.
    apply String.eqb_neq in H1, H2, H3. by rewrite H1, H2, H3.
  - intros v Hv. rewrite Happ. simpl.
    destruct (Z.leb_spec (atoi v) 0); [lia | done].
  - intros v Hv. rewrite Happ. simpl.
    destruct (Z.leb_spec (atoi v) 0); [done | lia].
  - intros v Hv. rewrite Happ. simpl.
    destruct (Z.ltb_spec (atoi v) 0); [lia | done].
  - intros v Hv. rewrite Happ. simpl.
    destruct (Z.ltb_spec (atoi v) 0); [done | lia].
  - do 3 (split; [done|]).
    intros q Hq. rewrite Happ. simpl.
    apply is_option_false in Hq as (H1 & H2 & H3 & H4 & H5).
    apply String.eqb_neq in H1, H2, H3, H4, H5. by rewrite H1, H2, H3, H4, H5.
Qed.

End CommandLineProperties.

Lemma accepted_command_line_witness :
  valid_config (mkConfig ALG_LRU WP_WRITE_BACK 2 4) /\
  0 <= tlb_size (mkConfig ALG_LRU WP_WRITE_BACK 2 4) /\
  "trace.txt" ∈ sample_args /\ is_option "trace.txt" = false.
Proof.
  apply (accepted_command_line decimal sample_args). vm_compute. reflexivity.
Defined.

Lemma defaults_of_absent_options_witness :
  exists cfg, parse_args decimal ["-t"; "4"; "trace.txt"] = Parsed (cfg, "trace.txt") /\
    num_frames cfg = 3.
Proof.
  exists (mkConfig ALG_FIFO WP_WRITE_THROUGH 4 3).
  split; [vm_compute; reflexivity|].
  apply (defaults_of_absent_options decimal ["-t"; "4"; "trace.txt"]
           (mkConfig ALG_FIFO WP_WRITE_THROUGH 4 3) "trace.txt"
           ltac:(vm_compute; reflexivity)).
  rewrite !not_elem_of_cons. split; [done|]. split; [done|]. split; [done|].
  apply not_elem_of_nil.
Defined.

Lemma last_argument_wins_witness :
  parse_args decimal (sample_args ++ ["-wt"])
  = Parsed (mkConfig ALG_LRU WP_WRITE_THROUGH 2 4, "trace.txt") /\
  parse_args decimal (sample_args ++ ["-t"; "8"])
  = Parsed (mkConfig ALG_LRU WP_WRITE_BACK 8 4, "trace.txt").
Proof.
  destruct (last_argument_wins decimal sample_args
              (mkConfig ALG_LRU WP_WRITE_BACK 2 4) "trace.txt")
    as (_ & H2 & _ & _ & _ & _ & _ & _ & H9 & _).
  - vm_compute. reflexivity.
  - split; [exact H2|]. apply (H9 "8"). vm_compute. discriminate.
Defined.

(** ** The whole program *)

Section ProgramProperties.

Variable atoi : string -> Z.
Variable fopen : string -> option (list Access).
Variable frames_allocated : bool.
Variable tlb_allocated : bool.

(** X21. With a command line that is accepted, a file system whose traces
    hold 32-bit addresses and more fuel than frames, [main] ends, and in
    one of four ways.  It ends with status 1 when the trace file does not
    open, when the arrays of the frames are not allocated, and when the TLB
    is on and its table is not allocated.  In every other case the
    simulation loop runs to its end, without reading or writing an array
    out of its bounds and without looping for ever in CLOCK, and [main]
    ends with the report of the last state; the frame table and the TLB
    have the sizes given on the command line. *)
Theorem accepted_run_ends (args : list string) (cfg : Config) (p : string)
    (fuel : nat) :
  (forall q t, fopen q = Some t -> Forall valid_access t) ->
  parse_args atoi args = Parsed (cfg, p) ->
  (Z.to_nat (num_frames cfg) < fuel)%nat ->
  exists e,
    main atoi fopen frames_allocated tlb_allocated fuel args = Done e /\
    (fopen p = None -> e = ExitOpen) /\
    (forall trace, fopen p = Some trace ->
       (frames_allocated = false -> e = ExitFrameMetadata) /\
       (frames_allocated = true -> 0 < tlb_size cfg -> tlb_allocated = false ->
          e = ExitTLB) /\
       (frames_allocated = true -> tlb_size cfg <= 0 \/ tlb_allocated = true ->
          exists s,
            run fuel cfg (init cfg) trace = Done s /\
            e = ExitStats (final_stats cfg s) /\
            Z.of_nat (length (frames s)) = num_frames cfg /\
            Z.of_nat (length (tlb s)) = tlb_size cfg)).
Proof.
  intros Hfs H Hf. unfold main. rewrite H.
  apply parse_args_Parsed in H.
  apply (parse_loop_accepts atoi (length args)) in H;
    [|done| unfold default_config, DEFAULT_NUM_FRAMES; simpl; lia ..].
  destruct H as (H1 & H2 & _).
  destruct (fopen p) as [trace|] eqn:Hopen.
  2:{ exists ExitOpen. split; [done|]. split; [done|]. intros trace Ht. discriminate Ht. }
  destruct (run_total fuel cfg trace (init cfg)) as [s Hs];
    [by apply inv_init | by apply (Hfs p) | done |].
  destruct (reachable_inv cfg s H1) as [];
    [exists fuel, trace; split; [by apply (Hfs p) | done]|].
  destruct frames_allocated; simpl.
  2:{ exists ExitFrameMetadata. split; [done|]. split; [done|].
      intros t Ht. split; [done|]. split; intros; discriminate. }
  destruct (Z.ltb_spec 0 (tlb_size cfg)) as [Hon|Hoff];
    destruct tlb_allocated; simpl.
  2:{ exists ExitTLB. split; [done|]. split; [done|].
      intros t Ht. split; [done|]. split; [done|].
      intros _ [Hle | Hal]; [lia | discriminate Hal]. }
  all: rewrite Hs; simpl; exists (ExitStats (final_stats cfg s));
    (split; [done|]); (split; [done|]); intros t Ht;
    inversion Ht; subst t; (split; [done|]); (split; [intros; (lia || done)|]);
    intros _ _; exists s; (split; [done|]); (split; [done|]); split; [done | lia].
Qed.

End ProgramProperties.

Lemma accepted_run_ends_witness :
  exists e s,
    main decimal (fun _ => Some sample_trace) true true 5 sample_args = Done e /\
    run 5 (mkConfig ALG_LRU WP_WRITE_BACK 2 4)
        (init (mkConfig ALG_LRU WP_WRITE_BACK 2 4)) sample_trace = Done s /\
    e = ExitStats (final_stats (mkConfig ALG_LRU WP_WRITE_BACK 2 4) s) /\
    Z.of_nat (length (frames s)) = 4 /\ Z.of_nat (length (tlb s)) = 2.
Proof.
  destruct (accepted_run_ends decimal (fun _ => Some sample_trace) true true
              sample_args (mkConfig ALG_LRU WP_WRITE_BACK 2 4) "trace.txt" 5)
    as (e & He & _ & Hrun).
  - intros q t Ht. inversion Ht. exact sample_trace_valid.
  - vm_compute. reflexivity.
  - simpl. lia.
  - destruct (Hrun sample_trace eq_refl) as (_ & _ & Hok).
    destruct (Hok eq_refl (or_intror eq_refl)) as (s & Hs & Hes & Hl1 & Hl2).
    exists e, s. split; [exact He|]. split; [exact Hs|]. split; [exact Hes|].
    split; [exact Hl1 | exact Hl2].
Defined.
